(** * Nusantara-Finder: the similarity calculator

    A shallow embedding of [src/app/similarity_calculator.py] and the
    properties of its scorers (Jaccard, cosine, normalised BM25) and of
    the [search] pipeline.

    - Python [float] is IEEE-754 binary64.  It is modelled by the
      Standard Library's [spec_float] at precision 53 and maximal
      exponent 1024, with the correctly rounded operations of
      [SpecFloat]; nothing is idealised to real or rational numbers.
    - Python [int] is unbounded and modelled by [Z].
    - Python [str] is modelled by the [string] of its UTF-8 bytes, with
      the white space of [str.split] and the code-point count of [len];
      [str.lower], which follows the Unicode database of the
      interpreter, is a parameter of the model.
    - A [dict] is modelled by an association list in insertion order,
      which is the order Python iterates in.
    - Exceptions are modelled by the error monad [result]. *)

From Stdlib Require Import ZArith List String Ascii Bool Lia.
From Stdlib Require Import Permutation Sorted.
From Stdlib Require Import Floats.SpecFloat.
From Stdlib Require Import DecimalString.
From Stdlib Require Reals Lra.
Import ListNotations.
Local Open Scope Z_scope.

(** ** Exceptions *)

Inductive exn : Type :=
| OverflowError
| ZeroDivisionError
| IndexError.

Inductive result (A : Type) : Type :=
| Ok (a : A)
| Raise (e : exn).

Arguments Ok {A} a.
Arguments Raise {A} e.

Definition bind {A B : Type} (r : result A) (k : A -> result B) : result B :=
  match r with
  | Ok a => k a
  | Raise e => Raise e
  end.

Notation "x <- r ;; k" := (bind r (fun x => k))
  (at level 61, r at next level, right associativity).

(** ** Binary64 arithmetic *)

Module F64.

Definition prec : Z := 53.
Definition emax : Z := 1024.

Definition float : Type := spec_float.

Definition zero : float := S754_zero false.
Definition one : float := S754_finite false 4503599627370496 (-52).

Definition sub : float -> float -> float := SFsub prec emax.
Definition mul : float -> float -> float := SFmul prec emax.
Definition div : float -> float -> float := SFdiv prec emax.
Definition sqrt : float -> float := SFsqrt prec emax.

(** Python's [==], [<], [<=], [>], [>=] on floats: all false on a NaN. *)
Definition eqb : float -> float -> bool := SFeqb.
Definition ltb : float -> float -> bool := SFltb.
Definition leb : float -> float -> bool := SFleb.
Definition gtb (x y : float) : bool := SFltb y x.
Definition geb (x y : float) : bool := SFleb y x.

Definition is_nan (x : float) : bool :=
  match x with S754_nan => true | _ => false end.

Definition is_finite (x : float) : bool :=
  match x with S754_zero _ | S754_finite _ _ _ => true | _ => false end.

(** A well-formed binary64 value: a finite one has a canonical mantissa
    and an exponent in range. *)
Definition valid (x : float) : bool := valid_binary prec emax x.

(** [float(n)] for a Python int: rounded to nearest, ties to even;
    [OverflowError] when the rounded value is out of range. *)
Definition of_int (n : Z) : result float :=
  match binary_normalize prec emax n 0 false with
  | S754_infinity _ => Raise OverflowError
  | x => Ok x
  end.

(** The integer [n] as an unrounded mantissa with exponent 0. *)
Definition exact_int (n : Z) : float :=
  match n with
  | Z0 => S754_zero false
  | Zpos p => S754_finite false p 0
  | Zneg p => S754_finite true p 0
  end.

(** [a / b] for two Python ints (true division): the exact quotient
    rounded once to nearest, ties to even. *)
Definition int_true_divide (a b : Z) : result float :=
  if b =? 0 then Raise ZeroDivisionError
  else match SFdiv prec emax (exact_int a) (exact_int b) with
       | S754_infinity _ => Raise OverflowError
       | x => Ok x
       end.

(** [x / y] for two Python floats. *)
Definition float_divide (x y : float) : result float :=
  if eqb y zero then Raise ZeroDivisionError else Ok (div x y).

End F64.

Example of_int_15 : F64.of_int 15 = Ok (S754_finite false 8444249301319680 (-49)).
Proof. reflexivity. Qed.

Example int_true_divide_1_3 :
  F64.int_true_divide 1 3 = Ok (S754_finite false 6004799503160661 (-54)).
Proof. reflexivity. Qed.

(** ** Python containers *)

(** A [dict]: association list in insertion order.  A well-formed one has
    no repeated key; [dict_set] keeps it so. *)
Definition dict (K V : Type) : Type := list (K * V).

Section Dict.
Context {K V : Type}.
Variable keq : K -> K -> bool.

Fixpoint dict_get (k : K) (d : dict K V) : option V :=
  match d with
  | [] => None
  | (k', v) :: d' => if keq k' k then Some v else dict_get k d'
  end.

(** [d.get(k, default)] *)
Definition dict_get_default (k : K) (default : V) (d : dict K V) : V :=
  match dict_get k d with
  | Some v => v
  | None => default
  end.

(** [d[k] = v] *)
Fixpoint dict_set (k : K) (v : V) (d : dict K V) : dict K V :=
  match d with
  | [] => [(k, v)]
  | (k', v') :: d' =>
      if keq k' k then (k', v) :: d' else (k', v') :: dict_set k v d'
  end.

Definition keys (d : dict K V) : list K := map fst d.
Definition values (d : dict K V) : list V := map snd d.
End Dict.

(** A Python [set] of strings: a list without repetition. *)
Definition set_of (l : list string) : list string := nodup string_dec l.

Definition mem (w : string) (s : list string) : bool :=
  existsb (String.eqb w) s.

(** [a & b] *)
Definition set_inter (a b : list string) : list string :=
  filter (fun w => mem w b) a.

(** [a | b] *)
Definition set_union (a b : list string) : list string :=
  a ++ filter (fun w => negb (mem w a)) b.

(** [len(x)] *)
Definition len {A : Type} (l : list A) : Z := Z.of_nat (List.length l).

(** [collections.Counter(words)] *)
Fixpoint counter_add (w : string) (c : dict string Z) : dict string Z :=
  match c with
  | [] => [(w, 1)]
  | (k, n) :: c' =>
      if String.eqb k w then (k, n + 1) :: c' else (k, n) :: counter_add w c'
  end.

Definition Counter (words : list string) : dict string Z :=
  fold_left (fun c w => counter_add w c) words [].

(** [sum(freq ** 2 for freq in freqs)] *)
Definition sum_squares (freqs : list Z) : Z :=
  fold_left (fun acc freq => acc + freq ^ 2) freqs 0.

(** A [for] loop whose body may raise. *)
Fixpoint for_each {A S : Type} (body : S -> A -> result S) (l : list A) (s : S)
  : result S :=
  match l with
  | [] => Ok s
  | a :: l' => s' <- body s a ;; for_each body l' s'
  end.

(** ** Python strings

    A [str] is a sequence of Unicode code points.  It is held as the
    [string] of the bytes of its UTF-8 encoding, so that [==] on [str]
    is equality of [string]. *)

(** [len(s)], the number of code points of [s]: every byte counts but
    those that continue a character (10xxxxxx). *)
Definition continuation (c : ascii) : bool :=
  let n := nat_of_ascii c in
  (128 <=? n)%nat && (n <=? 191)%nat.

Fixpoint str_len (s : string) : Z :=
  match s with
  | EmptyString => 0
  | String c s' => (if continuation c then 0 else 1) + str_len s'
  end.

(** The white space of [str.split()] and [str.isspace()]:
    - U+0009 to U+000D and U+001C to U+0020, one byte each;
    - U+0085 (C2 85) and U+00A0 (C2 A0);
    - U+1680 (E1 9A 80);
    - U+2000 to U+200A (E2 80 80 to E2 80 8A), U+2028 (E2 80 A8),
      U+2029 (E2 80 A9), U+202F (E2 80 AF) and U+205F (E2 81 9F);
    - U+3000 (E3 80 80).
    [space_width s] is the number of bytes of the white space character
    [s] starts with, 0 when [s] starts with none. *)
Definition space_width (s : string) : nat :=
  match s with
  | EmptyString => 0
  | String c s1 =>
      let n := nat_of_ascii c in
      if ((9 <=? n) && (n <=? 13) || (28 <=? n) && (n <=? 32))%nat then 1
      else
        match s1 with
        | EmptyString => 0
        | String c1 s2 =>
            let n1 := nat_of_ascii c1 in
            if (n =? 194)%nat then
              (if ((n1 =? 133) || (n1 =? 160))%nat then 2 else 0)
            else
              match s2 with
              | EmptyString => 0
              | String c2 _ =>
                  let n2 := nat_of_ascii c2 in
                  if ((n =? 225) && (n1 =? 154) && (n2 =? 128))%nat then 3
                  else if ((n =? 226) && (n1 =? 128)
                           && ((128 <=? n2) && (n2 <=? 138) || (n2 =? 168)
                               || (n2 =? 169) || (n2 =? 175)))%nat then 3
                  else if ((n =? 226) && (n1 =? 129) && (n2 =? 159))%nat then 3
                  else if ((n =? 227) && (n1 =? 128) && (n2 =? 128))%nat then 3
                  else 0
              end
        end
  end.

(** [s.split()]: the maximal runs of characters that are not white space.
    [cur] is the run being read, [skip] the number of bytes left of the
    white space character being passed. *)
Fixpoint split_from (skip : nat) (cur : string) (s : string) : list string :=
  match s with
  | EmptyString => if String.eqb cur EmptyString then [] else [cur]
  | String c s' =>
      match skip with
      | S skip' => split_from skip' cur s'
      | O =>
          match space_width s with
          | S width =>
              if String.eqb cur EmptyString then split_from width EmptyString s'
              else cur :: split_from width EmptyString s'
          | O => split_from O (cur ++ String c EmptyString) s'
          end
      end
  end.

Definition split (s : string) : list string := split_from O EmptyString s.

Example split_ex :
  split "  pantai  bali a "%string = ["pantai"; "bali"; "a"]%string.
Proof. reflexivity. Qed.

(** U+00A0 and U+3000 separate words as a blank does, and the one
    character U+00E9 has length 1. *)
Example split_unicode_ex :
  split ("ab" ++ String "194" (String "160" "cd")
         ++ String "227" (String "128" (String "128" "e")))%string
  = ["ab"; "cd"; "e"]%string.
Proof. reflexivity. Qed.

Example str_len_ex : str_len (String "195" (String "169" EmptyString)) = 1.
Proof. reflexivity. Qed.

(** A [str] of white space only, the empty one included. *)
Fixpoint all_space_from (skip : nat) (s : string) : bool :=
  match s with
  | EmptyString => true
  | String c s' =>
      match skip with
      | S skip' => all_space_from skip' s'
      | O =>
          match space_width s with
          | S width => all_space_from width s'
          | O => false
          end
      end
  end.

Definition all_space (s : string) : bool := all_space_from O s.

(** [s.lower()] follows the Unicode database of the interpreter (the
    lower-case mappings, one of them to two code points, and the rule of
    the final sigma), which is no part of the repository: the calculator
    is given over every such function.  Of [str.lower] the properties use
    no more than this: lowering twice is lowering once; white space has
    no case; a [str] that is not empty stays so. *)
Class Unicode : Type := {
  lower : string -> string;
  lower_idempotent : forall s, lower (lower s) = lower s;
  lower_all_space : forall s, all_space s = true -> lower s = s;
  lower_not_empty : forall s, lower s = EmptyString -> s = EmptyString
}.

(** ** list.sort(key=..., reverse=True)

    CPython reverses the list, sorts it stably in ascending key order
    using only [<] on the keys, and reverses it again.  The ascending
    sort is given as a stable insertion sort: on keys that [<] orders
    totally every stable sort returns the same list. *)
Section Sort.
Context {A : Type}.
Variable key : A -> F64.float.

Fixpoint insert_by_key (x : A) (l : list A) : list A :=
  match l with
  | [] => [x]
  | y :: l' =>
      if F64.ltb (key x) (key y) then x :: y :: l'
      else y :: insert_by_key x l'
  end.

Definition sort_ascending (l : list A) : list A :=
  fold_left (fun sorted x => insert_by_key x sorted) l [].

Definition sort_reverse (l : list A) : list A :=
  rev (sort_ascending (rev l)).
End Sort.

(** ** The similarity calculator *)

(** [rank_bm25.BM25Okapi] is an external library.  Of a model only
    [get_scores] is used: one raw score per document of the corpus the
    model was built from. *)
Record BM25Okapi : Type := { get_scores : list string -> list F64.float }.

(** A term-frequency table, the metadata of one document, and the two
    stores the calculator is built from. *)
Definition freq_map : Type := dict string Z.
Definition doc_data : Type := dict string string.

Record SimilarityCalculator : Type := {
  inverted_index : dict Z freq_map;
  combined_data : dict Z doc_data;
  bm25_model : BM25Okapi;
  bm25_id_map : list Z
}.

(** One entry of the list [search] returns. *)
Record ScoredResult : Type := {
  content_id : Z;
  title : string;
  similarity : F64.float;
  category : string;
  date : string;
  image_url : string;
  url : string;
  content : string
}.

Section Init.
(** The constructor of the external model, from the token lists. *)
Variable new_BM25Okapi : list (list string) -> BM25Okapi.

(** [tokens.extend([word] * freq)] for every entry of a table. *)
Definition expand_tokens (table : freq_map) : list string :=
  flat_map (fun '(word, freq) => repeat word (Z.to_nat freq)) table.

(** [__init__] with [_build_bm25]: corpus and identifier map are filled
    in one pass over the index. *)
Definition init (index : dict Z freq_map) (data : dict Z doc_data)
  : SimilarityCalculator :=
  let bm25_corpus := map (fun '(_, table) => expand_tokens table) index in
  {| inverted_index := index;
     combined_data := data;
     bm25_model := new_BM25Okapi bm25_corpus;
     bm25_id_map := map fst index |}.
End Init.

Definition preprocess_query {U : Unicode} (query : string) : list string :=
  let words := split (lower query) in
  filter (fun w => 1 <? str_len w) words.

Definition calculate_jaccard (query_words : list string) (doc_words_freq : freq_map)
  : result F64.float :=
  let query_set := set_of query_words in
  let doc_set := set_of (keys doc_words_freq) in
  let intersection := len (set_inter query_set doc_set) in
  let union := len (set_union query_set doc_set) in
  if union =? 0 then Ok F64.zero
  else F64.int_true_divide intersection union.

(** The loop of [calculate_cosine] that accumulates the dot product. *)
Definition dot_product_of (query_freq doc_words_freq : freq_map) : Z :=
  fold_left
    (fun dot_product '(word, qf) =>
       match dict_get String.eqb word doc_words_freq with
       | Some df => dot_product + qf * df
       | None => dot_product
       end)
    query_freq 0.

(** [math.sqrt(n)] for a Python int [n >= 0]. *)
Definition math_sqrt (n : Z) : result F64.float :=
  x <- F64.of_int n ;; Ok (F64.sqrt x).

Definition calculate_cosine (query_words : list string) (doc_words_freq : freq_map)
  : result F64.float :=
  let query_freq := Counter query_words in
  let dot_product := dot_product_of query_freq doc_words_freq in
  query_magnitude <- math_sqrt (sum_squares (values query_freq)) ;;
  doc_magnitude <- math_sqrt (sum_squares (values doc_words_freq)) ;;
  if F64.eqb query_magnitude F64.zero || F64.eqb doc_magnitude F64.zero
  then Ok F64.zero
  else
    let denominator := F64.mul query_magnitude doc_magnitude in
    numerator <- F64.of_int dot_product ;;
    F64.float_divide numerator denominator.

(** The builtins [max] and [min] on a non-empty sequence: the first
    element is kept until a later one compares greater (smaller). *)
Definition py_max (x : F64.float) (xs : list F64.float) : F64.float :=
  fold_left (fun m y => if F64.gtb y m then y else m) xs x.

Definition py_min (x : F64.float) (xs : list F64.float) : F64.float :=
  fold_left (fun m y => if F64.ltb y m then y else m) xs x.

(** The dict comprehensions of [calculate_bm25]: for [i] in
    [range(len(raw_scores))], key [bm25_id_map[i]], value
    [f raw_scores[i]]. *)
Definition comprehension (id_map : list Z) (raw_scores : list F64.float)
  (f : F64.float -> F64.float) : result (dict Z F64.float) :=
  for_each
    (fun normalized i =>
       match nth_error id_map i, nth_error raw_scores i with
       | Some doc_id, Some raw => Ok (dict_set Z.eqb doc_id (f raw) normalized)
       | _, _ => Raise IndexError
       end)
    (seq 0 (List.length raw_scores)) [].

Definition calculate_bm25 (self : SimilarityCalculator) (query_words : list string)
  : result (dict Z F64.float) :=
  let raw_scores := get_scores (bm25_model self) query_words in
  let max_score :=
    match raw_scores with x :: xs => py_max x xs | [] => F64.one end in
  let min_score :=
    match raw_scores with x :: xs => py_min x xs | [] => F64.zero end in
  let score_range := F64.sub max_score min_score in
  if F64.eqb score_range F64.zero
  then comprehension (bm25_id_map self) raw_scores (fun _ => F64.zero)
  else comprehension (bm25_id_map self) raw_scores
         (fun raw => F64.div (F64.sub raw min_score) score_range).

(** [if target_category:] *)
Definition truthy (target_category : option string) : bool :=
  match target_category with
  | Some c => negb (String.eqb c EmptyString)
  | None => false
  end.

(** The category test of the loop of [search]: true when the document
    is kept. *)
Definition category_matches {U : Unicode} (data : doc_data)
  (target_category : option string) : bool :=
  if truthy target_category then
    match target_category with
    | Some c =>
        let doc_category :=
          lower (dict_get_default String.eqb "category"%string EmptyString data) in
        String.eqb doc_category (lower c)
    | None => true
    end
  else true.

(** The [if]/[elif] chain of [search] that selects the scorer. *)
Definition score (algorithm : string) (query_words : list string)
  (bm25_scores : dict Z F64.float) (doc_id : Z) (doc_words_freq : freq_map)
  : result F64.float :=
  if String.eqb algorithm "jaccard" then
    calculate_jaccard query_words doc_words_freq
  else if String.eqb algorithm "cosine" then
    calculate_cosine query_words doc_words_freq
  else if String.eqb algorithm "bm25" then
    Ok (dict_get_default Z.eqb doc_id F64.zero bm25_scores)
  else Ok F64.zero.

Definition make_result (doc_id : Z) (data : doc_data) (sim : F64.float)
  : ScoredResult :=
  let field name default := dict_get_default String.eqb name default data in
  {| content_id := doc_id;
     title := field "title"%string "Unknown Title"%string;
     similarity := sim;
     category := field "category"%string "Unknown Category"%string;
     date := field "date"%string "Unknown Date"%string;
     image_url := field "image_url"%string EmptyString;
     url := field "url"%string EmptyString;
     content := field "content"%string EmptyString |}.

(** The body of the [for] loop of [search]. *)
Definition search_step {U : Unicode} (self : SimilarityCalculator)
  (query_words : list string)
  (algorithm : string) (target_category : option string)
  (min_similarity : F64.float) (bm25_scores : dict Z F64.float)
  (results : list ScoredResult) (item : Z * freq_map)
  : result (list ScoredResult) :=
  let '(doc_id, doc_words_freq) := item in
  let data := dict_get_default Z.eqb doc_id [] (combined_data self) in
  if negb (category_matches data target_category) then Ok results
  else
    sim <- score algorithm query_words bm25_scores doc_id doc_words_freq ;;
    if F64.geb sim min_similarity
    then Ok (results ++ [make_result doc_id data sim])
    else Ok results.

Definition search {U : Unicode} (self : SimilarityCalculator) (query : string)
  (algorithm : string) (target_category : option string)
  (min_similarity : F64.float) : result (list ScoredResult) :=
  let query_words := preprocess_query query in
  match query_words with
  | [] => Ok []
  | _ :: _ =>
      bm25_scores <-
        (if String.eqb algorithm "bm25" then calculate_bm25 self query_words
         else Ok []) ;;
      results <-
        for_each
          (search_step self query_words algorithm target_category
             min_similarity bm25_scores)
          (inverted_index self) [] ;;
      Ok (sort_reverse similarity results)
  end.

(** ** The search page of [app.py]

    [search_results] reads the query, the category, the algorithm and
    the page number from the request, runs the search and cuts the page
    out of the results; the template that renders the page is external.
    The handler is given with the four request parameters as arguments,
    for a request that carries a query. *)

(** [l[start:stop]]: a negative index counts from the end, and both
    indices are brought into [0, len(l)]. *)
Definition slice {A : Type} (l : list A) (start stop : Z) : list A :=
  let n := len l in
  let clamp i := if i <? 0 then Z.max (i + n) 0 else Z.min i n in
  skipn (Z.to_nat (clamp start)) (firstn (Z.to_nat (clamp stop)) l).

(** [range(start, stop)] *)
Definition range (start stop : Z) : list Z :=
  map (fun i => start + Z.of_nat i) (seq 0 (Z.to_nat (stop - start))).

(** What the handler passes to the template. *)
Record Page : Type := {
  page_query : string;
  results : list ScoredResult;
  total_results : Z;
  total_pages : Z;
  current_page : Z;
  page_range : list Z;
  page_category : option string;
  page_algorithm : string
}.

(** The literal [0.01]. *)
Definition min_similarity_shown : F64.float :=
  S754_finite false 5764607523034235 (-59).

Definition search_results {U : Unicode} (similarity_calc : SimilarityCalculator)
  (query : string) (category : option string) (algorithm : string) (page : Z)
  : result Page :=
  let algorithm :=
    if existsb (String.eqb algorithm) ["jaccard"; "cosine"; "bm25"]%string
    then algorithm else "jaccard"%string in
  all_results <-
    search similarity_calc query algorithm category min_similarity_shown ;;
  let results_per_page := 10 in
  let total_results := len all_results in
  let total_pages := (total_results + results_per_page - 1) / results_per_page in
  let page :=
    if page <? 1 then 1
    else if (total_pages <? page) && (0 <? total_pages) then total_pages
    else page in
  let start := (page - 1) * results_per_page in
  let stop := start + results_per_page in
  let paginated_results := slice all_results start stop in
  let page_range :=
    range (Z.max 1 (page - 2)) (Z.min total_pages (page + 2) + 1) in
  Ok {| page_query := query;
        results := paginated_results;
        total_results := total_results;
        total_pages := total_pages;
        current_page := page;
        page_range := page_range;
        page_category := category;
        page_algorithm := algorithm |}.

(** ** [format_similarity_percentage]

    [f"{similarity_score * 100:.2f}%"] for a float score.  The format
    [.2f] writes the exact value of the float rounded to two decimals,
    to nearest and ties to even, with the sign of the float. *)

(** [str(n)] for an int that is not negative, and the two digits of an
    int below 100. *)
Definition decimal (n : Z) : string :=
  NilZero.string_of_uint (N.to_uint (Z.to_N n)).

Definition two_digits (k : Z) : string :=
  String (ascii_of_nat (48 + Z.to_nat (k / 10)))
    (String (ascii_of_nat (48 + Z.to_nat (k mod 10))) EmptyString).

(** [p / d] rounded to the nearest integer, ties to even. *)
Definition round_half_even_div (p d : Z) : Z :=
  let q := p / d in
  match 2 * (p mod d) ?= d with
  | Lt => q
  | Eq => if Z.even q then q else q + 1
  | Gt => q + 1
  end.

(** The absolute value of a finite float in hundredths, rounded. *)
Definition hundredths (m : positive) (e : Z) : Z :=
  if 0 <=? e then Zpos m * 2 ^ e * 100
  else round_half_even_div (Zpos m * 100) (2 ^ (- e)).

(** [format(x, '.2f')] *)
Definition format_2f (x : F64.float) : string :=
  match x with
  | S754_nan => "nan"
  | S754_infinity s => if s then "-inf" else "inf"
  | S754_zero s => if s then "-0.00" else "0.00"
  | S754_finite s m e =>
      let n := hundredths m e in
      ((if s then "-" else EmptyString)
       ++ decimal (n / 100) ++ "." ++ two_digits (n mod 100))%string
  end.

(** The float [100.0] the int [100] is converted to. *)
Definition hundred : F64.float := S754_finite false 7036874417766400 (-46).

Definition format_similarity_percentage (similarity_score : F64.float) : string :=
  (format_2f (F64.mul similarity_score hundred) ++ "%")%string.

(** * Properties *)

(** ** The order on binary64 values *)

Module F64Order.

(** Position of a value that is not a NaN in the order of [SFcompare]:
    class, then exponent, then mantissa. *)
Definition order_key (x : F64.float) : Z * Z * Z :=
  match x with
  | S754_infinity true => (-2, 0, 0)
  | S754_finite true m e => (-1, - e, - Zpos m)
  | S754_zero _ | S754_nan => (0, 0, 0)
  | S754_finite false m e => (1, e, Zpos m)
  | S754_infinity false => (2, 0, 0)
  end.

Definition lex_compare (a b : Z * Z * Z) : comparison :=
  let '(a1, a2, a3) := a in
  let '(b1, b2, b3) := b in
  match a1 ?= b1 with
  | Eq => match a2 ?= b2 with Eq => a3 ?= b3 | c => c end
  | c => c
  end.

Lemma compare_key (x y : F64.float) :
  F64.is_nan x = false -> F64.is_nan y = false ->
  SFcompare x y = Some (lex_compare (order_key x) (order_key y)).
Proof.
  destruct x as [sx | sx | | sx mx ex], y as [sy | sy | | sy my ey];
    try discriminate; intros _ _;
    try (destruct sx); try (destruct sy); try reflexivity;
    cbn [SFcompare order_key lex_compare].
  - change (-1 ?= -1) with Eq; cbv beta iota.
    rewrite !Z.compare_opp, (Z.compare_antisym ex ey).
    change (Zpos my ?= Zpos mx) with (Pos.compare my mx).
    rewrite (Pos.compare_antisym mx my).
    destruct (ex ?= ey); reflexivity.
Qed.

Lemma leb_not_nan (x y : F64.float) :
  F64.leb x y = true -> F64.is_nan x = false /\ F64.is_nan y = false.
Proof.
  unfold F64.leb, SFleb.
  destruct x, y; cbn; try discriminate; auto.
Qed.

Lemma lex_compare_Gt_trans (a b c : Z * Z * Z) :
  lex_compare a b <> Gt -> lex_compare b c <> Gt -> lex_compare a c <> Gt.
Proof.
  destruct a as [[a1 a2] a3], b as [[b1 b2] b3], c as [[c1 c2] c3].
  unfold lex_compare.
  destruct (Z.compare_spec a1 b1), (Z.compare_spec b1 c1),
    (Z.compare_spec a1 c1); try lia; try discriminate; try congruence;
    destruct (Z.compare_spec a2 b2), (Z.compare_spec b2 c2),
      (Z.compare_spec a2 c2); try lia; try discriminate; try congruence;
    destruct (Z.compare_spec a3 b3), (Z.compare_spec b3 c3),
      (Z.compare_spec a3 c3); try lia; try discriminate; congruence.
Qed.

Lemma leb_key (x y : F64.float) :
  F64.leb x y = true <->
  F64.is_nan x = false /\ F64.is_nan y = false /\
  lex_compare (order_key x) (order_key y) <> Gt.
Proof.
  split.
  - intros H. destruct (leb_not_nan _ _ H) as [Hx Hy].
    repeat split; trivial.
    unfold F64.leb, SFleb in H. rewrite (compare_key _ _ Hx Hy) in H.
    intros E; rewrite E in H; discriminate.
  - intros (Hx & Hy & H). unfold F64.leb, SFleb.
    rewrite (compare_key _ _ Hx Hy).
    destruct (lex_compare _ _); congruence.
Qed.

Lemma leb_trans (x y z : F64.float) :
  F64.leb x y = true -> F64.leb y z = true -> F64.leb x z = true.
Proof.
  rewrite !leb_key. intros (Hx & _ & Hxy) (_ & Hz & Hyz).
  repeat split; trivial. eapply lex_compare_Gt_trans; eassumption.
Qed.

Lemma lex_compare_antisym (a b : Z * Z * Z) :
  lex_compare b a = CompOpp (lex_compare a b).
Proof.
  destruct a as [[a1 a2] a3], b as [[b1 b2] b3]. unfold lex_compare.
  rewrite (Z.compare_antisym a1 b1), (Z.compare_antisym a2 b2),
    (Z.compare_antisym a3 b3).
  destruct (a1 ?= b1), (a2 ?= b2), (a3 ?= b3); reflexivity.
Qed.

(** What is not below is above or equal, away from NaN. *)
Lemma ltb_false_leb (x y : F64.float) :
  F64.is_nan x = false -> F64.is_nan y = false ->
  F64.ltb x y = false -> F64.leb y x = true.
Proof.
  intros Hx Hy H. apply leb_key. repeat split; trivial.
  unfold F64.ltb, SFltb in H. rewrite (compare_key _ _ Hx Hy) in H.
  rewrite lex_compare_antisym.
  destruct (lex_compare (order_key x) (order_key y)); cbn; congruence.
Qed.

Lemma ltb_leb (x y : F64.float) : F64.ltb x y = true -> F64.leb x y = true.
Proof.
  unfold F64.ltb, F64.leb, SFltb, SFleb.
  destruct (SFcompare x y) as [[]|]; congruence.
Qed.

Lemma leb_refl (x : F64.float) : F64.is_nan x = false -> F64.leb x x = true.
Proof.
  intros Hx. apply leb_key. repeat split; trivial.
  destruct (order_key x) as [[a b] c]. unfold lex_compare.
  rewrite !Z.compare_refl. discriminate.
Qed.

End F64Order.

(** ** Rounding to binary64

    [SpecFloat] gives the operations as programs on mantissas and
    exponents.  This module derives what the scorers need from them:
    a closed form of the two rounding stages, bounds on quotients, and
    the order and the subtraction of well-formed values read as integer
    multiples of 2 ^ -1074. *)

Module F64Round.

Lemma digits2_pos_log2 (p : positive) :
  Zpos (digits2_pos p) = Z.log2 (Zpos p) + 1.
Proof.
  induction p as [p IH | p IH |]; cbn [digits2_pos].
  - rewrite Pos2Z.inj_succ, IH.
    change (Zpos p~1) with (2 * Zpos p + 1).
    rewrite Z.log2_succ_double by lia. lia.
  - rewrite Pos2Z.inj_succ, IH.
    change (Zpos p~0) with (2 * Zpos p).
    rewrite Z.log2_double by lia. lia.
  - reflexivity.
Qed.

Lemma Zdigits2_log2 (m : Z) : 0 < m -> Zdigits2 m = Z.log2 m + 1.
Proof. destruct m; try lia. intros _. apply digits2_pos_log2. Qed.

Lemma Zdigits2_nonneg (m : Z) : 0 <= Zdigits2 m.
Proof. destruct m; cbn; lia. Qed.

Lemma Zdigits2_bounds (m : Z) :
  0 < m -> 2 ^ (Zdigits2 m - 1) <= m < 2 ^ Zdigits2 m.
Proof.
  intros H. rewrite (Zdigits2_log2 m H).
  replace (Z.log2 m + 1 - 1) with (Z.log2 m) by lia.
  replace (Z.log2 m + 1) with (Z.succ (Z.log2 m)) by lia.
  now apply Z.log2_spec.
Qed.

Lemma Zdigits2_le (m k : Z) : 0 <= m -> 0 <= k -> (Zdigits2 m <= k <-> m < 2 ^ k).
Proof.
  intros Hm Hk.
  destruct (Z.eq_dec m 0) as [-> | Hne].
  - cbn. split; intros _; [apply Z.pow_pos_nonneg; lia | lia].
  - rewrite (Zdigits2_log2 m) by lia.
    rewrite (Z.log2_lt_pow2 m k) by lia. lia.
Qed.

Lemma Zdigits2_ge (m k : Z) : 0 < m -> (k < Zdigits2 m <-> 2 ^ k <= m).
Proof.
  intros Hm. rewrite (Zdigits2_log2 m) by lia.
  destruct (Z.lt_ge_cases k 0) as [Hk | Hk].
  - rewrite (Z.pow_neg_r 2 k Hk). pose proof (Z.log2_nonneg m). lia.
  - rewrite (Z.log2_le_pow2 m k) by lia. lia.
Qed.

Lemma Zdigits2_mono (a b : Z) : 0 <= a <= b -> Zdigits2 a <= Zdigits2 b.
Proof.
  intros H. apply (Zdigits2_le a); try lia; [apply Zdigits2_nonneg |].
  destruct (Z.eq_dec b 0) as [-> | Hb].
  - replace a with 0 by lia. cbn. lia.
  - pose proof (Zdigits2_bounds b). lia.
Qed.

Lemma Zdigits2_mul_pow2 (m j : Z) :
  0 < m -> 0 <= j -> Zdigits2 (m * 2 ^ j) = Zdigits2 m + j.
Proof.
  intros Hm Hj.
  assert (0 < 2 ^ j) by (apply Z.pow_pos_nonneg; lia).
  rewrite !Zdigits2_log2 by nia.
  rewrite Z.log2_mul_pow2 by lia. lia.
Qed.

Lemma Zdigits2_div_pow2 (m n : Z) :
  0 < m -> 0 <= n < Zdigits2 m -> Zdigits2 (m / 2 ^ n) = Zdigits2 m - n.
Proof.
  intros Hm Hn.
  assert (0 < 2 ^ n) by (apply Z.pow_pos_nonneg; lia).
  assert (2 ^ n <= m) by (apply Zdigits2_ge; lia).
  assert (0 < m / 2 ^ n) by (apply Z.div_str_pos; lia).
  rewrite !Zdigits2_log2 by lia.
  rewrite <- Z.shiftr_div_pow2 by lia.
  rewrite Z.log2_shiftr by lia.
  rewrite (Zdigits2_log2 m) in Hn by lia. lia.
Qed.

(** *** Shifting the mantissa right *)

Lemma iter_pos_nat {A : Type} (f : A -> A) (p : positive) (x : A) :
  iter_pos f p x = Nat.iter (Pos.to_nat p) f x.
Proof.
  revert x. induction p as [p IH | p IH |]; intros x; cbn [iter_pos].
  - rewrite !IH, Pos2Nat.inj_xI.
    rewrite <- Nat.iter_succ_r, <- Nat.iter_add. f_equal. lia.
  - rewrite !IH, Pos2Nat.inj_xO, <- Nat.iter_add. f_equal. lia.
  - reflexivity.
Qed.

Lemma shr_1_nonneg (m : Z) (r s : bool) :
  0 <= m ->
  shr_1 {| shr_m := m; shr_r := r; shr_s := s |}
  = {| shr_m := m / 2; shr_r := Z.odd m; shr_s := r || s |}.
Proof.
  intros Hm. rewrite <- Z.div2_div.
  destruct m as [| [p | p |] |]; try reflexivity. lia.
Qed.

(** The record after [k] shifts. *)
Definition shifted (m : Z) (r s : bool) (k : nat) : shr_record :=
  match k with
  | O => {| shr_m := m; shr_r := r; shr_s := s |}
  | S j =>
      {| shr_m := m / 2 ^ Z.of_nat k;
         shr_r := Z.odd (m / 2 ^ Z.of_nat j);
         shr_s := (r || s) || negb (m mod 2 ^ Z.of_nat j =? 0) |}
  end.

Lemma mod_pow2_succ (m j : Z) :
  0 <= j ->
  (m mod 2 ^ (j + 1) =? 0)
  = (m mod 2 ^ j =? 0) && negb (Z.odd (m / 2 ^ j)).
Proof.
  intros Hj.
  assert (P : 0 < 2 ^ j) by (apply Z.pow_pos_nonneg; lia).
  rewrite Z.pow_add_r, Z.pow_1_r by lia.
  rewrite Z.rem_mul_r by lia.
  pose proof (Z.mod_pos_bound m (2 ^ j) P) as B1.
  rewrite (Zmod_odd (m / 2 ^ j)).
  destruct (Z.odd (m / 2 ^ j)); cbn.
  - rewrite andb_false_r. apply Z.eqb_neq. lia.
  - rewrite andb_true_r. f_equal. lia.
Qed.

Lemma iter_shr_1 (m : Z) (r s : bool) (k : nat) :
  0 <= m ->
  Nat.iter k shr_1 {| shr_m := m; shr_r := r; shr_s := s |} = shifted m r s k.
Proof.
  intros Hm. induction k as [| k IH]; [reflexivity |].
  rewrite Nat.iter_succ, IH. destruct k as [| j].
  - cbn [shifted]. rewrite shr_1_nonneg by exact Hm.
    change (2 ^ Z.of_nat 1) with 2. change (2 ^ Z.of_nat 0) with 1.
    rewrite Z.div_1_r, Z.mod_1_r. cbn. now rewrite orb_false_r.
  - cbn [shifted].
    assert (P : 0 < 2 ^ Z.of_nat (S j)) by (apply Z.pow_pos_nonneg; lia).
    rewrite shr_1_nonneg by (apply Z.div_pos; lia).
    f_equal.
    + rewrite Z.div_div by lia. f_equal.
      replace (Z.of_nat (S (S j))) with (Z.of_nat (S j) + 1) by lia.
      rewrite Z.pow_add_r by lia. reflexivity.
    + replace (Z.of_nat (S j)) with (Z.of_nat j + 1) by lia.
      rewrite mod_pow2_succ by lia.
      destruct (Z.odd (m / 2 ^ Z.of_nat j)), r, s,
        (m mod 2 ^ Z.of_nat j =? 0); reflexivity.
Qed.

Lemma shr_shifted (m : Z) (l : location) (e n : Z) :
  0 <= m ->
  shr (shr_record_of_loc m l) e n
  = match n with
    | Zpos p =>
        (shifted m (shr_r (shr_record_of_loc m l)) (shr_s (shr_record_of_loc m l))
           (Pos.to_nat p), e + n)
    | _ => (shr_record_of_loc m l, e)
    end.
Proof.
  intros Hm. unfold shr. destruct n as [| p | p]; try reflexivity.
  rewrite iter_pos_nat. f_equal.
  assert (E : shr_record_of_loc m l
              = {| shr_m := m; shr_r := shr_r (shr_record_of_loc m l);
                   shr_s := shr_s (shr_record_of_loc m l) |}).
  { destruct l as [| []]; reflexivity. }
  rewrite E at 1. now apply iter_shr_1.
Qed.

(** *** Rounding an integer quotient to nearest, ties to even *)

Definition loc_of_rem (rem n : Z) : location :=
  if rem =? 0 then loc_Exact else loc_Inexact (2 * rem ?= 2 ^ n).

(** [z / 2 ^ n] rounded to an integer. *)
Definition rne (z n : Z) : Z :=
  round_nearest_even (z / 2 ^ n) (loc_of_rem (z mod 2 ^ n) n).

Lemma shifted_loc (m : Z) (k : nat) :
  0 <= m -> k <> O ->
  loc_of_shr_record (shifted m false false k)
  = loc_of_rem (m mod 2 ^ Z.of_nat k) (Z.of_nat k).
Proof.
  intros Hm Hk. destruct k as [| j]; [congruence |]. cbn [shifted].
  unfold loc_of_rem.
  replace (Z.of_nat (S j)) with (Z.of_nat j + 1) by lia.
  rewrite mod_pow2_succ by lia.
  assert (P : 0 < 2 ^ Z.of_nat j) by (apply Z.pow_pos_nonneg; lia).
  pose proof (Z.mod_pos_bound m (2 ^ Z.of_nat j) P) as B.
  rewrite Z.pow_add_r, Z.pow_1_r by lia.
  rewrite Z.rem_mul_r by lia.
  rewrite (Zmod_odd (m / 2 ^ Z.of_nat j)).
  destruct (Z.odd (m / 2 ^ Z.of_nat j)); cbn [orb negb andb loc_of_shr_record];
    destruct (Z.eqb_spec (m mod 2 ^ Z.of_nat j) 0) as [E | E];
    cbn [negb andb loc_of_shr_record].
  - rewrite E. replace (2 * (0 + 2 ^ Z.of_nat j * 1)) with (2 ^ Z.of_nat j * 2) by lia.
    now rewrite Z.compare_refl.
  - f_equal. symmetry. apply Z.compare_gt_iff. lia.
  - reflexivity.
  - f_equal. symmetry. apply Z.compare_lt_iff. lia.
Qed.

Lemma rne_bounds (z n : Z) : z / 2 ^ n <= rne z n <= z / 2 ^ n + 1.
Proof.
  unfold rne, round_nearest_even.
  destruct (loc_of_rem _ _) as [| []]; try destruct (Z.even _); lia.
Qed.

Lemma rne_0 (z : Z) : rne z 0 = z.
Proof.
  unfold rne, loc_of_rem. change (2 ^ 0) with 1.
  now rewrite Z.mod_1_r, Z.div_1_r.
Qed.

Lemma rne_exact (a n : Z) : 0 <= n -> rne (a * 2 ^ n) n = a.
Proof.
  intros Hn. assert (P : 0 < 2 ^ n) by (apply Z.pow_pos_nonneg; lia).
  unfold rne, loc_of_rem.
  rewrite Z.mod_mul, Z.div_mul by lia. reflexivity.
Qed.

Lemma rne_rescale (z n j : Z) :
  0 <= n -> 0 <= j -> rne (z * 2 ^ j) (n + j) = rne z n.
Proof.
  intros Hn Hj.
  assert (Pn : 0 < 2 ^ n) by (apply Z.pow_pos_nonneg; lia).
  assert (Pj : 0 < 2 ^ j) by (apply Z.pow_pos_nonneg; lia).
  unfold rne, loc_of_rem.
  rewrite (Z.pow_add_r 2 n j) by lia.
  rewrite Z.div_mul_cancel_r by lia.
  rewrite Z.mul_mod_distr_r by lia.
  destruct (Z.eqb_spec (z mod 2 ^ n) 0) as [E | E].
  - rewrite E. reflexivity.
  - destruct (Z.eqb_spec (z mod 2 ^ n * 2 ^ j) 0) as [E' | E']; [nia |].
    replace (2 * (z mod 2 ^ n * 2 ^ j)) with (2 ^ j * (2 * (z mod 2 ^ n))) by lia.
    replace (2 ^ n * 2 ^ j) with (2 ^ j * 2 ^ n) by lia.
    rewrite <- Zmult_compare_compat_l by lia. reflexivity.
Qed.

Lemma rne_mono (z1 z2 n : Z) : 0 <= n -> z1 <= z2 -> rne z1 n <= rne z2 n.
Proof.
  intros Hn Hz.
  assert (P : 0 < 2 ^ n) by (apply Z.pow_pos_nonneg; lia).
  pose proof (Z.div_le_mono z1 z2 (2 ^ n) P Hz) as Hq.
  pose proof (rne_bounds z1 n) as B1. pose proof (rne_bounds z2 n) as B2.
  destruct (Z.eq_dec (z1 / 2 ^ n) (z2 / 2 ^ n)) as [E | NE].
  2:{ generalize dependent (rne z1 n). generalize dependent (rne z2 n).
      generalize dependent (z1 / 2 ^ n). generalize dependent (z2 / 2 ^ n).
      intros; clear P; lia. }
  pose proof (Z.div_mod z1 (2 ^ n) ltac:(lia)) as D1.
  pose proof (Z.div_mod z2 (2 ^ n) ltac:(lia)) as D2.
  assert (Hr : z1 mod 2 ^ n <= z2 mod 2 ^ n) by nia.
  pose proof (Z.mod_pos_bound z1 (2 ^ n) P) as M1.
  clear B1 B2 Hq D1 D2.
  unfold rne, loc_of_rem, round_nearest_even. rewrite <- E.
  generalize dependent (z1 / 2 ^ n). intros q _.
  generalize dependent (z1 mod 2 ^ n). generalize dependent (z2 mod 2 ^ n).
  generalize dependent (2 ^ n). clear. intros p _ r2 r1 Hr M1.
  destruct (Z.eqb_spec r1 0); destruct (Z.eqb_spec r2 0);
    repeat match goal with
      | |- context [Z.compare ?a ?b] => destruct (Z.compare_spec a b)
      end;
    destruct (Z.even q); lia.
Qed.

(** *** The two stages of [binary_round_aux] *)

Definition fexp (e : Z) : Z := SpecFloat.fexp F64.prec F64.emax e.

Lemma fexp_eq (e : Z) : fexp e = Z.max (e - 53) (-1074).
Proof. reflexivity. Qed.

Lemma shifted_m (m : Z) (r s : bool) (k : nat) :
  shr_m (shifted m r s k) = m / 2 ^ Z.of_nat k.
Proof. destruct k; [cbn; now rewrite Z.div_1_r | reflexivity]. Qed.

Lemma shr_fexp_nonneg (mx ex : Z) (lx : location) :
  0 <= mx ->
  let n := fexp (Zdigits2 mx + ex) - ex in
  shr_fexp F64.prec F64.emax mx ex lx
  = if 0 <? n
    then (shifted mx (shr_r (shr_record_of_loc mx lx))
            (shr_s (shr_record_of_loc mx lx)) (Z.to_nat n), ex + n)
    else (shr_record_of_loc mx lx, ex).
Proof.
  intros Hm n. unfold shr_fexp. fold (fexp (Zdigits2 mx + ex)). fold n.
  rewrite shr_shifted by exact Hm.
  destruct n as [| p | p]; reflexivity.
Qed.

(** The second stage: renormalisation after a possible carry, and the
    range check. *)
Definition finish (sx : bool) (m : Z) (e : Z) : F64.float :=
  let '(mrs, e') := shr_fexp F64.prec F64.emax m e loc_Exact in
  match shr_m mrs with
  | Z0 => S754_zero sx
  | Zpos p => if e' <=? 971 then S754_finite sx p e' else S754_infinity sx
  | Zneg _ => S754_nan
  end.

Lemma binary_round_aux_finish (sx : bool) (mx ex : Z) (lx : location) :
  binary_round_aux F64.prec F64.emax sx mx ex lx
  = let '(mrs, e) := shr_fexp F64.prec F64.emax mx ex lx in
    finish sx (round_nearest_even (shr_m mrs) (loc_of_shr_record mrs)) e.
Proof.
  unfold binary_round_aux, finish.
  destruct (shr_fexp F64.prec F64.emax mx ex lx) as [mrs e]. reflexivity.
Qed.

Lemma finish_zero (sx : bool) (e : Z) : finish sx 0 e = S754_zero sx.
Proof.
  unfold finish. rewrite shr_fexp_nonneg by lia. cbv zeta.
  destruct (0 <? _); cbn [shr_record_of_loc shr_m]; [| reflexivity].
  rewrite shifted_m. now rewrite Z.div_0_l by (apply Z.pow_nonzero; lia).
Qed.

Lemma finish_small (sx : bool) (m e : Z) :
  0 < m < 2 ^ 53 -> -1074 <= e ->
  finish sx m e
  = if e <=? 971 then S754_finite sx (Z.to_pos m) e else S754_infinity sx.
Proof.
  intros Hm He. unfold finish. rewrite shr_fexp_nonneg by lia. cbv zeta.
  assert (D : Zdigits2 m <= 53) by (apply Zdigits2_le; lia).
  rewrite fexp_eq.
  destruct (Z.ltb_spec 0 (Z.max (Zdigits2 m + e - 53) (-1074) - e)); [lia |].
  cbn [shr_record_of_loc shr_m].
  destruct m; try lia. reflexivity.
Qed.

Lemma finish_carry (sx : bool) (e : Z) :
  -1074 <= e ->
  finish sx (2 ^ 53) e
  = if e + 1 <=? 971 then S754_finite sx (2 ^ 52) (e + 1) else S754_infinity sx.
Proof.
  intros He. unfold finish. rewrite shr_fexp_nonneg by lia. cbv zeta.
  rewrite fexp_eq. change (Zdigits2 (2 ^ 53)) with 54.
  replace (Z.max (54 + e - 53) (-1074) - e) with 1 by lia.
  reflexivity.
Qed.

(** The first stage leaves at most 53 digits. *)
Lemma stage1_digits (mx ex : Z) :
  0 <= mx ->
  let n := fexp (Zdigits2 mx + ex) - ex in
  (if 0 <? n then mx / 2 ^ n else mx) < 2 ^ 53 /\
  -1074 <= (if 0 <? n then ex + n else ex).
Proof.
  intros Hm n. subst n. rewrite fexp_eq.
  set (d := Zdigits2 mx).
  destruct (Z.ltb_spec 0 (Z.max (d + ex - 53) (-1074) - ex)) as [L | L].
  - split; [| lia].
    set (n := Z.max (d + ex - 53) (-1074) - ex) in *.
    assert (P : 0 < 2 ^ n) by (apply Z.pow_pos_nonneg; lia).
    apply Z.div_lt_upper_bound; [lia |].
    rewrite <- Z.pow_add_r by lia.
    apply (Zdigits2_le mx); lia.
  - split; [| lia]. apply (Zdigits2_le mx); lia.
Qed.

(** *** Results between 0.0 and 1.0 *)

Definition unit_interval (x : F64.float) : Prop :=
  F64.leb F64.zero x = true /\ F64.leb x F64.one = true.

Lemma leb_finite_pos (m m' : positive) (e e' : Z) :
  F64.leb (S754_finite false m e) (S754_finite false m' e') = true
  <-> e < e' \/ (e = e' /\ (m <= m')%positive).
Proof.
  rewrite F64Order.leb_key. cbn [F64.is_nan F64Order.order_key F64Order.lex_compare].
  change (1 ?= 1) with Eq. cbv iota.
  destruct (Z.compare_spec e e') as [E | L | G].
  - change (Zpos m ?= Zpos m') with (Pos.compare m m').
    rewrite <- Pos.compare_le_iff. intuition lia.
  - intuition (try lia; discriminate).
  - intuition (try lia; congruence).
Qed.

Lemma finish_unit (m e : Z) :
  0 <= m <= 2 ^ 53 -> -1074 <= e <= -52 -> m <= 2 ^ (- e) ->
  unit_interval (finish false m e).
Proof.
  intros Hm He Hb.
  destruct (Z.eq_dec m 0) as [-> | Hz].
  { rewrite finish_zero. split; reflexivity. }
  destruct (Z.eq_dec m (2 ^ 53)) as [-> | Hc].
  - rewrite finish_carry by lia.
    assert (e <= -53).
    { destruct (Z.le_gt_cases e (-53)); [assumption |].
      replace e with (-52) in Hb by lia. cbn in Hb. lia. }
    destruct (Z.leb_spec (e + 1) 971); [| lia].
    split; [reflexivity |].
    apply leb_finite_pos. change (2 ^ 52) with (Zpos 4503599627370496).
    cbn [Z.to_pos]. lia.
  - rewrite finish_small by lia.
    destruct (Z.leb_spec e 971); [| lia].
    split; [reflexivity |].
    apply leb_finite_pos.
    destruct (Z.eq_dec e (-52)) as [E | Hne]; [| lia].
    right. split; [exact E |]. rewrite E in Hb. cbn in Hb. lia.
Qed.

Lemma round_nearest_even_bounds (m : Z) (l : location) :
  m <= round_nearest_even m l <= m + 1 /\
  (l = loc_Exact -> round_nearest_even m l = m).
Proof.
  unfold round_nearest_even.
  destruct l as [| []]; try destruct (Z.even m); split; try lia; try congruence;
    reflexivity.
Qed.

Lemma shifted_exact (m : Z) (k : nat) :
  0 <= m -> m mod 2 ^ Z.of_nat k = 0 ->
  loc_of_shr_record (shifted m false false k) = loc_Exact.
Proof.
  intros Hm E. destruct k as [| j]; [reflexivity |].
  rewrite shifted_loc by (lia || discriminate).
  unfold loc_of_rem. now rewrite E.
Qed.

Lemma binary_round_aux_unit (q e : Z) (l : location) :
  0 <= q <= 2 ^ (- e) -> e <= -52 -> (q = 2 ^ (- e) -> l = loc_Exact) ->
  unit_interval (binary_round_aux F64.prec F64.emax false q e l).
Proof.
  intros Hq He Hl.
  rewrite binary_round_aux_finish, shr_fexp_nonneg by lia. cbv zeta.
  pose proof (stage1_digits q e ltac:(lia)) as S1. cbv zeta in S1.
  assert (P : 0 < 2 ^ (- e)) by (apply Z.pow_pos_nonneg; lia).
  assert (D : Zdigits2 q + e <= 1).
  { destruct (Z.eq_dec q (2 ^ (- e))) as [E | NE].
    - assert (Zdigits2 q <= - e + 1); [| lia].
      apply Zdigits2_le; try lia. rewrite E, Z.pow_add_r by lia. lia.
    - assert (Zdigits2 q <= - e); [| lia].
      apply Zdigits2_le; lia. }
  revert S1. rewrite fexp_eq.
  set (n := Z.max (Zdigits2 q + e - 53) (-1074) - e).
  destruct (Z.ltb_spec 0 n) as [L | L]; intros [S1 S2].
  - rewrite shifted_m, Z2Nat.id by lia.
    assert (Pn : 0 < 2 ^ n) by (apply Z.pow_pos_nonneg; lia).
    set (loc := loc_of_shr_record _).
    destruct (round_nearest_even_bounds (q / 2 ^ n) loc) as [B Bx].
    assert (N : - e = n + - (e + n)) by lia.
    assert (Q0 : 0 <= q / 2 ^ n) by (apply Z.div_pos; lia).
    assert (Q1 : round_nearest_even (q / 2 ^ n) loc <= 2 ^ (- (e + n))).
    { destruct (Z.eq_dec q (2 ^ (- e))) as [E | NE].
      - rewrite Bx.
        + rewrite E, N, Z.pow_add_r, Z.mul_comm, Z.div_mul by lia. lia.
        + subst loc. rewrite (Hl E). cbn [shr_record_of_loc shr_r shr_s].
          apply shifted_exact; [lia |]. rewrite Z2Nat.id by lia.
          rewrite E, N, Z.pow_add_r, Z.mul_comm by lia.
          apply Z.mod_mul. lia.
      - assert (q / 2 ^ n < 2 ^ (- (e + n))); [| lia].
        apply Z.div_lt_upper_bound; [lia |].
        rewrite <- Z.pow_add_r, <- N by lia. lia. }
    apply finish_unit; [lia | lia | exact Q1].
  - destruct (round_nearest_even_bounds q l) as [B Bx].
    assert (E1 : shr_m (shr_record_of_loc q l) = q) by (destruct l as [| []]; reflexivity).
    assert (E2 : loc_of_shr_record (shr_record_of_loc q l) = l)
      by (destruct l as [| []]; reflexivity).
    rewrite E1, E2.
    apply finish_unit; try lia.
    destruct (Z.eq_dec q (2 ^ (- e))) as [E | NE]; [rewrite Bx; auto; lia | lia].
Qed.

(** *** Division *)

Lemma new_location_zero (nb_steps : Z) : new_location nb_steps 0 = loc_Exact.
Proof.
  unfold new_location, new_location_even, new_location_odd.
  now destruct (Z.even nb_steps).
Qed.

Lemma div_core_shift (m1 : positive) (s : Z) :
  0 <= s ->
  match s with
  | Zpos _ => Z.shiftl (Zpos m1) s
  | Z0 => Zpos m1
  | Zneg _ => 0
  end = Zpos m1 * 2 ^ s.
Proof.
  intros Hs. destruct s as [| p | p]; try lia.
  now rewrite Z.shiftl_mul_pow2 by lia.
Qed.

(** A quotient of two positive values, the numerator not above the
    denominator, is rounded into the unit interval. *)
Lemma div_unit (m1 m2 : positive) (e1 e2 : Z) :
  e1 <= e2 -> Zpos m1 <= Zpos m2 * 2 ^ (e2 - e1) ->
  unit_interval (F64.div (S754_finite false m1 e1) (S754_finite false m2 e2)).
Proof.
  intros He Hm.
  unfold F64.div, SFdiv, SFdiv_core_binary. cbn [xorb].
  fold (fexp (Zdigits2 (Zpos m1) + e1 - (Zdigits2 (Zpos m2) + e2))).
  set (e' := Z.min _ (e1 - e2)).
  set (s := e1 - e2 - e').
  assert (P2 : 0 < 2 ^ (e2 - e1)) by (apply Z.pow_pos_nonneg; lia).
  assert (D : Zdigits2 (Zpos m1) + e1 <= Zdigits2 (Zpos m2) + e2).
  { pose proof (Zdigits2_mono (Zpos m1) (Zpos m2 * 2 ^ (e2 - e1)) ltac:(lia)) as M.
    rewrite Zdigits2_mul_pow2 in M by lia. lia. }
  assert (E' : e' <= -53).
  { subst e'. rewrite fexp_eq. lia. }
  assert (Hs : 0 <= s) by (subst s e'; lia).
  rewrite (div_core_shift m1 s Hs).
  assert (Ps : 0 < 2 ^ s) by (apply Z.pow_pos_nonneg; lia).
  assert (P' : 0 < 2 ^ (- e')) by (apply Z.pow_pos_nonneg; lia).
  assert (B : Zpos m1 * 2 ^ s <= Zpos m2 * 2 ^ (- e')).
  { replace (- e') with ((e2 - e1) + s) by (subst s; lia).
    rewrite Z.pow_add_r by lia. nia. }
  pose proof (Z_div_mod (Zpos m1 * 2 ^ s) (Zpos m2) ltac:(lia)) as DM.
  destruct (Z.div_eucl (Zpos m1 * 2 ^ s) (Zpos m2)) as [q r].
  destruct DM as [DM R].
  assert (Q : 0 <= q <= 2 ^ (- e')) by nia.
  apply binary_round_aux_unit; [exact Q | lia |].
  intros E. assert (r = 0) by nia. subst r. apply new_location_zero.
Qed.

Lemma div_self (s : bool) (m : positive) (e : Z) :
  F64.div (S754_finite s m e) (S754_finite s m e) = F64.one.
Proof.
  unfold F64.div, SFdiv, SFdiv_core_binary.
  replace (Zdigits2 (Zpos m) + e - (Zdigits2 (Zpos m) + e)) with 0 by lia.
  replace (e - e) with 0 by lia.
  change (Z.min (SpecFloat.fexp F64.prec F64.emax 0) 0) with (-53).
  change (0 - -53) with 53.
  rewrite Z.shiftl_mul_pow2 by lia.
  pose proof (Z_div_mod (Zpos m * 2 ^ 53) (Zpos m) ltac:(lia)) as DM.
  destruct (Z.div_eucl (Zpos m * 2 ^ 53) (Zpos m)) as [q r].
  destruct DM as [DM R].
  assert (Eq : q = 2 ^ 53).
  { generalize dependent (2 ^ 53). intros k DM.
    destruct (Z.lt_trichotomy q k) as [L | [E | G]]; [nia | exact E | nia]. }
  assert (r = 0) by (subst q; lia). subst q r.
  rewrite new_location_zero, xorb_nilpotent. reflexivity.
Qed.

Lemma div_zero_l (s : bool) (y : F64.float) :
  F64.is_finite y = true -> F64.eqb y F64.zero = false ->
  F64.eqb (F64.div (S754_zero s) y) F64.zero = true.
Proof.
  destruct y as [sy | sy | | sy my ey]; try discriminate; reflexivity.
Qed.

(** *** True division of Python ints *)

Lemma int_true_divide_unit (a b : Z) :
  0 <= a <= b -> 0 < b ->
  exists x, F64.int_true_divide a b = Ok x /\ unit_interval x.
Proof.
  intros Ha Hb. unfold F64.int_true_divide.
  destruct (Z.eqb_spec b 0) as [| _]; [lia |].
  destruct b as [| pb |]; try lia.
  destruct a as [| pa |]; try lia.
  - cbn. eexists. split; [reflexivity |]. split; reflexivity.
  - cbn [F64.exact_int].
    pose proof (div_unit pa pb 0 0 ltac:(lia) ltac:(cbn; lia)) as [U1 U2].
    unfold F64.div in U1, U2.
    destruct (SFdiv F64.prec F64.emax _ _) as [sx | sx | | sx mx ex] eqn:E;
      try discriminate.
    + eexists. split; [reflexivity |]. split; assumption.
    + destruct sx; discriminate.
    + eexists. split; [reflexivity |]. split; assumption.
Qed.

Lemma int_true_divide_zero (b : Z) :
  0 < b -> F64.int_true_divide 0 b = Ok F64.zero.
Proof.
  intros Hb. unfold F64.int_true_divide.
  destruct (Z.eqb_spec b 0) as [| _]; [lia |].
  destruct b; try lia. reflexivity.
Qed.

Lemma int_true_divide_self (b : Z) :
  0 < b -> F64.int_true_divide b b = Ok F64.one.
Proof.
  intros Hb. unfold F64.int_true_divide.
  destruct (Z.eqb_spec b 0) as [| _]; [lia |].
  destruct b; try lia. cbn [F64.exact_int].
  change (SFdiv F64.prec F64.emax) with F64.div.
  now rewrite div_self.
Qed.

(** *** Rounding an integer multiple of a power of two *)

Lemma iter_xO (m d : positive) :
  Zpos (Pos.iter xO m d) = Zpos m * 2 ^ Zpos d.
Proof.
  induction d as [| d IH] using Pos.peano_ind.
  - cbn [Pos.iter]. lia.
  - rewrite Pos.iter_succ, Pos2Z.inj_xO, IH.
    rewrite Pos2Z.inj_succ, Z.pow_succ_r by lia. lia.
Qed.

Lemma shl_align_spec (mx : positive) (ex ex' : Z) :
  snd (shl_align mx ex ex') = Z.min ex ex' /\
  Zpos (fst (shl_align mx ex ex')) = Zpos mx * 2 ^ (ex - Z.min ex ex').
Proof.
  unfold shl_align. destruct (ex' - ex) as [| d | d] eqn:E; cbn [fst snd].
  - replace (Z.min ex ex') with ex by lia. rewrite Z.sub_diag.
    change (2 ^ 0) with 1. lia.
  - replace (Z.min ex ex') with ex by lia. rewrite Z.sub_diag.
    change (2 ^ 0) with 1. lia.
  - replace (Z.min ex ex') with ex' by lia.
    split; [reflexivity |]. rewrite iter_xO. f_equal. f_equal. lia.
Qed.

(** The rounding of [z * 2 ^ e], for [z > 0]. *)
Definition round_pos (sx : bool) (z e : Z) : F64.float :=
  let t := fexp (Zdigits2 z + e) in
  finish sx (if e <=? t then rne z (t - e) else z * 2 ^ (e - t)) t.

Lemma binary_round_aux_exact (sx : bool) (z e : Z) :
  0 < z -> e <= fexp (Zdigits2 z + e) ->
  binary_round_aux F64.prec F64.emax sx z e loc_Exact
  = finish sx (rne z (fexp (Zdigits2 z + e) - e)) (fexp (Zdigits2 z + e)).
Proof.
  intros Hz He.
  rewrite binary_round_aux_finish, shr_fexp_nonneg by lia. cbv zeta.
  set (t := fexp (Zdigits2 z + e)) in *.
  destruct (Z.ltb_spec 0 (t - e)) as [L | L].
  - cbn [shr_record_of_loc shr_r shr_s].
    rewrite shifted_m, shifted_loc by lia.
    rewrite Z2Nat.id by lia.
    replace (e + (t - e)) with t by lia. reflexivity.
  - replace (t - e) with 0 by lia. rewrite rne_0.
    cbn [shr_record_of_loc shr_m loc_of_shr_record round_nearest_even].
    f_equal. lia.
Qed.

Lemma binary_round_spec (sx : bool) (mx : positive) (ex : Z) :
  binary_round F64.prec F64.emax sx mx ex = round_pos sx (Zpos mx) ex.
Proof.
  unfold binary_round, round_pos.
  fold (fexp (Zpos (digits2_pos mx) + ex)).
  change (Zpos (digits2_pos mx)) with (Zdigits2 (Zpos mx)).
  set (t := fexp (Zdigits2 (Zpos mx) + ex)).
  destruct (shl_align_spec mx ex t) as [E1 E2].
  destruct (shl_align mx ex t) as [mz ez]. cbn [fst snd] in E1, E2.
  assert (P : 0 < 2 ^ (ex - ez)) by (apply Z.pow_pos_nonneg; lia).
  assert (D : Zdigits2 (Zpos mz) + ez = Zdigits2 (Zpos mx) + ex).
  { rewrite E2, Zdigits2_mul_pow2 by lia. lia. }
  rewrite binary_round_aux_exact; rewrite ?D; fold t; try lia.
  destruct (Z.leb_spec ex t) as [L | L].
  - replace ez with ex in * by lia.
    replace (ex - Z.min ex t) with 0 in E2 by lia.
    rewrite E2. change (2 ^ 0) with 1. now rewrite Z.mul_1_r.
  - replace ez with t in * by lia. rewrite Z.sub_diag, rne_0.
    rewrite E2. replace (Z.min ex t) with t by lia. reflexivity.
Qed.

Lemma round_pos_rescale (sx : bool) (z e j : Z) :
  0 < z -> 0 <= j -> round_pos sx (z * 2 ^ j) e = round_pos sx z (e + j).
Proof.
  intros Hz Hj. unfold round_pos.
  rewrite Zdigits2_mul_pow2 by lia.
  replace (Zdigits2 z + j + e) with (Zdigits2 z + (e + j)) by lia.
  set (t := fexp (Zdigits2 z + (e + j))).
  f_equal.
  destruct (Z.leb_spec e t) as [L1 | L1];
    destruct (Z.leb_spec (e + j) t) as [L2 | L2]; try lia.
  - replace (t - e) with (t - (e + j) + j) by lia.
    apply rne_rescale; lia.
  - replace j with ((e + j - t) + (t - e)) at 1 by lia.
    rewrite Z.pow_add_r, Z.mul_assoc by lia.
    apply rne_exact. lia.
  - rewrite <- Z.mul_assoc, <- Z.pow_add_r by lia. do 2 f_equal. lia.
Qed.

(** *** Well-formed values as integer multiples of 2 ^ -1074 *)

Lemma valid_finite (s : bool) (m : positive) (e : Z) :
  F64.valid (S754_finite s m e) = true ->
  fexp (Zdigits2 (Zpos m) + e) = e /\ e <= 971.
Proof.
  unfold F64.valid, valid_binary, bounded, canonical_mantissa.
  intros H. apply andb_prop in H as [H1 H2].
  apply Z.eqb_eq in H1. apply Z.leb_le in H2.
  split; [exact H1 | exact H2].
Qed.

Lemma canonical_facts (m : positive) (e : Z) :
  fexp (Zdigits2 (Zpos m) + e) = e ->
  -1074 <= e /\ Zpos m < 2 ^ 53 /\ (-1074 < e -> 2 ^ 52 <= Zpos m).
Proof.
  rewrite fexp_eq. intros H.
  split; [lia |]. split.
  - apply (Zdigits2_le (Zpos m) 53); lia.
  - intros L. apply (Zdigits2_ge (Zpos m) 52); lia.
Qed.

(** The value of a finite [x] is [scaled x * 2 ^ -1074]. *)
Definition scaled (x : F64.float) : Z :=
  match x with
  | S754_finite s m e => cond_Zopp s (Zpos m * 2 ^ (e + 1074))
  | _ => 0
  end.

Lemma pow2_pos (n : Z) : 0 <= n -> 0 < 2 ^ n.
Proof. intros. apply Z.pow_pos_nonneg; lia. Qed.

Lemma pow2_split (a b : Z) : 0 <= b <= a -> 2 ^ a = 2 ^ (a - b) * 2 ^ b.
Proof. intros H. rewrite <- Z.pow_add_r by lia. f_equal. lia. Qed.

Lemma pow2_ge_2 (n : Z) : 0 < n -> 2 <= 2 ^ n.
Proof.
  intros H. replace n with (Z.succ (n - 1)) by lia.
  rewrite Z.pow_succ_r by lia. pose proof (pow2_pos (n - 1)). lia.
Qed.

Lemma canonical_compare (m1 m2 : positive) (e1 e2 : Z) :
  fexp (Zdigits2 (Zpos m1) + e1) = e1 ->
  fexp (Zdigits2 (Zpos m2) + e2) = e2 ->
  match e1 ?= e2 with
  | Eq => Pos.compare_cont Eq m1 m2
  | Lt => Lt
  | Gt => Gt
  end
  = (Zpos m1 * 2 ^ (e1 + 1074) ?= Zpos m2 * 2 ^ (e2 + 1074)).
Proof.
  intros C1 C2.
  destruct (canonical_facts m1 e1 C1) as (L1 & U1 & N1).
  destruct (canonical_facts m2 e2 C2) as (L2 & U2 & N2).
  destruct (Z.compare_spec e1 e2) as [E | L | G].
  - subst e2. pose proof (pow2_pos (e1 + 1074) ltac:(lia)).
    rewrite <- Zmult_compare_compat_r by lia. reflexivity.
  - symmetry. apply Z.compare_lt_iff.
    rewrite (pow2_split (e2 + 1074) (e1 + 1074)) by lia.
    replace (e2 + 1074 - (e1 + 1074)) with (e2 - e1) by lia.
    pose proof (pow2_pos (e1 + 1074) ltac:(lia)) as Pa.
    pose proof (pow2_ge_2 (e2 - e1) ltac:(lia)) as Pb.
    specialize (N2 ltac:(lia)). change (2 ^ 53) with (2 * 2 ^ 52) in U1.
    rewrite Z.mul_assoc. apply Z.mul_lt_mono_pos_r; [exact Pa |].
    generalize dependent (2 ^ (e2 - e1)). generalize dependent (2 ^ 52).
    intros; nia.
  - symmetry. apply Z.compare_gt_iff.
    rewrite (pow2_split (e1 + 1074) (e2 + 1074)) by lia.
    replace (e1 + 1074 - (e2 + 1074)) with (e1 - e2) by lia.
    pose proof (pow2_pos (e2 + 1074) ltac:(lia)) as Pa.
    pose proof (pow2_ge_2 (e1 - e2) ltac:(lia)) as Pb.
    specialize (N1 ltac:(lia)). change (2 ^ 53) with (2 * 2 ^ 52) in U2.
    rewrite Z.mul_assoc. apply Z.mul_lt_mono_pos_r; [exact Pa |].
    generalize dependent (2 ^ (e1 - e2)). generalize dependent (2 ^ 52).
    intros; nia.
Qed.

Lemma scaled_sign (s : bool) (m : positive) (e : Z) :
  -1074 <= e ->
  if s then scaled (S754_finite s m e) < 0 else 0 < scaled (S754_finite s m e).
Proof.
  intros He. pose proof (pow2_pos (e + 1074) ltac:(lia)).
  destruct s; cbn [scaled cond_Zopp]; nia.
Qed.

(** On well-formed finite values the order of binary64 is the order of
    the integers [scaled]. *)
Lemma compare_scaled (x y : F64.float) :
  F64.valid x = true -> F64.valid y = true ->
  F64.is_finite x = true -> F64.is_finite y = true ->
  SFcompare x y = Some (scaled x ?= scaled y).
Proof.
  intros Vx Vy Fx Fy.
  destruct x as [sx | sx | | sx mx ex]; try discriminate;
    destruct y as [sy | sy | | sy my ey]; try discriminate.
  - reflexivity.
  - destruct (valid_finite _ _ _ Vy) as [Cy _].
    destruct (canonical_facts _ _ Cy) as (Ly & _).
    pose proof (scaled_sign sy my ey Ly) as S.
    cbn [SFcompare]. change (scaled (S754_zero sx)) with 0.
    destruct sy; f_equal; symmetry;
      [apply Z.compare_gt_iff | apply Z.compare_lt_iff]; lia.
  - destruct (valid_finite _ _ _ Vx) as [Cx _].
    destruct (canonical_facts _ _ Cx) as (Lx & _).
    pose proof (scaled_sign sx mx ex Lx) as S.
    cbn [SFcompare]. change (scaled (S754_zero sy)) with 0.
    destruct sx; f_equal; symmetry;
      [apply Z.compare_lt_iff | apply Z.compare_gt_iff]; lia.
  - destruct (valid_finite _ _ _ Vx) as [Cx _].
    destruct (valid_finite _ _ _ Vy) as [Cy _].
    destruct (canonical_facts _ _ Cx) as (Lx & _).
    destruct (canonical_facts _ _ Cy) as (Ly & _).
    pose proof (scaled_sign sx mx ex Lx) as Sx.
    pose proof (scaled_sign sy my ey Ly) as Sy.
    pose proof (canonical_compare mx my ex ey Cx Cy) as CC.
    cbn [SFcompare]. f_equal.
    destruct sx, sy.
    + cbn [scaled cond_Zopp].
      rewrite Z.compare_opp,
        (Z.compare_antisym (Zpos mx * 2 ^ (ex + 1074)) (Zpos my * 2 ^ (ey + 1074))),
        <- CC.
      destruct (ex ?= ey); reflexivity.
    + symmetry. apply Z.compare_lt_iff. lia.
    + symmetry. apply Z.compare_gt_iff. lia.
    + cbn [scaled cond_Zopp]. rewrite <- CC. reflexivity.
Qed.

Lemma leb_scaled (x y : F64.float) :
  F64.valid x = true -> F64.valid y = true ->
  F64.is_finite x = true -> F64.is_finite y = true ->
  (F64.leb x y = true <-> scaled x <= scaled y).
Proof.
  intros Vx Vy Fx Fy. unfold F64.leb, SFleb.
  rewrite (compare_scaled x y Vx Vy Fx Fy).
  destruct (Z.compare_spec (scaled x) (scaled y)); split; intros; try lia;
    try reflexivity; discriminate.
Qed.

Lemma eqb_scaled (x y : F64.float) :
  F64.valid x = true -> F64.valid y = true ->
  F64.is_finite x = true -> F64.is_finite y = true ->
  (F64.eqb x y = true <-> scaled x = scaled y).
Proof.
  intros Vx Vy Fx Fy. unfold F64.eqb, SFeqb.
  rewrite (compare_scaled x y Vx Vy Fx Fy).
  destruct (Z.compare_spec (scaled x) (scaled y)); split; intros; try lia;
    try reflexivity; discriminate.
Qed.

Lemma ltb_scaled (x y : F64.float) :
  F64.valid x = true -> F64.valid y = true ->
  F64.is_finite x = true -> F64.is_finite y = true ->
  (F64.ltb x y = true <-> scaled x < scaled y).
Proof.
  intros Vx Vy Fx Fy. unfold F64.ltb, SFltb.
  rewrite (compare_scaled x y Vx Vy Fx Fy).
  destruct (Z.compare_spec (scaled x) (scaled y)); split; intros; try lia;
    try reflexivity; discriminate.
Qed.

(** *** Subtraction *)

Lemma round_pos_canonical (s : bool) (m : positive) (e : Z) :
  F64.valid (S754_finite s m e) = true ->
  round_pos s (Zpos m) e = S754_finite s m e.
Proof.
  intros V. destruct (valid_finite _ _ _ V) as [C B].
  destruct (canonical_facts _ _ C) as (L & U & _).
  unfold round_pos. rewrite C, Z.leb_refl, Z.sub_diag, rne_0.
  rewrite finish_small by lia.
  destruct (Z.leb_spec e 971); [reflexivity | lia].
Qed.

Lemma round_pos_emin (s : bool) (m : positive) (e : Z) :
  -1074 <= e ->
  round_pos s (Zpos m * 2 ^ (e + 1074)) (-1074) = round_pos s (Zpos m) e.
Proof.
  intros L. rewrite round_pos_rescale by lia. f_equal. lia.
Qed.

Lemma sub_finite (sx sy : bool) (mx my : positive) (ex ey : Z) :
  -1074 <= ex -> -1074 <= ey ->
  F64.sub (S754_finite sx mx ex) (S754_finite sy my ey)
  = binary_normalize F64.prec F64.emax
      (cond_Zopp sx (Zpos mx * 2 ^ (ex - Z.min ex ey))
       - cond_Zopp sy (Zpos my * 2 ^ (ey - Z.min ex ey)))
      (Z.min ex ey) false.
Proof.
  intros Lx Ly. unfold F64.sub, SFsub.
  destruct (shl_align_spec mx ex (Z.min ex ey)) as [_ Ex].
  destruct (shl_align_spec my ey (Z.min ex ey)) as [_ Ey].
  rewrite Ex, Ey.
  replace (Z.min ex (Z.min ex ey)) with (Z.min ex ey) by lia.
  replace (Z.min ey (Z.min ex ey)) with (Z.min ex ey) by lia.
  reflexivity.
Qed.

Lemma sub_finite_scaled (sx sy : bool) (mx my : positive) (ex ey : Z) :
  -1074 <= ex -> -1074 <= ey ->
  (cond_Zopp sx (Zpos mx * 2 ^ (ex - Z.min ex ey))
   - cond_Zopp sy (Zpos my * 2 ^ (ey - Z.min ex ey)))
  * 2 ^ (Z.min ex ey + 1074)
  = scaled (S754_finite sx mx ex) - scaled (S754_finite sy my ey).
Proof.
  intros Lx Ly. cbn [scaled].
  rewrite (pow2_split (ex + 1074) (Z.min ex ey + 1074)) by lia.
  rewrite (pow2_split (ey + 1074) (Z.min ex ey + 1074)) by lia.
  replace (ex + 1074 - (Z.min ex ey + 1074)) with (ex - Z.min ex ey) by lia.
  replace (ey + 1074 - (Z.min ex ey + 1074)) with (ey - Z.min ex ey) by lia.
  destruct sx, sy; cbn [cond_Zopp]; ring.
Qed.

(** The difference of two well-formed finite values, the first the
    greater: the exact difference rounded once. *)
Lemma sub_scaled (x y : F64.float) :
  F64.valid x = true -> F64.valid y = true ->
  F64.is_finite x = true -> F64.is_finite y = true ->
  scaled y < scaled x ->
  F64.sub x y = round_pos false (scaled x - scaled y) (-1074).
Proof.
  intros Vx Vy Fx Fy H.
  destruct x as [sx | sx | | sx mx ex]; try discriminate;
    destruct y as [sy | sy | | sy my ey]; try discriminate.
  - destruct (valid_finite _ _ _ Vy) as [Cy _].
    destruct (canonical_facts _ _ Cy) as (Ly & _).
    pose proof (scaled_sign sy my ey Ly) as S.
    destruct sy; [| cbn [scaled] in *; lia].
    cbn [F64.sub SFsub negb scaled cond_Zopp].
    rewrite Z.sub_0_l, Z.opp_involutive, round_pos_emin by lia.
    symmetry. now apply round_pos_canonical.
  - destruct (valid_finite _ _ _ Vx) as [Cx _].
    destruct (canonical_facts _ _ Cx) as (Lx & _).
    pose proof (scaled_sign sx mx ex Lx) as S.
    destruct sx; [cbn [scaled] in *; lia |].
    cbn [F64.sub SFsub scaled cond_Zopp].
    rewrite Z.sub_0_r, round_pos_emin by lia.
    symmetry. now apply round_pos_canonical.
  - destruct (valid_finite _ _ _ Vx) as [Cx _].
    destruct (valid_finite _ _ _ Vy) as [Cy _].
    destruct (canonical_facts _ _ Cx) as (Lx & _).
    destruct (canonical_facts _ _ Cy) as (Ly & _).
    rewrite sub_finite by lia.
    pose proof (sub_finite_scaled sx sy mx my ex ey Lx Ly) as E.
    set (z := _ - _) in *.
    pose proof (pow2_pos (Z.min ex ey + 1074) ltac:(lia)) as P.
    assert (Hz : 0 < z) by nia.
    rewrite <- E.
    rewrite round_pos_rescale by lia.
    replace (-1074 + (Z.min ex ey + 1074)) with (Z.min ex ey) by lia.
    destruct z as [| p | p]; try lia.
    apply binary_round_spec.
Qed.

Lemma sub_equal (x y : F64.float) :
  F64.valid x = true -> F64.valid y = true ->
  F64.is_finite x = true -> F64.is_finite y = true ->
  scaled x = scaled y ->
  exists s, F64.sub x y = S754_zero s.
Proof.
  intros Vx Vy Fx Fy H.
  destruct x as [sx | sx | | sx mx ex]; try discriminate;
    destruct y as [sy | sy | | sy my ey]; try discriminate.
  - destruct sx, sy; eexists; reflexivity.
  - destruct (valid_finite _ _ _ Vy) as [Cy _].
    destruct (canonical_facts _ _ Cy) as (Ly & _).
    pose proof (scaled_sign sy my ey Ly) as S.
    change (scaled (S754_zero sx)) with 0 in H. destruct sy; lia.
  - destruct (valid_finite _ _ _ Vx) as [Cx _].
    destruct (canonical_facts _ _ Cx) as (Lx & _).
    pose proof (scaled_sign sx mx ex Lx) as S.
    change (scaled (S754_zero sy)) with 0 in H. destruct sx; lia.
  - destruct (valid_finite _ _ _ Vx) as [Cx _].
    destruct (valid_finite _ _ _ Vy) as [Cy _].
    destruct (canonical_facts _ _ Cx) as (Lx & _).
    destruct (canonical_facts _ _ Cy) as (Ly & _).
    rewrite sub_finite by lia.
    pose proof (sub_finite_scaled sx sy mx my ex ey Lx Ly) as E.
    set (z := _ - _) in *.
    pose proof (pow2_pos (Z.min ex ey + 1074) ltac:(lia)) as P.
    assert (Hz : z = 0) by nia.
    rewrite Hz. exists false. reflexivity.
Qed.

(** *** Rounding is monotone *)

(** Mantissa and exponent after the carry of the second stage. *)
Definition normal_pair (m t : Z) : Z * Z :=
  if m <? 2 ^ 53 then (m, t) else (2 ^ 52, t + 1).

Lemma finish_normal (sx : bool) (m t : Z) :
  0 < m <= 2 ^ 53 -> -1074 <= t ->
  finish sx m t
  = if snd (normal_pair m t) <=? 971
    then S754_finite sx (Z.to_pos (fst (normal_pair m t))) (snd (normal_pair m t))
    else S754_infinity sx.
Proof.
  intros Hm Ht. unfold normal_pair.
  destruct (Z.ltb_spec m (2 ^ 53)) as [L | L]; cbn [fst snd].
  - apply finish_small; lia.
  - replace m with (2 ^ 53) by lia. now rewrite finish_carry by lia.
Qed.

(** [round_pos false z (-1074)]: shift, mantissa and exponent. *)
Definition shift_of (z : Z) : Z := Z.max (Zdigits2 z - 53) 0.

Lemma round_pos_emin_eq (sx : bool) (z : Z) :
  round_pos sx z (-1074)
  = finish sx (rne z (shift_of z)) (-1074 + shift_of z).
Proof.
  unfold round_pos, shift_of. rewrite fexp_eq.
  destruct (Z.leb_spec (-1074) (Z.max (Zdigits2 z + -1074 - 53) (-1074)));
    [| lia].
  f_equal; [f_equal |]; lia.
Qed.

Lemma rne_shift_bounds (z : Z) :
  0 < z ->
  0 < rne z (shift_of z) <= 2 ^ 53 /\
  (0 < shift_of z -> 2 ^ 52 <= rne z (shift_of z)).
Proof.
  intros Hz. unfold shift_of.
  pose proof (rne_bounds z (Z.max (Zdigits2 z - 53) 0)) as B.
  set (k := Z.max (Zdigits2 z - 53) 0) in *.
  pose proof (pow2_pos k ltac:(lia)) as P.
  assert (U : z / 2 ^ k < 2 ^ 53).
  { apply Z.div_lt_upper_bound; [lia |].
    rewrite <- Z.pow_add_r by lia. apply (Zdigits2_le z); lia. }
  destruct (Z.eq_dec k 0) as [K | K].
  - rewrite K in *. change (2 ^ 0) with 1 in *. rewrite Z.div_1_r in *.
    split; lia.
  - assert (D : Zdigits2 (z / 2 ^ k) = 53).
    { rewrite Zdigits2_div_pow2; lia. }
    assert (L : 2 ^ 52 <= z / 2 ^ k).
    { assert (Q0 : 0 <= z / 2 ^ k) by (apply Z.div_pos; lia).
      apply Zdigits2_ge; [| lia].
      destruct (Z.eq_dec (z / 2 ^ k) 0) as [E | E]; [| lia].
      rewrite E in D. discriminate D. }
    change (2 ^ 52) with 4503599627370496 in *.
    change (2 ^ 53) with 9007199254740992 in *.
    split; lia.
Qed.

(** Order of two rounded positive values, in the form [div_unit] takes. *)
Definition pair_le (a b : F64.float) : Prop :=
  match a, b with
  | S754_finite false m1 e1, S754_finite false m2 e2 =>
      e1 <= e2 /\ Zpos m1 <= Zpos m2 * 2 ^ (e2 - e1)
  | S754_finite false _ _, S754_infinity false => True
  | S754_infinity false, S754_infinity false => True
  | _, _ => False
  end.

Lemma round_pos_emin_mono (z1 z2 : Z) :
  0 < z1 <= z2 ->
  pair_le (round_pos false z1 (-1074)) (round_pos false z2 (-1074)).
Proof.
  intros Hz. rewrite !round_pos_emin_eq.
  destruct (rne_shift_bounds z1 ltac:(lia)) as [B1 N1].
  destruct (rne_shift_bounds z2 ltac:(lia)) as [B2 N2].
  assert (K : shift_of z1 <= shift_of z2).
  { unfold shift_of. pose proof (Zdigits2_mono z1 z2 ltac:(lia)). lia. }
  assert (M : shift_of z1 = shift_of z2 ->
              rne z1 (shift_of z1) <= rne z2 (shift_of z2)).
  { intros E. rewrite E. apply rne_mono; [unfold shift_of |]; lia. }
  assert (K0 : 0 <= shift_of z1) by (unfold shift_of; lia).
  rewrite !finish_normal by lia.
  set (m1 := rne z1 (shift_of z1)) in *. set (m2 := rne z2 (shift_of z2)) in *.
  set (k1 := shift_of z1) in *. set (k2 := shift_of z2) in *.
  clearbody m1 m2 k1 k2. unfold normal_pair.
  change (2 ^ 52) with 4503599627370496 in *.
  change (2 ^ 53) with 9007199254740992 in *.
  assert (G : forall a b c d : Z,
             a <= b -> 0 < c -> 0 < d -> c <= d * 2 ^ (b - a) ->
             pair_le (if a <=? 971 then S754_finite false (Z.to_pos c) a
                      else S754_infinity false)
                     (if b <=? 971 then S754_finite false (Z.to_pos d) b
                      else S754_infinity false)).
  { intros a b c d Hab Hc Hd Hcd.
    destruct (Z.leb_spec a 971), (Z.leb_spec b 971); unfold pair_le;
      try lia; trivial.
    split; [lia |]. rewrite !Z2Pos.id by lia. exact Hcd. }
  destruct (Z.ltb_spec m1 9007199254740992) as [L1 | L1];
    destruct (Z.ltb_spec m2 9007199254740992) as [L2 | L2]; cbn [fst snd];
    apply G; try lia.
  - destruct (Z.eq_dec k1 k2) as [E | NE].
    + rewrite E, Z.sub_diag. specialize (M E). change (2 ^ 0) with 1. lia.
    + pose proof (pow2_ge_2 (-1074 + k2 - (-1074 + k1)) ltac:(lia)) as P.
      specialize (N2 ltac:(lia)).
      generalize dependent (2 ^ (-1074 + k2 - (-1074 + k1))). intros; nia.
  - pose proof (pow2_ge_2 (-1074 + k2 + 1 - (-1074 + k1)) ltac:(lia)) as P.
    generalize dependent (2 ^ (-1074 + k2 + 1 - (-1074 + k1))). intros; nia.
Qed.

Lemma round_pos_emin_shape (z : Z) :
  0 < z ->
  match round_pos false z (-1074) with
  | S754_finite false _ _ | S754_infinity false => True
  | _ => False
  end.
Proof.
  intros Hz. pose proof (round_pos_emin_mono z z ltac:(lia)) as P.
  unfold pair_le in P.
  destruct (round_pos false z (-1074)) as [| [] | | [] ? ?]; tauto.
Qed.

(** *** Values that are at least 1.0 *)

Definition ge_one (x : F64.float) : Prop :=
  match x with
  | S754_finite false m e => 0 <= e \/ 2 ^ (- e) <= Zpos m
  | S754_infinity false => True
  | _ => False
  end.

Lemma ge_one_nonzero (x : F64.float) : ge_one x -> F64.eqb x F64.zero = false.
Proof. destruct x as [| [] | | [] m e]; cbn; tauto || reflexivity. Qed.

Lemma binary_round_aux_ge_one (q e : Z) (l : location) :
  0 < q -> (0 <= e \/ 2 ^ (- e) <= q) ->
  ge_one (binary_round_aux F64.prec F64.emax false q e l).
Proof.
  intros Hq Hv.
  assert (D : 1 <= Zdigits2 q + e).
  { destruct Hv as [He | Hv].
    - assert (0 < Zdigits2 q) by (apply Zdigits2_ge; cbn; lia). lia.
    - destruct (Z.le_gt_cases 0 e) as [He | He].
      + assert (0 < Zdigits2 q) by (apply Zdigits2_ge; cbn; lia). lia.
      + assert (- e < Zdigits2 q) by (apply Zdigits2_ge; lia). lia. }
  rewrite binary_round_aux_finish, shr_fexp_nonneg by lia. cbv zeta.
  pose proof (stage1_digits q e ltac:(lia)) as S1. cbv zeta in S1.
  revert S1. rewrite fexp_eq.
  set (n := Z.max (Zdigits2 q + e - 53) (-1074) - e).
  assert (G : forall m t, 0 < m <= 2 ^ 53 -> -1074 <= t ->
              (0 <= t \/ 2 ^ (- t) <= m) -> ge_one (finish false m t)).
  { intros m t Hm Ht Hb. rewrite finish_normal by lia. unfold normal_pair.
    destruct (Z.ltb_spec m (2 ^ 53)) as [L | L]; cbn [fst snd].
    - destruct (Z.leb_spec t 971); cbn [ge_one]; trivial.
      rewrite Z2Pos.id by lia. exact Hb.
    - destruct (Z.leb_spec (t + 1) 971); cbn [ge_one]; trivial.
      destruct (Z.le_gt_cases 0 (t + 1)) as [T | T]; [now left | right].
      change (Zpos (Z.to_pos (2 ^ 52))) with (2 ^ 52).
      apply Z.pow_le_mono_r; [lia |].
      destruct Hb as [Hb | Hb]; [lia |].
      assert (m = 2 ^ 53) by lia. subst m.
      apply Z.pow_le_mono_r_iff in Hb; lia. }
  destruct (Z.ltb_spec 0 n) as [L | L]; intros [S1 S2].
  - rewrite shifted_m, Z2Nat.id by lia.
    set (loc := loc_of_shr_record _).
    destruct (round_nearest_even_bounds (q / 2 ^ n) loc) as [B _].
    pose proof (pow2_pos n ltac:(lia)) as Pn.
    assert (Q1 : 1 <= q / 2 ^ n).
    { apply Z.div_le_lower_bound; [lia |]. rewrite Z.mul_1_r.
      apply Zdigits2_ge; lia. }
    apply G; [lia | lia |].
    destruct (Z.le_gt_cases 0 (e + n)) as [T | T]; [now left | right].
    assert (2 ^ (- (e + n)) <= q / 2 ^ n); [| lia].
    apply Z.div_le_lower_bound; [lia |].
    rewrite <- Z.pow_add_r by lia.
    replace (n + - (e + n)) with (- e) by lia.
    destruct Hv as [Hv | Hv]; [lia | exact Hv].
  - destruct (round_nearest_even_bounds q l) as [B _].
    assert (E1 : shr_m (shr_record_of_loc q l) = q) by (destruct l as [| []]; reflexivity).
    assert (E2 : loc_of_shr_record (shr_record_of_loc q l) = l)
      by (destruct l as [| []]; reflexivity).
    rewrite E1, E2.
    apply G; [lia | lia |].
    destruct Hv as [Hv | Hv]; [now left | right; lia].
Qed.

Lemma of_int_ge_one (n : Z) (x : F64.float) :
  0 < n -> F64.of_int n = Ok x -> ge_one x.
Proof.
  intros Hn. unfold F64.of_int.
  assert (G : ge_one (binary_normalize F64.prec F64.emax n 0 false)).
  { destruct n as [| p | p]; try lia.
    cbn [binary_normalize]. unfold binary_round.
    destruct (shl_align_spec p 0 (SpecFloat.fexp F64.prec F64.emax
                                    (Zpos (digits2_pos p) + 0))) as [E1 E2].
    destruct (shl_align p 0 _) as [mz ez]. cbn [fst snd] in E1, E2.
    apply binary_round_aux_ge_one; [lia |].
    right. rewrite E2.
    replace (0 - Z.min 0 _) with (- ez) by lia.
    pose proof (pow2_pos (- ez) ltac:(lia)). nia. }
  destruct (binary_normalize F64.prec F64.emax n 0 false) as [| [] | | [] m e];
    try contradiction; intros [= <-]; exact G.
Qed.

Lemma sqrt_ge_one (x : F64.float) : ge_one x -> ge_one (F64.sqrt x).
Proof.
  destruct x as [| [] | | [] m e]; try contradiction; [trivial |].
  intros Hv. unfold F64.sqrt, SFsqrt, SFsqrt_core_binary.
  set (e' := Z.min _ (Z.div2 e)).
  assert (He' : 2 * e' <= e).
  { pose proof (Zdiv2_odd_eqn e). destruct (Z.odd e); subst e'; lia. }
  set (s := e - 2 * e').
  assert (Hs : 0 <= s) by (subst s; lia).
  assert (Em : match s with
               | Zpos _ => Z.shiftl (Zpos m) s
               | Z0 => Zpos m
               | Zneg _ => 0
               end = Zpos m * 2 ^ s).
  { destruct s as [| p | p]; try lia. now rewrite Z.shiftl_mul_pow2 by lia. }
  rewrite Em. pose proof (pow2_pos s Hs) as Ps.
  pose proof (Z.sqrtrem_spec (Zpos m * 2 ^ s) ltac:(nia)) as SR.
  destruct (Z.sqrtrem (Zpos m * 2 ^ s)) as [q r].
  destruct SR as [SR1 SR2].
  assert (Hq : 0 < q) by nia.
  apply binary_round_aux_ge_one; [exact Hq |].
  destruct (Z.le_gt_cases 0 e') as [T | T]; [now left | right].
  assert (B : 2 ^ (- e') * 2 ^ (- e') <= Zpos m * 2 ^ s).
  { assert (Ea : 2 ^ (- e') * 2 ^ (- e') = 2 ^ (- e' + - e'))
      by (now rewrite Z.pow_add_r by lia).
    rewrite Ea.
    pose proof (pow2_pos (- e' + - e') ltac:(lia)) as Pa.
    destruct (Z.le_gt_cases 0 e) as [He | He].
    - assert (Es : 2 ^ s = 2 ^ e * 2 ^ (- e' + - e')).
      { rewrite <- Z.pow_add_r by lia. f_equal. subst s. lia. }
      rewrite Es. pose proof (pow2_pos e He) as Pe.
      generalize dependent (2 ^ (- e' + - e')). generalize dependent (2 ^ e).
      intros; nia.
    - destruct Hv as [Hv | Hv]; [lia |].
      assert (Es : 2 ^ (- e' + - e') = 2 ^ (- e) * 2 ^ s).
      { rewrite <- Z.pow_add_r by lia. f_equal. subst s. lia. }
      rewrite Es.
      apply Z.mul_le_mono_nonneg_r; [lia | exact Hv]. }
  pose proof (pow2_pos (- e') ltac:(lia)) as P'.
  destruct (Z.le_gt_cases (2 ^ (- e')) q) as [C | C]; [exact C |].
  exfalso. nia.
Qed.

Lemma mul_ge_one (x y : F64.float) : ge_one x -> ge_one y -> ge_one (F64.mul x y).
Proof.
  destruct x as [| [] | | [] mx ex]; try contradiction;
    destruct y as [| [] | | [] my ey]; try contradiction; trivial.
  intros Hx Hy. unfold F64.mul, SFmul. cbn [xorb]. cbn [ge_one] in Hx, Hy.
  apply binary_round_aux_ge_one; [lia |].
  rewrite Pos2Z.inj_mul.
  destruct (Z.le_gt_cases 0 (ex + ey)) as [T | T]; [now left | right].
  assert (X : 0 <= ex \/ (ex < 0 /\ 2 ^ (- ex) <= Zpos mx)) by lia.
  assert (Y : 0 <= ey \/ (ey < 0 /\ 2 ^ (- ey) <= Zpos my)) by lia.
  destruct X as [X | [X1 X2]], Y as [Y | [Y1 Y2]]; try lia.
  - assert (2 ^ (- (ex + ey)) <= 2 ^ (- ey)) by (apply Z.pow_le_mono_r; lia).
    nia.
  - assert (2 ^ (- (ex + ey)) <= 2 ^ (- ex)) by (apply Z.pow_le_mono_r; lia).
    nia.
  - replace (- (ex + ey)) with (- ex + - ey) by lia.
    rewrite Z.pow_add_r by lia.
    pose proof (pow2_pos (- ex) ltac:(lia)). pose proof (pow2_pos (- ey) ltac:(lia)).
    nia.
Qed.

Lemma of_int_returns (n : Z) :
  0 < n < 2 ^ 1023 -> exists x, F64.of_int n = Ok x.
Proof.
  intros Hn. unfold F64.of_int.
  destruct n as [| p | p]; try lia.
  cbn [binary_normalize]. rewrite binary_round_spec. unfold round_pos.
  rewrite Z.add_0_r, fexp_eq.
  assert (D1 : 0 < Zdigits2 (Zpos p)) by (apply Zdigits2_ge; cbn; lia).
  assert (D2 : Zdigits2 (Zpos p) <= 1023) by (apply Zdigits2_le; lia).
  set (d := Zdigits2 (Zpos p)) in *.
  replace (Z.max (d - 53) (-1074)) with (d - 53) by lia.
  set (m := if 0 <=? d - 53 then _ else _).
  assert (Hm : 0 < m <= 2 ^ 53).
  { subst m. destruct (Z.leb_spec 0 (d - 53)) as [L | L].
    - pose proof (rne_bounds (Zpos p) (d - 53)) as B.
      pose proof (pow2_pos (d - 53) L) as P.
      assert (1 <= Zpos p / 2 ^ (d - 53)).
      { apply Z.div_le_lower_bound; [lia |]. rewrite Z.mul_1_r.
        apply Zdigits2_ge; lia. }
      assert (Zpos p / 2 ^ (d - 53) < 2 ^ 53).
      { apply Z.div_lt_upper_bound; [lia |].
        rewrite <- Z.pow_add_r by lia. apply (Zdigits2_le (Zpos p)); lia. }
      rewrite Z.sub_0_r. lia.
    - pose proof (pow2_pos (0 - (d - 53)) ltac:(lia)) as P.
      split; [nia |].
      assert (Zpos p * 2 ^ (0 - (d - 53)) < 2 ^ 53); [| lia].
      apply (Zdigits2_le (Zpos p * 2 ^ (0 - (d - 53)))); try nia.
      rewrite Zdigits2_mul_pow2 by lia. fold d. lia. }
  rewrite finish_normal by lia. unfold normal_pair.
  destruct (m <? 2 ^ 53); cbn [fst snd].
  - destruct (Z.leb_spec (d - 53) 971); [| lia]. eexists; reflexivity.
  - destruct (Z.leb_spec (d - 53 + 1) 971); [| lia]. eexists; reflexivity.
Qed.

End F64Round.

Import F64Round.

(** ** The BM25 normalisation *)

(** A raw score as the external model returns it: a binary64 number. *)
Definition score_ok (x : F64.float) : Prop :=
  F64.valid x = true /\ F64.is_finite x = true.

Lemma py_max_spec (x : F64.float) (xs : list F64.float) :
  Forall score_ok (x :: xs) ->
  In (py_max x xs) (x :: xs) /\
  Forall (fun y => scaled y <= scaled (py_max x xs)) (x :: xs).
Proof.
  revert x. induction xs as [| y ys IH]; intros x H.
  - cbn. split; [now left | repeat constructor; lia].
  - inversion H as [| ? ? Hx Hr]; subst. inversion Hr as [| ? ? Hy Hys]; subst.
    unfold py_max. cbn [fold_left]. fold (py_max (if F64.gtb y x then y else x) ys).
    destruct Hx as [Vx Fx], Hy as [Vy Fy].
    pose proof (ltb_scaled x y Vx Vy Fx Fy) as L. unfold F64.gtb.
    change (SFltb x y) with (F64.ltb x y).
    destruct (F64.ltb x y) eqn:E.
    + destruct (IH y Hr) as [I A]. split.
      * right. exact I.
      * inversion A as [| ? ? Ay Ays]; subst.
        constructor; [| now constructor].
        assert (scaled x < scaled y) by now apply L. lia.
    + destruct (IH x (Forall_cons x (conj Vx Fx) Hys)) as [I A]. split.
      * destruct I as [I | I]; [now left | right; now right].
      * inversion A as [| ? ? Ax Axs]; subst.
        constructor; [exact Ax |]. constructor; [| exact Axs].
        assert (~ scaled x < scaled y) by (intros C; apply L in C; congruence).
        lia.
Qed.

Lemma py_min_spec (x : F64.float) (xs : list F64.float) :
  Forall score_ok (x :: xs) ->
  In (py_min x xs) (x :: xs) /\
  Forall (fun y => scaled (py_min x xs) <= scaled y) (x :: xs).
Proof.
  revert x. induction xs as [| y ys IH]; intros x H.
  - cbn. split; [now left | repeat constructor; lia].
  - inversion H as [| ? ? Hx Hr]; subst. inversion Hr as [| ? ? Hy Hys]; subst.
    unfold py_min. cbn [fold_left]. fold (py_min (if F64.ltb y x then y else x) ys).
    destruct Hx as [Vx Fx], Hy as [Vy Fy].
    pose proof (ltb_scaled y x Vy Vx Fy Fx) as L.
    destruct (F64.ltb y x) eqn:E.
    + destruct (IH y Hr) as [I A]. split.
      * right. exact I.
      * inversion A as [| ? ? Ay Ays]; subst.
        constructor; [| now constructor].
        assert (scaled y < scaled x) by now apply L. lia.
    + destruct (IH x (Forall_cons x (conj Vx Fx) Hys)) as [I A]. split.
      * destruct I as [I | I]; [now left | right; now right].
      * inversion A as [| ? ? Ax Axs]; subst.
        constructor; [exact Ax |]. constructor; [| exact Axs].
        assert (~ scaled y < scaled x) by (intros C; apply L in C; congruence).
        lia.
Qed.

Lemma dict_set_fresh {V : Type} (k : Z) (v : V) (d : dict Z V) :
  ~ In k (keys d) -> dict_set Z.eqb k v d = d ++ [(k, v)].
Proof.
  unfold keys. induction d as [| [k' v'] d IH]; cbn; intros H; [reflexivity |].
  destruct (Z.eqb_spec k' k) as [-> | _]; [tauto |].
  f_equal. apply IH. tauto.
Qed.

Lemma keys_combine {V : Type} (ids : list Z) (vs : list V) :
  List.length ids = List.length vs -> keys (combine ids vs) = ids.
Proof.
  unfold keys. revert vs. induction ids as [| k ids IH]; intros [| v vs] H;
    try discriminate; cbn; [reflexivity |].
  f_equal. apply IH. now injection H.
Qed.

Lemma comprehension_from (f : F64.float -> F64.float)
  (ids : list Z) (raw : list F64.float) :
  forall (ids0 : list Z) (raw0 : list F64.float) (acc : dict Z F64.float),
    List.length ids = List.length raw ->
    List.length ids0 = List.length raw0 ->
    NoDup (ids0 ++ ids) -> keys acc = ids0 ->
    for_each
      (fun normalized i =>
         match nth_error (ids0 ++ ids) i, nth_error (raw0 ++ raw) i with
         | Some doc_id, Some r => Ok (dict_set Z.eqb doc_id (f r) normalized)
         | _, _ => Raise IndexError
         end)
      (seq (List.length raw0) (List.length raw)) acc
    = Ok (acc ++ combine ids (map f raw)).
Proof.
  revert ids. induction raw as [| r raw IH]; intros [| k ids] ids0 raw0 acc L L0 N K;
    try discriminate; cbn [List.length seq for_each combine map].
  - now rewrite app_nil_r.
  - rewrite <- L0 at 1.
    rewrite nth_error_app2, Nat.sub_diag by lia. cbn [nth_error].
    rewrite nth_error_app2, Nat.sub_diag by lia. cbn [nth_error bind].
    rewrite dict_set_fresh.
    2:{ rewrite K. apply NoDup_remove_2 in N. intros C. apply N.
        apply in_or_app. now left. }
    specialize (IH ids (ids0 ++ [k]) (raw0 ++ [r]) (acc ++ [(k, f r)])).
    rewrite <- !app_assoc in IH. cbn [app] in IH.
    rewrite !length_app in IH. cbn [List.length] in IH.
    replace (List.length raw0 + 1)%nat with (S (List.length raw0)) in IH by lia.
    rewrite IH; trivial.
    + cbn in L. lia.
    + lia.
    + unfold keys in *. rewrite map_app, K. reflexivity.
Qed.

Lemma comprehension_combine (f : F64.float -> F64.float)
  (ids : list Z) (raw : list F64.float) :
  NoDup ids -> List.length raw = List.length ids ->
  comprehension ids raw f = Ok (combine ids (map f raw)).
Proof.
  intros N L. unfold comprehension.
  apply (comprehension_from f ids raw [] [] []); auto.
Qed.

Lemma dict_get_combine {V : Type} (ids : list Z) (vs : list V) (i : nat)
  (k : Z) (v : V) :
  NoDup ids -> nth_error ids i = Some k -> nth_error vs i = Some v ->
  dict_get Z.eqb k (combine ids vs) = Some v.
Proof.
  revert vs i. induction ids as [| k' ids IH]; intros vs i N Hk Hv.
  - destruct i; discriminate.
  - destruct vs as [| v' vs]; [destruct i; discriminate |].
    inversion N as [| ? ? Hn N']; subst. cbn [combine dict_get].
    destruct i as [| i]; cbn in Hk, Hv.
    + injection Hk as ->. injection Hv as ->. now rewrite Z.eqb_refl.
    + destruct (Z.eqb_spec k' k) as [-> | _].
      * exfalso. apply Hn. eapply nth_error_In. exact Hk.
      * eapply IH; eauto.
Qed.

(** One normalised score. *)
Lemma normalized_score (mx mn r : F64.float) :
  score_ok mx -> score_ok mn -> score_ok r ->
  scaled mn <= scaled r <= scaled mx -> scaled mn < scaled mx ->
  F64.is_finite (F64.sub mx mn) = true ->
  let s := F64.div (F64.sub r mn) (F64.sub mx mn) in
  F64.eqb (F64.sub mx mn) F64.zero = false /\
  F64.leb F64.zero s = true /\ F64.leb s F64.one = true /\
  (scaled r = scaled mx -> s = F64.one) /\
  (scaled r = scaled mn -> F64.eqb s F64.zero = true).
Proof.
  intros [Vx Fx] [Vn Fn] [Vr Fr] Hr Hlt Hfin s. subst s.
  pose proof (sub_scaled mx mn Vx Vn Fx Fn Hlt) as ER.
  pose proof (round_pos_emin_shape (scaled mx - scaled mn) ltac:(lia)) as SR.
  rewrite <- ER in SR.
  destruct (F64.sub mx mn) as [| | | sR mR eR] eqn:EqR; try discriminate;
    try contradiction.
  destruct sR; [contradiction |].
  split; [reflexivity |].
  destruct (Z.eq_dec (scaled r) (scaled mn)) as [E | NE].
  - destruct (sub_equal r mn Vr Vn Fr Fn E) as (z & ->).
    cbn [F64.div SFdiv]. destruct z; repeat split; try reflexivity; lia.
  - pose proof (sub_scaled r mn Vr Vn Fr Fn ltac:(lia)) as Er.
    pose proof (round_pos_emin_mono (scaled r - scaled mn) (scaled mx - scaled mn)
                  ltac:(lia)) as M.
    rewrite <- ER, <- Er in M.
    destruct (F64.sub r mn) as [| | | sr mr er] eqn:Eqr; try contradiction.
    { destruct s; contradiction. }
    destruct sr; [contradiction |]. destruct M as [M1 M2].
    destruct (div_unit mr mR er eR M1 M2) as [U1 U2].
    repeat split; trivial; [| lia].
    intros E. rewrite E in Er. rewrite <- ER in Er. injection Er as -> ->.
    apply div_self.
Qed.

(** ** The sort *)

Section SortFacts.
Context {A : Type}.
Variable key : A -> F64.float.

Definition key_le (a b : A) : Prop := F64.leb (key a) (key b) = true.
Definition key_ge (a b : A) : Prop := F64.geb (key a) (key b) = true.
Definition no_nan (a : A) : Prop := F64.is_nan (key a) = false.

Lemma insert_by_key_perm (x : A) (l : list A) :
  Permutation (x :: l) (insert_by_key key x l).
Proof.
  induction l as [| y l IH]; cbn; [reflexivity |].
  destruct (F64.ltb (key x) (key y)); [reflexivity |].
  rewrite perm_swap. now constructor.
Qed.

Lemma sort_ascending_perm_from (l acc : list A) :
  Permutation (acc ++ l)
    (fold_left (fun sorted x => insert_by_key key x sorted) l acc).
Proof.
  revert acc; induction l as [| x l IH]; intros acc; cbn.
  - now rewrite app_nil_r.
  - rewrite <- IH, <- insert_by_key_perm.
    symmetry. apply Permutation_middle.
Qed.

Lemma sort_reverse_perm (l : list A) : Permutation l (sort_reverse key l).
Proof.
  unfold sort_reverse, sort_ascending.
  rewrite <- Permutation_rev.
  rewrite <- (sort_ascending_perm_from (rev l) []); cbn.
  apply Permutation_rev.
Qed.

Lemma insert_by_key_sorted (x : A) (l : list A) :
  no_nan x -> Forall no_nan l ->
  StronglySorted key_le l -> StronglySorted key_le (insert_by_key key x l).
Proof.
  intros Hx Hl Hs.
  induction Hs as [| y l Hs IH Hy]; cbn.
  - repeat constructor.
  - inversion Hl as [| ? ? Hny Hnl]; subst.
    destruct (F64.ltb (key x) (key y)) eqn:E.
    + constructor; [now constructor |].
      apply F64Order.ltb_leb in E.
      constructor; [exact E |].
      eapply Forall_impl; [| exact Hy].
      intros z Hz. eapply F64Order.leb_trans; eassumption.
    + constructor; [now apply IH |].
      rewrite <- (insert_by_key_perm x l).
      constructor; [| exact Hy].
      now apply F64Order.ltb_false_leb.
Qed.

Lemma sort_ascending_sorted (l : list A) :
  Forall no_nan l -> StronglySorted key_le (sort_ascending key l).
Proof.
  unfold sort_ascending.
  assert (G : forall acc, Forall no_nan acc -> Forall no_nan l ->
              StronglySorted key_le acc ->
              StronglySorted key_le
                (fold_left (fun sorted x => insert_by_key key x sorted) l acc)).
  { induction l as [| x l IH]; intros acc Hacc Hl Hs; cbn; [exact Hs |].
    inversion Hl; subst.
    apply IH; trivial.
    - rewrite <- insert_by_key_perm. now constructor.
    - now apply insert_by_key_sorted. }
  intros Hl. apply G; trivial; constructor.
Qed.

Lemma StronglySorted_snoc (R : A -> A -> Prop) (l : list A) (x : A) :
  StronglySorted R l -> Forall (fun y => R y x) l ->
  StronglySorted R (l ++ [x]).
Proof.
  induction 1 as [| y l Hs IH Hy]; intros Hx; cbn.
  - repeat constructor.
  - inversion Hx; subst. constructor; [now apply IH |].
    apply Forall_app; split; [exact Hy | now repeat constructor].
Qed.

Lemma StronglySorted_rev (R : A -> A -> Prop) (l : list A) :
  StronglySorted R l -> StronglySorted (fun a b => R b a) (rev l).
Proof.
  induction 1 as [| y l Hs IH Hy]; cbn; [constructor |].
  apply StronglySorted_snoc; [exact IH |].
  apply Forall_rev. exact Hy.
Qed.

(** On keys that are not NaN, the sort returns a list in descending
    key order. *)
Lemma sort_reverse_sorted (l : list A) :
  Forall no_nan l -> StronglySorted key_ge (sort_reverse key l).
Proof.
  intros Hl. unfold sort_reverse.
  apply (StronglySorted_rev key_le).
  apply sort_ascending_sorted. now apply Forall_rev.
Qed.
End SortFacts.

(** ** The loop of [search] *)

Section Loop.
Context {U : Unicode}.
Variable self : SimilarityCalculator.
Variable query_words : list string.
Variable algorithm : string.
Variable target_category : option string.
Variable min_similarity : F64.float.
Variable bm25_scores : dict Z F64.float.

Definition metadata (doc_id : Z) : doc_data :=
  dict_get_default Z.eqb doc_id [] (combined_data self).

(** What one document contributes when the loop does not raise. *)
Definition emitted (item : Z * freq_map) : list ScoredResult :=
  let '(doc_id, doc_words_freq) := item in
  if category_matches (metadata doc_id) target_category then
    match score algorithm query_words bm25_scores doc_id doc_words_freq with
    | Ok sim =>
        if F64.geb sim min_similarity
        then [make_result doc_id (metadata doc_id) sim]
        else []
    | Raise _ => []
    end
  else [].

Lemma search_loop_emitted (index : dict Z freq_map) (acc rs : list ScoredResult) :
  for_each
    (search_step self query_words algorithm target_category min_similarity
       bm25_scores) index acc = Ok rs ->
  rs = acc ++ flat_map emitted index.
Proof.
  revert acc; induction index as [| [doc_id table] index IH]; intros acc; cbn.
  - intros [= <-]. now rewrite app_nil_r.
  - fold (metadata doc_id).
    destruct (category_matches (metadata doc_id) target_category); cbn.
    + destruct (score algorithm query_words bm25_scores doc_id table) as [sim | e];
        cbn; [| discriminate].
      destruct (F64.geb sim min_similarity); cbn; intros H.
      * apply IH in H. now rewrite <- app_assoc in H.
      * now apply IH.
    + apply IH.
Qed.

(** When the loop does not raise, every document that passes the
    category test was scored. *)
Lemma search_loop_scored (index : dict Z freq_map) (acc rs : list ScoredResult) :
  for_each
    (search_step self query_words algorithm target_category min_similarity
       bm25_scores) index acc = Ok rs ->
  forall doc_id table, In (doc_id, table) index ->
    category_matches (metadata doc_id) target_category = true ->
    exists sim, score algorithm query_words bm25_scores doc_id table = Ok sim.
Proof.
  revert acc; induction index as [| [d t] index IH]; intros acc; cbn.
  - intros _ ? ? [].
  - fold (metadata d). intros H doc_id table [[= -> ->] | Hin] Hc.
    + rewrite Hc in H; cbn in H.
      destruct (score algorithm query_words bm25_scores doc_id table);
        [eauto | discriminate].
    + destruct (category_matches (metadata d) target_category); cbn in H.
      * destruct (score algorithm query_words bm25_scores d t); cbn in H;
          [| discriminate].
        destruct (F64.geb a min_similarity); eapply IH; eauto.
      * eapply IH; eauto.
Qed.

Lemma in_emitted (item : Z * freq_map) (r : ScoredResult) :
  In r (emitted item) ->
  category_matches (metadata (fst item)) target_category = true /\
  score algorithm query_words bm25_scores (fst item) (snd item)
    = Ok (similarity r) /\
  F64.geb (similarity r) min_similarity = true /\
  r = make_result (fst item) (metadata (fst item)) (similarity r).
Proof.
  destruct item as [doc_id table]; cbn.
  destruct (category_matches (metadata doc_id) target_category); [| intros []].
  destruct (score algorithm query_words bm25_scores doc_id table) as [sim |];
    [| intros []].
  destruct (F64.geb sim min_similarity) eqn:G; [| intros []].
  intros [<- | []]. cbn. auto.
Qed.
End Loop.

(** [search] on a query with at least one token, when it returns. *)
Lemma search_returns {U : Unicode}
  (self : SimilarityCalculator) (query algorithm : string)
  (target_category : option string) (min_similarity : F64.float)
  (rs : list ScoredResult) :
  preprocess_query query <> [] ->
  search self query algorithm target_category min_similarity = Ok rs ->
  exists bm25_scores,
    (if String.eqb algorithm "bm25"
     then calculate_bm25 self (preprocess_query query) else Ok [])
      = Ok bm25_scores /\
    for_each
      (search_step self (preprocess_query query) algorithm target_category
         min_similarity bm25_scores) (inverted_index self) []
      = Ok (flat_map
              (emitted self (preprocess_query query) algorithm target_category
                 min_similarity bm25_scores) (inverted_index self)) /\
    rs = sort_reverse similarity
           (flat_map
              (emitted self (preprocess_query query) algorithm target_category
                 min_similarity bm25_scores) (inverted_index self)).
Proof.
  unfold search. destruct (preprocess_query query) as [| w ws] eqn:Q;
    [congruence |]. intros _.
  destruct (if String.eqb algorithm "bm25" then _ else _) as [bm25 | e];
    cbn; [| discriminate].
  destruct (for_each _ _ _) as [results | e] eqn:L; cbn; [| discriminate].
  intros [= <-]. exists bm25. split; [reflexivity |].
  pose proof (search_loop_emitted _ _ _ _ _ _ _ _ _ L) as E. cbn in E.
  subst results. auto.
Qed.

(** ** Queries without tokens *)

Lemma split_from_all_space (skip : nat) (s : string) :
  all_space_from skip s = true -> split_from skip EmptyString s = [].
Proof.
  revert skip; induction s as [| c s IH]; intros skip; [reflexivity |].
  cbn [all_space_from split_from]. destruct skip as [| skip]; [| apply IH].
  destruct (space_width (String c s)); [discriminate |]. cbn. apply IH.
Qed.

Lemma split_all_space (s : string) : all_space s = true -> split s = [].
Proof. apply split_from_all_space. Qed.

Lemma lower_nil {U : Unicode} : lower EmptyString = EmptyString.
Proof. now apply lower_all_space. Qed.

Lemma lower_empty {U : Unicode} (s : string) :
  lower s = EmptyString <-> s = EmptyString.
Proof. split; [apply lower_not_empty | intros ->; apply lower_nil]. Qed.

Lemma preprocess_query_all_space {U : Unicode} (query : string) :
  all_space query = true -> preprocess_query query = [].
Proof.
  intros H. unfold preprocess_query.
  now rewrite (lower_all_space _ H), (split_all_space _ H).
Qed.

(** ** The folding of ASCII letters

    On text made of ASCII characters, white space and letters without an
    upper case, [str.lower] folds the letters A to Z and changes nothing
    else.  [lower_ascii] does this; it stands for [str.lower] where a
    property is evaluated on a sample of such text, and only there. *)

Definition lower_char (c : ascii) : ascii :=
  let n := nat_of_ascii c in
  if ((65 <=? n)%nat && (n <=? 90)%nat) then ascii_of_nat (n + 32) else c.

Fixpoint lower_ascii (s : string) : string :=
  match s with
  | EmptyString => EmptyString
  | String c s' => String (lower_char c) (lower_ascii s')
  end.

Lemma lower_char_fixed (c : ascii) :
  (nat_of_ascii c < 65 \/ 90 < nat_of_ascii c)%nat -> lower_char c = c.
Proof.
  unfold lower_char. intros H.
  destruct (65 <=? nat_of_ascii c)%nat eqn:A;
    destruct (nat_of_ascii c <=? 90)%nat eqn:B; cbn; try reflexivity.
  apply Nat.leb_le in A, B. lia.
Qed.

Lemma lower_char_idempotent (c : ascii) : lower_char (lower_char c) = lower_char c.
Proof. destruct c as [[] [] [] [] [] [] [] []]; reflexivity. Qed.

Lemma lower_ascii_idempotent (s : string) :
  lower_ascii (lower_ascii s) = lower_ascii s.
Proof.
  induction s as [| c s IH]; cbn; [reflexivity |].
  now rewrite lower_char_idempotent, IH.
Qed.

Lemma lower_ascii_not_empty (s : string) :
  lower_ascii s = EmptyString -> s = EmptyString.
Proof. destruct s; cbn; congruence. Qed.

(** The first [n] bytes of [s] are no letters A to Z. *)
Fixpoint kept (n : nat) (s : string) : Prop :=
  match n, s with
  | S n', String c s' => lower_char c = c /\ kept n' s'
  | _, _ => True
  end.

Ltac bytes_known :=
  repeat match goal with
         | H : (_ && _)%bool = true |- _ => apply andb_prop in H; destruct H
         | H : (_ || _)%bool = true |- _ => apply orb_prop in H; destruct H
         | H : (_ <=? _)%nat = true |- _ => apply Nat.leb_le in H
         | H : (_ =? _)%nat = true |- _ => apply Nat.eqb_eq in H
         end.

(** No byte of a white space character is a letter A to Z. *)
Lemma space_width_kept (c : ascii) (s : string) (width : nat) :
  space_width (String c s) = S width -> lower_char c = c /\ kept width s.
Proof.
  unfold space_width.
  destruct ((9 <=? nat_of_ascii c) && (nat_of_ascii c <=? 13)
            || (28 <=? nat_of_ascii c) && (nat_of_ascii c <=? 32))%nat eqn:E1.
  { intros [= <-]. bytes_known; (split; [apply lower_char_fixed; lia | exact I]). }
  destruct s as [| c1 s]; [discriminate |].
  destruct (nat_of_ascii c =? 194)%nat eqn:E2.
  { destruct ((nat_of_ascii c1 =? 133) || (nat_of_ascii c1 =? 160))%nat eqn:E3;
      intros [= <-].
    bytes_known; cbn [kept];
      (split; [| split; [| exact I]]); apply lower_char_fixed; lia. }
  destruct s as [| c2 s]; [discriminate |].
  repeat match goal with
         | |- (if ?b then _ else _) = _ -> _ => destruct b eqn:?
         end;
    intros [= <-]; bytes_known; cbn [kept];
    (split; [| split; [| split; [| exact I]]]); apply lower_char_fixed; lia.
Qed.

Lemma lower_ascii_kept (skip : nat) (s : string) :
  kept skip s -> all_space_from skip s = true -> lower_ascii s = s.
Proof.
  revert skip; induction s as [| c s IH]; intros skip K H; [reflexivity |].
  cbn [all_space_from] in H. cbn [lower_ascii].
  destruct skip as [| skip].
  - destruct (space_width (String c s)) as [| width] eqn:W; [discriminate |].
    apply space_width_kept in W as [-> K'].
    f_equal. now apply (IH width).
  - destruct K as [-> K']. f_equal. now apply (IH skip).
Qed.

Lemma lower_ascii_all_space (s : string) :
  all_space s = true -> lower_ascii s = s.
Proof. apply (lower_ascii_kept 0). exact I. Qed.

(** ** Test data of [test_similarity.py] *)

Module TestData.
Local Open Scope string_scope.

(** The samples hold ASCII text, white space and the letter U+00E9: on
    them [str.lower] is [lower_ascii]. *)
#[global] Instance sample_text : Unicode | 100 :=
  {| lower := lower_ascii;
     lower_idempotent := lower_ascii_idempotent;
     lower_all_space := lower_ascii_all_space;
     lower_not_empty := lower_ascii_not_empty |}.

Definition index : dict Z freq_map :=
  [ (1, [("wisata", 3); ("pantai", 2); ("bali", 1); ("indah", 1)]);
    (2, [("wisata", 2); ("gunung", 3); ("bromo", 2); ("indah", 1)]);
    (3, [("kuliner", 2); ("makanan", 3); ("indonesia", 1); ("enak", 2)]);
    (4, [("pantai", 2); ("bali", 3); ("sunset", 1); ("indah", 2)]);
    (5, [("museum", 2); ("sejarah", 3); ("jakarta", 1); ("nasional", 1)]) ].

Definition meta (cat ttl dt body : string) : doc_data :=
  [ ("category", cat); ("title", ttl); ("date", dt);
    ("image_url", EmptyString); ("url", EmptyString); ("content", body) ].

Definition data : dict Z doc_data :=
  [ (1, meta "Wisata" "Pantai Bali" "2024-01-01" "Pantai indah di Bali");
    (2, meta "Wisata" "Gunung Bromo" "2024-01-02" "Gunung yang indah");
    (3, meta "Kuliner" "Makanan Indonesia" "2024-01-03" "Kuliner enak");
    (4, meta "Wisata" "Pantai Bali Sunset" "2024-01-04" "Sunset di Bali");
    (5, meta "Sejarah" "Museum Nasional" "2024-01-05" "Museum sejarah") ].

(** A stand-in for the external model: five fixed raw scores
    (1.5, 0.0, 0.25, 2.0, 0.0). *)
Definition sample_model (corpus : list (list string)) : BM25Okapi :=
  {| get_scores := fun _ =>
       [ S754_finite false 6755399441055744 (-52);
         S754_zero false;
         S754_finite false 4503599627370496 (-54);
         S754_finite false 4503599627370496 (-51);
         S754_zero false ] |}.

Definition calculator : SimilarityCalculator := init sample_model index data.

Definition half : F64.float := S754_finite false 4503599627370496 (-53).

(** U+3000, U+00A0 and a blank: white space only. *)
Definition blank : string :=
  String "227" (String "128" (String "128" (String "194" (String "160" " ")))).

(** The letter a, U+00A0 and U+00E9: two words of one character. *)
Definition short_words : string :=
  String "a" (String "194" (String "160" (String "195" (String "169" "")))).

(** Pantai, U+00A0, BALI, U+3000 and U+00E9. *)
Definition spaced_query : string :=
  "Pantai" ++ String "194" (String "160" "BALI")
  ++ String "227" (String "128" (String "128" (String "195" (String "169" "")))).
End TestData.

(** ** Dictionaries and counters *)

Lemma dict_get_In {V : Type} (d : dict string V) (w : string) (v : V) :
  NoDup (keys d) ->
  (In (w, v) d <-> dict_get String.eqb w d = Some v).
Proof.
  unfold keys. induction d as [| [k x] d IH]; cbn; intros ND.
  - split; [intros [] | discriminate].
  - inversion ND as [| ? ? Hk Hd]; subst.
    destruct (String.eqb_spec k w) as [-> | Hne].
    + split.
      * intros [[= ->] | Hin]; [reflexivity |].
        exfalso. apply Hk. apply in_map_iff. now exists (w, v).
      * intros [= ->]. now left.
    + rewrite <- (IH Hd). split.
      * intros [[= -> _] | Hin]; [contradiction | exact Hin].
      * now right.
Qed.

Lemma dict_get_ext_Permutation {V : Type} (d1 d2 : dict string V) :
  NoDup (keys d1) -> NoDup (keys d2) ->
  (forall w, dict_get String.eqb w d1 = dict_get String.eqb w d2) ->
  Permutation d1 d2.
Proof.
  intros N1 N2 E.
  apply NoDup_Permutation.
  - eapply NoDup_map_inv. exact N1.
  - eapply NoDup_map_inv. exact N2.
  - intros [w v]. rewrite (dict_get_In d1 w v N1), (dict_get_In d2 w v N2).
    now rewrite E.
Qed.

Lemma counter_add_get (w w' : string) (c : dict string Z) :
  dict_get String.eqb w' (counter_add w c)
  = if String.eqb w w'
    then Some (match dict_get String.eqb w c with Some n => n + 1 | None => 1 end)
    else dict_get String.eqb w' c.
Proof.
  induction c as [| [k n] c IH]; cbn.
  - reflexivity.
  - destruct (String.eqb_spec k w) as [-> | Hkw]; cbn.
    + destruct (String.eqb_spec w w'); reflexivity.
    + rewrite IH. destruct (String.eqb_spec k w') as [-> | Hkw'].
      * destruct (String.eqb_spec w w'); [congruence | reflexivity].
      * reflexivity.
Qed.

Lemma counter_add_keys (w : string) (c : dict string Z) :
  keys (counter_add w c) = if mem w (keys c) then keys c else keys c ++ [w].
Proof.
  unfold keys, mem. induction c as [| [k n] c IH]; cbn; [reflexivity |].
  rewrite (String.eqb_sym w k).
  destruct (String.eqb k w); cbn; [reflexivity |].
  rewrite IH. now destruct (existsb (String.eqb w) (map fst c)).
Qed.

Lemma mem_In (w : string) (s : list string) : mem w s = true <-> In w s.
Proof.
  unfold mem. rewrite existsb_exists. split.
  - intros (x & Hx & E). apply String.eqb_eq in E. now subst.
  - intros H. exists w. split; [exact H | apply String.eqb_refl].
Qed.

Lemma counter_add_NoDup (w : string) (c : dict string Z) :
  NoDup (keys c) -> NoDup (keys (counter_add w c)).
Proof.
  intros N. rewrite counter_add_keys.
  destruct (mem w (keys c)) eqn:M; [exact N |].
  apply NoDup_app; repeat split; trivial.
  - repeat constructor. intros [].
  - intros x Hx [<- | []]. apply mem_In in Hx. congruence.
Qed.

Lemma counter_add_positive (w : string) (c : dict string Z) :
  Forall (fun n => 1 <= n) (values c) ->
  Forall (fun n => 1 <= n) (values (counter_add w c)).
Proof.
  unfold values. induction c as [| [k n] c IH]; cbn; intros H.
  - repeat constructor. lia.
  - inversion H; subst.
    destruct (String.eqb k w); cbn; constructor; auto; lia.
Qed.

Lemma Counter_invariant (words : list string) :
  NoDup (keys (Counter words)) /\
  Forall (fun n => 1 <= n) (values (Counter words)) /\
  (words <> [] -> Counter words <> []).
Proof.
  unfold Counter.
  assert (G : forall c, NoDup (keys c) -> Forall (fun n => 1 <= n) (values c) ->
              let c' := fold_left (fun c w => counter_add w c) words c in
              NoDup (keys c') /\ Forall (fun n => 1 <= n) (values c') /\
              (words <> [] \/ c <> [] -> c' <> [])).
  { induction words as [| w ws IH]; intros c N P; cbn.
    - repeat split; trivial. intros [H | H]; [congruence | exact H].
    - destruct (IH (counter_add w c)) as (N' & P' & E').
      + now apply counter_add_NoDup.
      + now apply counter_add_positive.
      + repeat split; trivial. intros _. apply E'. right.
        destruct c as [| [k n] c]; cbn; [discriminate |].
        destruct (String.eqb k w); discriminate. }
  destruct (G [] (NoDup_nil _) (Forall_nil _)) as (N & P & E).
  repeat split; trivial. intros H. apply E. now left.
Qed.

(** ** Sums of squares and dot products *)

Lemma fold_left_add_shift {A : Type} (f : A -> Z) (l : list A) (z : Z) :
  fold_left (fun acc x => acc + f x) l z
  = z + fold_left (fun acc x => acc + f x) l 0.
Proof.
  revert z; induction l as [| x l IH]; intros z; cbn; [lia |].
  rewrite (IH (z + f x)), (IH (f x)). lia.
Qed.

Lemma sum_squares_cons (x : Z) (l : list Z) :
  sum_squares (x :: l) = x ^ 2 + sum_squares l.
Proof.
  unfold sum_squares. cbn [fold_left].
  now rewrite (fold_left_add_shift (fun v => v ^ 2) l (0 + x ^ 2)).
Qed.

Lemma sum_squares_Permutation (l1 l2 : list Z) :
  Permutation l1 l2 -> sum_squares l1 = sum_squares l2.
Proof.
  induction 1 as [| x l1 l2 _ IH | x y l | l1 l2 l3 _ IH1 _ IH2].
  - reflexivity.
  - rewrite !sum_squares_cons. now rewrite IH.
  - rewrite !sum_squares_cons. lia.
  - congruence.
Qed.

Lemma sum_squares_scale (k : Z) (l : list Z) :
  sum_squares (map (Z.mul k) l) = k ^ 2 * sum_squares l.
Proof.
  induction l as [| x l IH]; [cbn; lia |].
  cbn [map]. rewrite !sum_squares_cons, IH. nia.
Qed.

Lemma sum_squares_positive (l : list Z) :
  Forall (fun n => 1 <= n) l -> l <> [] -> 0 < sum_squares l.
Proof.
  intros H. induction H as [| x l Hx Hl IH]; [congruence |]. intros _.
  rewrite sum_squares_cons.
  destruct l as [| y l]; [cbn; nia |].
  assert (0 < sum_squares (y :: l)) by (apply IH; discriminate). nia.
Qed.

(** [doc] holds, for exactly the terms of [words], [k] times their
    number of occurrences in [words]. *)
Definition scalar_multiple (k : Z) (words : list string) (doc : freq_map) : Prop :=
  NoDup (keys doc) /\
  forall w, dict_get String.eqb w doc
            = option_map (Z.mul k) (dict_get String.eqb w (Counter words)).

Lemma scale_get (k : Z) (c : dict string Z) (w : string) :
  dict_get String.eqb w (map (fun '(t, n) => (t, k * n)) c)
  = option_map (Z.mul k) (dict_get String.eqb w c).
Proof.
  induction c as [| [t n] c IH]; cbn; [reflexivity |].
  destruct (String.eqb t w); [reflexivity | exact IH].
Qed.

Lemma dot_product_of_scaled (k : Z) (c doc : freq_map) :
  NoDup (keys c) ->
  (forall w, dict_get String.eqb w doc
             = option_map (Z.mul k) (dict_get String.eqb w c)) ->
  dot_product_of c doc = k * sum_squares (values c).
Proof.
  intros N E. unfold dot_product_of.
  assert (G : forall l z, (forall w n, In (w, n) l -> In (w, n) c) ->
              fold_left
                (fun dot_product '(word, qf) =>
                   match dict_get String.eqb word doc with
                   | Some df => dot_product + qf * df
                   | None => dot_product
                   end) l z
              = z + k * sum_squares (values l)).
  { induction l as [| [w n] l IH]; intros z Hl; cbn [fold_left].
    - cbn. lia.
    - assert (Hw : dict_get String.eqb w c = Some n).
      { apply dict_get_In; [exact N |]. apply Hl. now left. }
      rewrite E, Hw. cbn [option_map].
      rewrite IH by (intros; apply Hl; now right).
      unfold values. cbn [map snd]. rewrite sum_squares_cons. nia. }
  rewrite G by auto. lia.
Qed.

Lemma scalar_multiple_integers (k : Z) (words : list string) (doc : freq_map) :
  0 < k -> words <> [] -> scalar_multiple k words doc ->
  let a := sum_squares (values (Counter words)) in
  let b := sum_squares (values doc) in
  let dot := dot_product_of (Counter words) doc in
  0 < a /\ b = k ^ 2 * a /\ dot = k * a.
Proof.
  intros Hk Hw [ND E]. cbn zeta.
  destruct (Counter_invariant words) as (NC & PC & EC).
  split; [| split].
  - apply sum_squares_positive; [exact PC |].
    specialize (EC Hw). unfold values.
    destruct (Counter words); [congruence | discriminate].
  - assert (P : Permutation doc (map (fun '(t, n) => (t, k * n)) (Counter words))).
    { apply dict_get_ext_Permutation; trivial.
      - unfold keys. rewrite map_map.
        erewrite map_ext; [exact NC |]. now intros [t n].
      - intros w. now rewrite scale_get. }
    unfold values.
    rewrite (sum_squares_Permutation _ _ (Permutation_map snd P)).
    rewrite map_map.
    erewrite (map_ext _ (fun x => k * snd x)) by (now intros [t n]).
    rewrite <- (map_map snd (Z.mul k)).
    apply sum_squares_scale.
  - now apply dot_product_of_scaled.
Qed.

(** ** Sets of terms *)

Lemma set_of_spec (l : list string) :
  NoDup (set_of l) /\ forall w, In w (set_of l) <-> In w l.
Proof.
  unfold set_of. split; [apply NoDup_nodup | intros w; apply nodup_In].
Qed.

Lemma set_inter_spec (a b : list string) :
  NoDup a ->
  NoDup (set_inter a b) /\
  forall w, In w (set_inter a b) <-> In w a /\ In w b.
Proof.
  intros Na. unfold set_inter. split.
  - now apply NoDup_filter.
  - intros w. rewrite filter_In, mem_In. reflexivity.
Qed.

Lemma set_union_spec (a b : list string) :
  NoDup a -> NoDup b ->
  NoDup (set_union a b) /\
  forall w, In w (set_union a b) <-> In w a \/ In w b.
Proof.
  intros Na Nb. unfold set_union. split.
  - apply NoDup_app; repeat split; trivial; [now apply NoDup_filter |].
    intros w Hw Hf. apply filter_In in Hf as [_ Hf].
    apply negb_true_iff in Hf. apply mem_In in Hw. congruence.
  - intros w. rewrite in_app_iff, filter_In, negb_true_iff. split.
    + intuition auto.
    + intros [H | H]; [now left |].
      destruct (mem w a) eqn:M; [left; now apply mem_In | right; auto].
Qed.

Lemma set_inter_le_union (a b : list string) :
  (List.length (set_inter a b) <= List.length (set_union a b))%nat.
Proof.
  unfold set_inter, set_union. rewrite length_app.
  pose proof (filter_length_le (fun w => mem w b) a). lia.
Qed.

Lemma filter_all {A : Type} (f : A -> bool) (l : list A) :
  (forall x, In x l -> f x = true) -> filter f l = l.
Proof.
  induction l as [| x l IH]; cbn; intros H; [reflexivity |].
  rewrite (H x) by now left. f_equal. apply IH. intros; apply H; now right.
Qed.

Lemma filter_none {A : Type} (f : A -> bool) (l : list A) :
  (forall x, In x l -> f x = false) -> filter f l = [].
Proof.
  induction l as [| x l IH]; cbn; intros H; [reflexivity |].
  rewrite (H x) by now left. apply IH. intros; apply H; now right.
Qed.

Lemma calculate_jaccard_returns (query_words : list string) (table : freq_map) :
  exists j, calculate_jaccard query_words table = Ok j /\ unit_interval j.
Proof.
  unfold calculate_jaccard.
  pose proof (set_inter_le_union (set_of query_words) (set_of (keys table))) as L.
  set (inter := set_inter _ _) in *. set (union := set_union _ _) in *.
  unfold len. destruct (Z.eqb_spec (Z.of_nat (List.length union)) 0) as [E | NE].
  - exists F64.zero. repeat split.
  - apply int_true_divide_unit; lia.
Qed.

(** ** The search pipeline *)

(** Whether the loop of [search] emits a result for a document. *)
Definition passes {U : Unicode}
  (self : SimilarityCalculator) (query_words : list string)
  (algorithm : string) (target_category : option string)
  (min_similarity : F64.float) (bm25_scores : dict Z F64.float)
  (item : Z * freq_map) : bool :=
  category_matches (metadata self (fst item)) target_category &&
  match score algorithm query_words bm25_scores (fst item) (snd item) with
  | Ok sim => F64.geb sim min_similarity
  | Raise _ => false
  end.

Lemma emitted_ids {U : Unicode}
  (self : SimilarityCalculator) (query_words : list string)
  (algorithm : string) (target_category : option string)
  (min_similarity : F64.float) (bm25_scores : dict Z F64.float)
  (index : dict Z freq_map) :
  map content_id
    (flat_map
       (emitted self query_words algorithm target_category min_similarity
          bm25_scores) index)
  = keys (filter
            (passes self query_words algorithm target_category min_similarity
               bm25_scores) index).
Proof.
  induction index as [| [doc_id table] index IH]; cbn; [reflexivity |].
  rewrite map_app, IH. unfold passes; cbn.
  destruct (category_matches (metadata self doc_id) target_category); cbn;
    [| reflexivity].
  destruct (score algorithm query_words bm25_scores doc_id table) as [sim |];
    cbn; [| reflexivity].
  destruct (F64.geb sim min_similarity); reflexivity.
Qed.

Lemma NoDup_keys_filter {V : Type} (f : Z * V -> bool) (d : dict Z V) :
  NoDup (keys d) -> NoDup (keys (filter f d)).
Proof.
  unfold keys. induction d as [| [k v] d IH]; cbn; intros H; [constructor |].
  inversion H as [| ? ? Hk Hd]; subst.
  destruct (f (k, v)); cbn; [| now apply IH].
  constructor; [| now apply IH].
  intros Hin. apply Hk. apply in_map_iff in Hin as ([k' v'] & E & Hin).
  apply filter_In in Hin as [Hin _]. cbn in E; subst k'.
  apply in_map_iff. now exists (k, v').
Qed.

Lemma search_loop_returns {U : Unicode} (self : SimilarityCalculator)
  (query_words : list string) (algorithm : string)
  (target_category : option string) (min_similarity : F64.float)
  (bm25_scores : dict Z F64.float) (index : dict Z freq_map) :
  (forall doc_id table, In (doc_id, table) index ->
     exists sim,
       score algorithm query_words bm25_scores doc_id table = Ok sim) ->
  forall acc, exists rs,
    for_each
      (search_step self query_words algorithm target_category min_similarity
         bm25_scores) index acc = Ok rs.
Proof.
  induction index as [| [doc_id table] index IH]; intros H acc; cbn;
    [eauto |].
  assert (H' : forall d t, In (d, t) index ->
                 exists sim, score algorithm query_words bm25_scores d t = Ok sim)
    by (intros; apply H; now right).
  destruct (category_matches _ target_category); cbn; [| now apply IH].
  destruct (H doc_id table (or_introl eq_refl)) as (sim & ->); cbn.
  destruct (F64.geb sim min_similarity); now apply IH.
Qed.

(** With the Jaccard scorer [search] always returns. *)
Lemma search_jaccard_returns {U : Unicode}
  (self : SimilarityCalculator) (query : string)
  (target_category : option string) (min_similarity : F64.float) :
  exists rs,
    search self query "jaccard"%string target_category min_similarity = Ok rs.
Proof.
  unfold search. destruct (preprocess_query query) as [| w ws]; [eauto |].
  cbn [String.eqb Ascii.eqb Bool.eqb bind].
  destruct (search_loop_returns self (w :: ws) "jaccard"%string target_category
              min_similarity [] (inverted_index self)) with (acc := @nil ScoredResult)
    as (rs & ->).
  - intros doc_id table _. unfold score. cbn [String.eqb Ascii.eqb Bool.eqb].
    destruct (calculate_jaccard_returns (w :: ws) table) as (j & -> & _). eauto.
  - cbn. eauto.
Qed.

(** C2. A query whose tokenisation yields no token, the empty query and
    the query of white space only among them (any white space
    [str.split] separates on), makes [search] return the empty list,
    whatever the algorithm, the category filter, the threshold and the
    stores: no document is scored, so no scorer can raise. *)
Theorem search_without_tokens {U : Unicode} (self : SimilarityCalculator)
  (query algorithm : string) (target_category : option string)
  (min_similarity : F64.float) :
  all_space query = true \/ preprocess_query query = [] ->
  preprocess_query query = [] /\
  search self query algorithm target_category min_similarity = Ok [].
Proof.
  intros H.
  assert (Q : preprocess_query query = []).
  { destruct H as [H | H]; [now apply preprocess_query_all_space | exact H]. }
  split; [exact Q |]. unfold search. now rewrite Q.
Qed.

Lemma search_without_tokens_witness :
  all_space TestData.blank = true /\
  search TestData.calculator TestData.blank "cosine"%string
    (Some "Wisata"%string) F64.one = Ok [] /\
  all_space TestData.short_words = false /\
  preprocess_query TestData.short_words = [] /\
  search TestData.calculator TestData.short_words "jaccard"%string None F64.zero
  = Ok [].
Proof.
  split; [reflexivity |]. split.
  - apply (search_without_tokens TestData.calculator TestData.blank
             "cosine"%string (Some "Wisata"%string) F64.one).
    left. reflexivity.
  - split; [reflexivity |].
    apply (search_without_tokens TestData.calculator TestData.short_words
             "jaccard"%string None F64.zero).
    right. reflexivity.
Defined.

(** C3. Every result [search] returns passes both filters: its similarity
    is at least the threshold, and under a non-empty category filter the
    stored category of its document (the empty string when the metadata
    has none) equals the filter up to case, that is after [str.lower] on
    both sides. *)
Theorem search_results_pass_filters {U : Unicode} (self : SimilarityCalculator)
  (query algorithm : string) (target_category : option string)
  (min_similarity : F64.float) (rs : list ScoredResult) :
  search self query algorithm target_category min_similarity = Ok rs ->
  Forall
    (fun r =>
       F64.geb (similarity r) min_similarity = true /\
       forall c, target_category = Some c -> c <> EmptyString ->
         lower (dict_get_default String.eqb "category"%string EmptyString
                  (metadata self (content_id r)))
         = lower c)
    rs.
Proof.
  intros H.
  destruct (preprocess_query query) as [| w ws] eqn:Q.
  - unfold search in H. rewrite Q in H. injection H as <-. constructor.
  - assert (Q' : preprocess_query query <> []) by (rewrite Q; discriminate).
    destruct (search_returns _ _ _ _ _ _ Q' H) as (bm25 & _ & _ & ->).
    apply Forall_forall. intros r Hr.
    apply (Permutation_in _ (Permutation_sym (sort_reverse_perm similarity _)))
      in Hr.
    apply in_flat_map in Hr as (item & _ & Hr).
    apply in_emitted in Hr as (Hc & _ & Hg & Er).
    split; [exact Hg |].
    intros c -> Hne.
    assert (Eid : content_id r = fst item) by (rewrite Er; reflexivity).
    rewrite Eid. unfold category_matches, truthy in Hc.
    destruct (String.eqb_spec c EmptyString) as [E | _]; [contradiction |].
    cbn in Hc. now apply String.eqb_eq.
Qed.

Lemma search_results_pass_filters_witness :
  exists rs,
    search TestData.calculator "pantai bali"%string "jaccard"%string (Some "WISATA"%string)
      TestData.half = Ok rs /\
    Forall
      (fun r =>
         F64.geb (similarity r) TestData.half = true /\
         forall c, Some "WISATA"%string = Some c -> c <> EmptyString ->
           lower (dict_get_default String.eqb "category"%string EmptyString
                    (metadata TestData.calculator (content_id r)))
           = lower c)
      rs.
Proof.
  eexists. split.
  - vm_compute. reflexivity.
  - apply (search_results_pass_filters TestData.calculator "pantai bali"%string
             "jaccard"%string (Some "WISATA"%string) TestData.half).
    vm_compute. reflexivity.
Defined.

(** C8. Whatever the inputs, the list [search] returns is in descending
    order of similarity: each result's similarity is [>=] that of the
    result after it. *)
Theorem search_sorted_descending {U : Unicode} (self : SimilarityCalculator)
  (query algorithm : string) (target_category : option string)
  (min_similarity : F64.float) (rs : list ScoredResult) :
  search self query algorithm target_category min_similarity = Ok rs ->
  Sorted (fun a b => F64.geb (similarity a) (similarity b) = true) rs.
Proof.
  intros H.
  destruct (preprocess_query query) as [| w ws] eqn:Q.
  - unfold search in H. rewrite Q in H. injection H as <-. constructor.
  - assert (Q' : preprocess_query query <> []) by (rewrite Q; discriminate).
    destruct (search_returns _ _ _ _ _ _ Q' H) as (bm25 & _ & _ & ->).
    apply StronglySorted_Sorted.
    apply (sort_reverse_sorted similarity).
    apply Forall_forall. intros r Hr.
    apply in_flat_map in Hr as (item & _ & Hr).
    apply in_emitted in Hr as (_ & _ & Hg & _).
    unfold no_nan. unfold F64.geb in Hg.
    now destruct (F64Order.leb_not_nan _ _ Hg).
Qed.

Lemma search_sorted_descending_witness :
  exists rs,
    search TestData.calculator "pantai indah"%string "cosine"%string None F64.zero = Ok rs /\
    Sorted (fun a b => F64.geb (similarity a) (similarity b) = true) rs.
Proof.
  eexists. split.
  - vm_compute. reflexivity.
  - apply (search_sorted_descending TestData.calculator "pantai indah"%string
             "cosine"%string None F64.zero).
    vm_compute. reflexivity.
Defined.

(** C9. The empty string as category filter is no filter: every document
    passes the category test whatever its stored category, and [search]
    behaves exactly as when no category is given.  Only a non-empty
    filter restricts: it keeps the documents whose stored category equals
    it up to case. *)
Theorem search_empty_category {U : Unicode} (self : SimilarityCalculator)
  (query algorithm : string) (min_similarity : F64.float) :
  (forall data, category_matches data (Some EmptyString) = true) /\
  search self query algorithm (Some EmptyString) min_similarity
  = search self query algorithm None min_similarity /\
  (forall data c, c <> EmptyString ->
     category_matches data (Some c)
     = String.eqb
         (lower (dict_get_default String.eqb "category"%string EmptyString data))
         (lower c)).
Proof.
  split; [| split].
  - intros data. reflexivity.
  - reflexivity.
  - intros data c Hc. unfold category_matches, truthy.
    apply String.eqb_neq in Hc. now rewrite Hc.
Qed.

(** C10. On a query with tokens, when [search] returns, the identifiers
    of its results are, up to order, exactly the identifiers of the
    documents of the index that pass the category test and whose
    similarity reaches the threshold; none is repeated, and so none is
    foreign to the index. *)
Theorem search_one_result_per_document {U : Unicode}
  (self : SimilarityCalculator)
  (query algorithm : string) (target_category : option string)
  (min_similarity : F64.float) (rs : list ScoredResult) :
  NoDup (keys (inverted_index self)) ->
  preprocess_query query <> [] ->
  search self query algorithm target_category min_similarity = Ok rs ->
  exists bm25_scores,
    (if String.eqb algorithm "bm25"%string
     then calculate_bm25 self (preprocess_query query) else Ok [])
      = Ok bm25_scores /\
    Permutation (map content_id rs)
      (keys (filter
               (passes self (preprocess_query query) algorithm target_category
                  min_similarity bm25_scores) (inverted_index self))) /\
    NoDup (map content_id rs) /\
    (forall r, In r rs -> In (content_id r) (keys (inverted_index self))) /\
    (forall doc_id table, In (doc_id, table) (inverted_index self) ->
       category_matches (metadata self doc_id) target_category = true ->
       exists sim,
         score algorithm (preprocess_query query) bm25_scores doc_id table
           = Ok sim /\
         (F64.geb sim min_similarity = true ->
          exists r, In r rs /\ content_id r = doc_id /\ similarity r = sim)).
Proof.
  intros ND Q H.
  destruct (search_returns _ _ _ _ _ _ Q H) as (bm25 & Hb & HL & ->).
  exists bm25. split; [exact Hb |].
  set (em := flat_map _ _) in *.
  assert (P : Permutation (map content_id (sort_reverse similarity em))
                (keys (filter
                         (passes self (preprocess_query query) algorithm
                            target_category min_similarity bm25)
                         (inverted_index self)))).
  { rewrite <- (sort_reverse_perm similarity em).
    unfold em. now rewrite emitted_ids. }
  assert (N : NoDup (map content_id (sort_reverse similarity em))).
  { eapply Permutation_NoDup; [symmetry; exact P |].
    now apply NoDup_keys_filter. }
  repeat split; trivial.
  - intros r Hr.
    apply (in_map content_id) in Hr.
    apply (Permutation_in _ P) in Hr.
    unfold keys in *. apply in_map_iff in Hr as (item & <- & Hr).
    apply filter_In in Hr as [Hr _]. now apply in_map.
  - intros doc_id table Hin Hc.
    destruct (search_loop_scored _ _ _ _ _ _ _ _ _ HL _ _ Hin Hc) as (sim & Hs).
    exists sim. split; [exact Hs |]. intros Hg.
    exists (make_result doc_id (metadata self doc_id) sim).
    repeat split.
    apply (Permutation_in _ (sort_reverse_perm similarity em)).
    unfold em. apply in_flat_map. exists (doc_id, table). split; [exact Hin |].
    cbn. rewrite Hc, Hs, Hg. now left.
Qed.

Lemma search_one_result_per_document_witness :
  exists rs,
    NoDup (keys (inverted_index TestData.calculator)) /\
    preprocess_query "pantai bali"%string <> [] /\
    search TestData.calculator "pantai bali"%string "bm25"%string None TestData.half = Ok rs /\
    exists bm25_scores,
      calculate_bm25 TestData.calculator (preprocess_query "pantai bali"%string)
        = Ok bm25_scores /\
      Permutation (map content_id rs)
        (keys (filter
                 (passes TestData.calculator (preprocess_query "pantai bali"%string)
                    "bm25"%string None TestData.half bm25_scores)
                 (inverted_index TestData.calculator))) /\
      NoDup (map content_id rs).
Proof.
  assert (ND : NoDup (keys (inverted_index TestData.calculator))).
  { cbn. repeat constructor; cbn; intuition discriminate. }
  assert (Q : preprocess_query "pantai bali"%string <> []) by discriminate.
  assert (H : exists rs,
             search TestData.calculator "pantai bali"%string "bm25"%string None
               TestData.half = Ok rs)
    by (eexists; vm_compute; reflexivity).
  destruct H as (rs & H). exists rs.
  split; [exact ND |]. split; [exact Q |]. split; [exact H |].
  destruct (search_one_result_per_document TestData.calculator
              "pantai bali"%string "bm25"%string None TestData.half rs ND Q H)
    as (bm25 & Hb & P & N & _).
  exists bm25. auto.
Defined.

(** ** The scorers *)

(** C4. [calculate_jaccard] never raises and returns the quotient of the
    number of terms shared by the query and the table by the number of
    terms of either (rounded once to binary64), 0.0 when there is no
    term at all.  The value lies in [0, 1]; it is 0.0 when no term is
    shared and 1.0 when the two term sets are equal and not empty; the
    frequencies of the table play no part. *)
Theorem calculate_jaccard_spec (query_words : list string) (doc_words_freq : freq_map) :
  exists (inter union : list string) (j : F64.float),
    NoDup inter /\ NoDup union /\
    (forall w, In w inter <-> In w query_words /\ In w (keys doc_words_freq)) /\
    (forall w, In w union <-> In w query_words \/ In w (keys doc_words_freq)) /\
    calculate_jaccard query_words doc_words_freq = Ok j /\
    (union = [] -> j = F64.zero) /\
    (union <> [] -> F64.int_true_divide (len inter) (len union) = Ok j) /\
    F64.leb F64.zero j = true /\ F64.leb j F64.one = true /\
    (inter = [] -> j = F64.zero) /\
    (union <> [] ->
     (forall w, In w query_words <-> In w (keys doc_words_freq)) ->
     j = F64.one) /\
    (forall other : freq_map,
       keys other = keys doc_words_freq ->
       calculate_jaccard query_words other = Ok j).
Proof.
  destruct (set_of_spec query_words) as [Nq Iq].
  destruct (set_of_spec (keys doc_words_freq)) as [Nd Id].
  destruct (set_inter_spec (set_of query_words) (set_of (keys doc_words_freq)) Nq)
    as [Ni Ii].
  destruct (set_union_spec _ _ Nq Nd) as [Nu Iu].
  pose proof (set_inter_le_union (set_of query_words)
                (set_of (keys doc_words_freq))) as Hle.
  set (inter := set_inter (set_of query_words) (set_of (keys doc_words_freq))) in *.
  set (union := set_union (set_of query_words) (set_of (keys doc_words_freq))) in *.
  assert (Hspec : calculate_jaccard query_words doc_words_freq
                  = if len union =? 0 then Ok F64.zero
                    else F64.int_true_divide (len inter) (len union))
    by reflexivity.
  assert (Hj : exists j,
             calculate_jaccard query_words doc_words_freq = Ok j /\
             (union = [] -> j = F64.zero) /\
             (union <> [] -> F64.int_true_divide (len inter) (len union) = Ok j) /\
             unit_interval j).
  { rewrite Hspec. unfold len. destruct union as [| u us] eqn:EU.
    - exists F64.zero. repeat split; congruence.
    - cbn [List.length] in *.
      destruct (Z.eqb_spec (Z.of_nat (S (List.length us))) 0) as [| _]; [lia |].
      destruct (int_true_divide_unit (Z.of_nat (List.length inter))
                  (Z.of_nat (S (List.length us)))) as (j & Ej & Uj); try lia.
      exists j. repeat split; try apply Uj; congruence. }
  destruct Hj as (j & Ej & Ez & Ed & Uj1 & Uj2).
  exists inter, union, j.
  split; [exact Ni |]. split; [exact Nu |].
  split; [intros w; now rewrite Ii, Iq, Id |].
  split; [intros w; now rewrite Iu, Iq, Id |].
  split; [exact Ej |]. split; [exact Ez |]. split; [exact Ed |].
  split; [exact Uj1 |]. split; [exact Uj2 |].
  split; [| split].
  - intros Ei. destruct union as [| u us] eqn:EU; [now apply Ez |].
    assert (D : F64.int_true_divide (len inter) (len (u :: us)) = Ok j)
      by (apply Ed; discriminate).
    rewrite Ei in D. unfold len in D. cbn [List.length] in D.
    rewrite int_true_divide_zero in D by lia. congruence.
  - intros Hne Heq.
    assert (D : F64.int_true_divide (len inter) (len union) = Ok j) by auto.
    assert (Ei : inter = set_of query_words).
    { unfold inter, set_inter. apply filter_all. intros w Hw.
      apply mem_In, Id, Heq, Iq, Hw. }
    assert (Eu : union = set_of query_words).
    { unfold union, set_union. rewrite filter_none; [apply app_nil_r |].
      intros w Hw. apply negb_false_iff, mem_In, Iq, Heq, Id, Hw. }
    rewrite Ei, Eu in D.
    rewrite int_true_divide_self in D; [congruence |].
    unfold len. rewrite Eu in Hne.
    destruct (set_of query_words); [congruence | cbn; lia].
  - intros other Hk. unfold calculate_jaccard. rewrite Hk. exact Ej.
Qed.

(** C5. For the query aa aa bb bb bb and the table aa -> 2, bb -> 3 the
    dot product is 13 and both sums of squares are 13; [calculate_cosine]
    returns 13 / (sqrt 13 * sqrt 13) evaluated in binary64, which is
    1.0000000000000002: the product of the two magnitudes is rounded
    below 13.  The result is above 1.0, outside [0, 1]. *)
Theorem calculate_cosine_above_one :
  let query_words := ["aa"; "aa"; "bb"; "bb"; "bb"]%string in
  let doc_words_freq := [("aa", 2); ("bb", 3)]%string in
  dot_product_of (Counter query_words) doc_words_freq = 13 /\
  sum_squares (values (Counter query_words)) = 13 /\
  sum_squares (values doc_words_freq) = 13 /\
  calculate_cosine query_words doc_words_freq
  = Ok (S754_finite false 4503599627370497 (-52)) /\
  F64.leb (S754_finite false 4503599627370497 (-52)) F64.one = false /\
  F64.gtb (S754_finite false 4503599627370497 (-52)) F64.one = true.
Proof. vm_compute. repeat split; reflexivity. Qed.


(** C1. Given raw scores that are binary64 numbers, one per entry of the
    identifier map, whose spread does not overflow, [calculate_bm25]
    returns a table with, at each document of the map, the min-max
    rescaling of its raw score: 0.0 everywhere when the greatest and the
    least raw scores are equal; otherwise (raw - min) / (max - min), a
    value of [0, 1] that is 1.0 at a greatest score and 0.0 at a least
    one. *)
Theorem calculate_bm25_normalized (self : SimilarityCalculator)
  (query_words : list string) :
  let raw_scores := get_scores (bm25_model self) query_words in
  NoDup (bm25_id_map self) ->
  List.length raw_scores = List.length (bm25_id_map self) ->
  Forall score_ok raw_scores ->
  match raw_scores with
  | x :: xs => F64.is_finite (F64.sub (py_max x xs) (py_min x xs)) = true
  | [] => True
  end ->
  exists scores,
    calculate_bm25 self query_words = Ok scores /\
    keys scores = bm25_id_map self /\
    forall x xs, raw_scores = x :: xs ->
      let max_score := py_max x xs in
      let min_score := py_min x xs in
      In max_score raw_scores /\ In min_score raw_scores /\
      Forall (fun y => F64.leb y max_score = true /\ F64.leb min_score y = true)
        raw_scores /\
      forall i doc_id raw,
        nth_error (bm25_id_map self) i = Some doc_id ->
        nth_error raw_scores i = Some raw ->
        exists s,
          dict_get Z.eqb doc_id scores = Some s /\
          (F64.eqb max_score min_score = true -> s = F64.zero) /\
          (F64.eqb max_score min_score = false ->
           s = F64.div (F64.sub raw min_score) (F64.sub max_score min_score) /\
           F64.leb F64.zero s = true /\ F64.leb s F64.one = true /\
           (F64.eqb raw max_score = true -> s = F64.one) /\
           (F64.eqb raw min_score = true -> F64.eqb s F64.zero = true)).
Proof.
  intros raw_scores ND Len Hok Hfin.
  unfold calculate_bm25. fold raw_scores.
  destruct raw_scores as [| x xs] eqn:Raw.
  - exists []. cbn in Len. destruct (bm25_id_map self); [| discriminate].
    split; [reflexivity |]. split; [reflexivity |]. intros ? ? [=].
  - destruct (py_max_spec x xs Hok) as [Imx Amx].
    destruct (py_min_spec x xs Hok) as [Imn Amn].
    set (mx := py_max x xs) in *. set (mn := py_min x xs) in *.
    assert (Okx : score_ok mx) by (eapply Forall_forall in Hok; eauto).
    assert (Okn : score_ok mn) by (eapply Forall_forall in Hok; eauto).
    assert (Hle : scaled mn <= scaled mx).
    { eapply Forall_forall in Amx; [| exact Imn]. exact Amx. }
    assert (Heq : F64.eqb mx mn = true <-> scaled mx = scaled mn).
    { destruct Okx, Okn. now apply eqb_scaled. }
    assert (Hall : Forall (fun y => F64.leb y mx = true /\ F64.leb mn y = true)
                     (x :: xs)).
    { apply Forall_forall. intros y Hy.
      assert (Oy : score_ok y) by (eapply Forall_forall in Hok; eauto).
      destruct Oy, Okx, Okn.
      rewrite !leb_scaled by assumption. split.
      - eapply Forall_forall in Amx; [| exact Hy]. exact Amx.
      - eapply Forall_forall in Amn; [| exact Hy]. exact Amn. }
    destruct (Z.eq_dec (scaled mx) (scaled mn)) as [E | NE].
    + destruct Okx as [Vx Fx], Okn as [Vn Fn].
      destruct (sub_equal mx mn Vx Vn Fx Fn E) as (z & ->).
      assert (HZ : F64.eqb (S754_zero z) F64.zero = true) by (destruct z; reflexivity).
      rewrite HZ. rewrite comprehension_combine by assumption.
      eexists. split; [reflexivity |].
      split; [apply keys_combine; rewrite length_map; lia |].
      intros x' xs' [= <- <-]. cbv zeta. fold mx mn.
      split; [exact Imx |]. split; [exact Imn |]. split; [exact Hall |].
      intros i doc_id raw Hi Hr. exists F64.zero. split; [| split].
      * eapply dict_get_combine; eauto.
        rewrite nth_error_map, Hr. reflexivity.
      * reflexivity.
      * intros C. apply Heq in E. congruence.
    + assert (Hlt : scaled mn < scaled mx) by lia.
      assert (Hne : F64.eqb mx mn = false).
      { apply Bool.not_true_is_false. intros C. apply Heq in C. contradiction. }
      destruct (normalized_score mx mn mx Okx Okn Okx ltac:(lia) Hlt Hfin)
        as (Hz & _).
      rewrite Hz. rewrite comprehension_combine by assumption.
      eexists. split; [reflexivity |].
      split; [apply keys_combine; rewrite length_map; lia |].
      intros x' xs' [= <- <-]. cbv zeta. fold mx mn.
      split; [exact Imx |]. split; [exact Imn |]. split; [exact Hall |].
      intros i doc_id raw Hi Hr.
      exists (F64.div (F64.sub raw mn) (F64.sub mx mn)). split; [| split].
      * eapply dict_get_combine; eauto.
        rewrite nth_error_map, Hr. reflexivity.
      * congruence.
      * intros _.
        assert (Ir : In raw (x :: xs)) by (eapply nth_error_In; eauto).
        assert (Or : score_ok raw) by (eapply Forall_forall in Hok; eauto).
        assert (Br : scaled mn <= scaled raw <= scaled mx).
        { split.
          - eapply Forall_forall in Amn; [| exact Ir]. exact Amn.
          - eapply Forall_forall in Amx; [| exact Ir]. exact Amx. }
        destruct (normalized_score mx mn raw Okx Okn Or Br Hlt Hfin)
          as (_ & U1 & U2 & T1 & T0).
        split; [reflexivity |]. split; [exact U1 |]. split; [exact U2 |].
        destruct Or as [Vr Fr], Okx as [Vx Fx], Okn as [Vn Fn].
        split; intros C.
        -- apply T1. now apply eqb_scaled.
        -- apply T0. now apply eqb_scaled.
Qed.

Lemma calculate_bm25_normalized_witness :
  NoDup (bm25_id_map TestData.calculator) /\
  List.length (get_scores (bm25_model TestData.calculator) ["pantai"%string])
  = List.length (bm25_id_map TestData.calculator) /\
  Forall score_ok (get_scores (bm25_model TestData.calculator) ["pantai"%string]) /\
  exists scores,
    calculate_bm25 TestData.calculator ["pantai"%string] = Ok scores /\
    keys scores = bm25_id_map TestData.calculator.
Proof.
  assert (ND : NoDup (bm25_id_map TestData.calculator)).
  { cbn. repeat constructor; cbn; intuition discriminate. }
  assert (OK : Forall score_ok
                 (get_scores (bm25_model TestData.calculator) ["pantai"%string])).
  { cbn. repeat constructor. }
  split; [exact ND |]. split; [reflexivity |]. split; [exact OK |].
  destruct (calculate_bm25_normalized TestData.calculator ["pantai"%string]
              ND eq_refl OK eq_refl) as (scores & E & K & _).
  exists scores. split; [exact E | exact K].
Defined.

(** * Further properties *)

(** ** Tokens *)

Lemma append_assoc_string (a b c : string) :
  ((a ++ b) ++ c = a ++ (b ++ c))%string.
Proof. induction a as [| x a IH]; cbn; [reflexivity | now rewrite IH]. Qed.

(** [s] holds a white space character. *)
Fixpoint has_space (s : string) : bool :=
  match s with
  | EmptyString => false
  | String _ s' => (0 <? space_width s)%nat || has_space s'
  end.

(** Whether a string starts with white space is seen on its first three
    bytes. *)
Lemma space_width_app (s rest : string) (width : nat) :
  space_width s = S width -> space_width (s ++ rest) = S width.
Proof.
  unfold space_width.
  destruct s as [| c s]; [discriminate |]. cbn [append].
  destruct ((9 <=? nat_of_ascii c) && (nat_of_ascii c <=? 13)
            || (28 <=? nat_of_ascii c) && (nat_of_ascii c <=? 32))%nat;
    [trivial |].
  destruct s as [| c1 s]; [discriminate |]. cbn [append].
  destruct (nat_of_ascii c =? 194)%nat; [trivial |].
  destruct s as [| c2 s]; [discriminate |]. cbn [append]. trivial.
Qed.

(** No white space character starts in [cur] when [cur] is followed by
    [rest]. *)
Fixpoint clear (cur rest : string) : Prop :=
  match cur with
  | EmptyString => True
  | String _ cur' => space_width (cur ++ rest) = 0%nat /\ clear cur' rest
  end.

Lemma clear_snoc (cur : string) (c : ascii) (rest : string) :
  clear cur (String c rest) -> space_width (String c rest) = 0%nat ->
  clear (cur ++ String c EmptyString) rest.
Proof.
  induction cur as [| a cur IH]; cbn [clear append]; intros H W.
  - split; [exact W | exact I].
  - destruct H as [H1 H2]. split; [| now apply IH].
    change (String a (cur ++ String c EmptyString) ++ rest)%string
      with (String a ((cur ++ String c EmptyString) ++ rest))%string.
    now rewrite append_assoc_string.
Qed.

Lemma clear_has_space (cur rest : string) :
  clear cur rest -> has_space cur = false.
Proof.
  induction cur as [| a cur IH]; cbn [clear has_space]; [reflexivity |].
  intros [H1 H2]. rewrite (IH H2).
  destruct (space_width (String a cur)) as [| width] eqn:E; [reflexivity |].
  apply (space_width_app _ rest) in E. congruence.
Qed.

(** Every token [split] returns is a piece of the string, not empty and
    without white space. *)
Lemma split_from_tokens (whole : string) (skip : nat) (cur s : string) :
  skip = 0%nat \/ cur = EmptyString ->
  clear cur s ->
  (exists before, whole = before ++ cur ++ s)%string ->
  Forall (fun w => w <> EmptyString /\ has_space w = false
                   /\ exists before after, (whole = before ++ w ++ after)%string)
    (split_from skip cur s).
Proof.
  revert skip cur; induction s as [| c s IH]; intros skip cur Hk Hc (before & E);
    cbn [split_from].
  - destruct (String.eqb_spec cur EmptyString); constructor; [| constructor].
    split; [assumption |]. split; [now apply (clear_has_space _ EmptyString) |].
    now exists before, EmptyString.
  - destruct skip as [| skip].
    + destruct (space_width (String c s)) as [| width] eqn:W.
      * apply IH; [now left | now apply clear_snoc |].
        exists before. rewrite E. now rewrite append_assoc_string.
      * assert (R : Forall (fun w => w <> EmptyString /\ has_space w = false
                            /\ exists before after,
                                 (whole = before ++ w ++ after)%string)
                      (split_from width EmptyString s)).
        { apply IH; [now right | exact I |].
          exists (before ++ cur ++ String c EmptyString)%string.
          rewrite E, !append_assoc_string. reflexivity. }
        destruct (String.eqb_spec cur EmptyString); [exact R |].
        constructor; [| exact R].
        split; [assumption |].
        split; [now apply (clear_has_space _ (String c s)) |].
        now exists before, (String c s).
    + destruct Hk as [Hk | ->]; [discriminate |].
      apply IH; [now right | exact I |].
      exists (before ++ String c EmptyString)%string.
      rewrite E, !append_assoc_string. reflexivity.
Qed.

(** X1. Each token of a query is a piece of the lowered query that holds
    no white space character and has at least two characters; lowering
    the query beforehand gives the same tokens. *)
Theorem preprocess_query_tokens {U : Unicode} (query : string) :
  Forall (fun w => has_space w = false /\ 2 <= str_len w
                   /\ exists before after,
                        (lower query = before ++ w ++ after)%string)
    (preprocess_query query)
  /\ preprocess_query (lower query) = preprocess_query query.
Proof.
  split; [| unfold preprocess_query; now rewrite lower_idempotent].
  unfold preprocess_query, split.
  assert (H : Forall (fun w => w <> EmptyString /\ has_space w = false
                        /\ exists before after,
                             (lower query = before ++ w ++ after)%string)
                (split_from 0 EmptyString (lower query))).
  { apply split_from_tokens; [now left | exact I | now exists EmptyString]. }
  apply Forall_forall. intros w Hw. apply filter_In in Hw as [Hw L].
  rewrite Forall_forall in H. destruct (H w Hw) as (_ & Hn & Hp).
  split; [exact Hn |]. split; [| exact Hp].
  apply Z.ltb_lt in L. lia.
Qed.

Lemma preprocess_query_tokens_witness :
  preprocess_query TestData.spaced_query = ["pantai"; "bali"]%string /\
  Forall (fun w => has_space w = false /\ 2 <= str_len w)
    (preprocess_query TestData.spaced_query).
Proof.
  split; [reflexivity |].
  destruct (preprocess_query_tokens TestData.spaced_query) as [F _].
  eapply Forall_impl; [| exact F]. intros w (A & B & _). auto.
Defined.

(** ** More on the order of binary64 values *)

Lemma ltb_key (x y : F64.float) :
  F64.is_nan x = false -> F64.is_nan y = false ->
  F64.ltb x y = true <->
  F64Order.lex_compare (F64Order.order_key x) (F64Order.order_key y) = Lt.
Proof.
  intros Hx Hy. unfold F64.ltb, SFltb. rewrite (F64Order.compare_key _ _ Hx Hy).
  destruct (F64Order.lex_compare _ _); split; congruence.
Qed.

Lemma lex_compare_Lt_le (a b c : Z * Z * Z) :
  F64Order.lex_compare a b = Lt -> F64Order.lex_compare b c <> Gt ->
  F64Order.lex_compare a c = Lt.
Proof.
  destruct a as [[a1 a2] a3], b as [[b1 b2] b3], c as [[c1 c2] c3].
  unfold F64Order.lex_compare.
  destruct (Z.compare_spec a1 b1), (Z.compare_spec b1 c1),
    (Z.compare_spec a1 c1); try lia; try discriminate; try congruence;
    destruct (Z.compare_spec a2 b2), (Z.compare_spec b2 c2),
      (Z.compare_spec a2 c2); try lia; try discriminate; try congruence;
    destruct (Z.compare_spec a3 b3), (Z.compare_spec b3 c3),
      (Z.compare_spec a3 c3); try lia; try discriminate; congruence.
Qed.

Lemma ltb_leb_trans (x y z : F64.float) :
  F64.ltb x y = true -> F64.leb y z = true -> F64.ltb x z = true.
Proof.
  intros L H. apply F64Order.leb_key in H as (Hy & Hz & H).
  assert (Hx : F64.is_nan x = false).
  { apply F64Order.ltb_leb in L. now apply F64Order.leb_not_nan in L. }
  apply ltb_key in L; trivial. apply ltb_key; trivial.
  eapply lex_compare_Lt_le; eassumption.
Qed.

Lemma eqb_key (x y : F64.float) :
  F64.eqb x y = true <->
  F64.is_nan x = false /\ F64.is_nan y = false /\
  F64Order.lex_compare (F64Order.order_key x) (F64Order.order_key y) = Eq.
Proof.
  unfold F64.eqb, SFeqb. split.
  - intros H.
    assert (N : F64.is_nan x = false /\ F64.is_nan y = false).
    { destruct x, y; cbn in *; try discriminate; auto. }
    destruct N as [Hx Hy]. rewrite (F64Order.compare_key _ _ Hx Hy) in H.
    repeat split; trivial.
    destruct (F64Order.lex_compare _ _); congruence.
  - intros (Hx & Hy & E). now rewrite (F64Order.compare_key _ _ Hx Hy), E.
Qed.

Lemma lex_compare_Eq (a b : Z * Z * Z) : F64Order.lex_compare a b = Eq -> a = b.
Proof.
  destruct a as [[a1 a2] a3], b as [[b1 b2] b3]. unfold F64Order.lex_compare.
  destruct (Z.compare_spec a1 b1), (Z.compare_spec a2 b2),
    (Z.compare_spec a3 b3); try discriminate; intros _; congruence.
Qed.

(** Two values equal to a third are not ordered by [<]. *)
Lemma eqb_not_ltb (x y s : F64.float) :
  F64.eqb x s = true -> F64.eqb y s = true -> F64.ltb x y = false.
Proof.
  intros Ex Ey. apply eqb_key in Ex as (Hx & _ & Ex), Ey as (Hy & _ & Ey).
  apply lex_compare_Eq in Ex, Ey.
  apply Bool.not_true_is_false. intros L. apply ltb_key in L; trivial.
  rewrite Ex, Ey in L. destruct (F64Order.order_key s) as [[a b] c].
  unfold F64Order.lex_compare in L. rewrite !Z.compare_refl in L. discriminate.
Qed.

(** ** The sort is stable and commutes with filters *)

Section SortStable.
Context {A : Type}.
Variable key : A -> F64.float.
Variable p : A -> bool.

Lemma insert_by_key_filter (x : A) (l : list A) :
  no_nan key x -> Forall (no_nan key) l -> StronglySorted (key_le key) l ->
  filter p (insert_by_key key x l)
  = if p x then insert_by_key key x (filter p l) else filter p l.
Proof.
  intros Hx Hl Hs. induction Hs as [| y l Hs IH Hy]; cbn.
  - destruct (p x); reflexivity.
  - inversion Hl as [| ? ? Hny Hnl]; subst.
    destruct (F64.ltb (key x) (key y)) eqn:E; cbn.
    + destruct (p x) eqn:Px; [| reflexivity].
      destruct (p y) eqn:Py; cbn; [now rewrite E |].
      destruct (filter p l) as [| z l'] eqn:F; [reflexivity |].
      cbn. assert (Hz : In z l).
      { assert (In z (filter p l)) by (rewrite F; now left).
        now apply filter_In in H as [H _]. }
      rewrite Forall_forall in Hy.
      now rewrite (ltb_leb_trans _ _ _ E (Hy z Hz)).
    + rewrite (IH Hnl).
      destruct (p y) eqn:Py, (p x) eqn:Px; cbn; try reflexivity.
      now rewrite E.
Qed.

Lemma sort_ascending_filter_from (l acc : list A) :
  Forall (no_nan key) l -> Forall (no_nan key) acc ->
  StronglySorted (key_le key) acc ->
  filter p (fold_left (fun sorted x => insert_by_key key x sorted) l acc)
  = fold_left (fun sorted x => insert_by_key key x sorted) (filter p l)
      (filter p acc).
Proof.
  revert acc; induction l as [| x l IH]; intros acc Hl Hacc Hs; cbn;
    [reflexivity |].
  inversion Hl as [| ? ? Hx Hl']; subst.
  rewrite IH; trivial.
  - rewrite insert_by_key_filter by trivial.
    destruct (p x); reflexivity.
  - rewrite <- insert_by_key_perm. now constructor.
  - now apply insert_by_key_sorted.
Qed.

Lemma filter_rev_eq (l : list A) : filter p (rev l) = rev (filter p l).
Proof.
  induction l as [| x l IH]; cbn; [reflexivity |].
  rewrite filter_app, IH. cbn. destruct (p x); cbn; [reflexivity |].
  now rewrite app_nil_r.
Qed.

(** Filtering the sorted list is sorting the filtered list. *)
Lemma sort_reverse_filter (l : list A) :
  Forall (no_nan key) l ->
  filter p (sort_reverse key l) = sort_reverse key (filter p l).
Proof.
  intros Hl. unfold sort_reverse, sort_ascending.
  rewrite filter_rev_eq, sort_ascending_filter_from;
    [| now apply Forall_rev | constructor | constructor].
  now rewrite filter_rev_eq.
Qed.
End SortStable.

Section SortTies.
Context {A : Type}.
Variable key : A -> F64.float.

Lemma insert_by_key_last (x : A) (l : list A) :
  Forall (fun y => F64.ltb (key x) (key y) = false) l ->
  insert_by_key key x l = l ++ [x].
Proof.
  induction 1 as [| y l Hy _ IH]; cbn; [reflexivity |].
  now rewrite Hy, IH.
Qed.

(** A list whose keys are all equal to one value is left as it is. *)
Lemma sort_reverse_ties (s : F64.float) (l : list A) :
  Forall (fun a => F64.eqb (key a) s = true) l -> sort_reverse key l = l.
Proof.
  intros H. unfold sort_reverse, sort_ascending.
  assert (G : forall l acc,
            Forall (fun a => F64.eqb (key a) s = true) l ->
            Forall (fun a => F64.eqb (key a) s = true) acc ->
            fold_left (fun sorted x => insert_by_key key x sorted) l acc
            = acc ++ l).
  { clear. induction l as [| x l IH]; intros acc Hl Hacc; cbn.
    - now rewrite app_nil_r.
    - inversion Hl; subst. rewrite IH; trivial.
      + rewrite insert_by_key_last, <- app_assoc; [reflexivity |].
        eapply Forall_impl; [| exact Hacc]. intros y Hy. cbn beta.
        eapply eqb_not_ltb; eassumption.
      + rewrite <- insert_by_key_perm. now constructor. }
  rewrite G; [| now apply Forall_rev | constructor].
  cbn. apply rev_involutive.
Qed.
End SortTies.

(** ** More on the search pipeline *)

Lemma for_each_ext {A S : Type} (f g : S -> A -> result S) (l : list A) (s : S) :
  (forall s a, In a l -> f s a = g s a) -> for_each f l s = for_each g l s.
Proof.
  revert s; induction l as [| a l IH]; intros s H; cbn; [reflexivity |].
  rewrite (H s a) by now left.
  destruct (g s a) as [s' | e]; cbn; [| reflexivity].
  apply IH. intros; apply H; now right.
Qed.

Lemma emitted_no_nan {U : Unicode}
  (self : SimilarityCalculator) (query_words : list string)
  (algorithm : string) (target_category : option string)
  (min_similarity : F64.float) (bm25_scores : dict Z F64.float)
  (index : dict Z freq_map) :
  Forall (no_nan similarity)
    (flat_map
       (emitted self query_words algorithm target_category min_similarity
          bm25_scores) index).
Proof.
  apply Forall_forall. intros r Hr.
  apply in_flat_map in Hr as (item & _ & Hr).
  apply in_emitted in Hr as (_ & _ & Hg & _).
  unfold no_nan. unfold F64.geb in Hg.
  now destruct (F64Order.leb_not_nan _ _ Hg).
Qed.

(** C7. A selector other than jaccard, cosine and bm25 raises nothing:
    on a query with tokens the scorer chain gives every document the
    similarity 0.0, and [search] returns, in the order of the index, one
    result of similarity 0.0 for each document that passes the category
    test when 0.0 reaches the threshold, and no result when it does
    not. *)
Theorem search_unknown_algorithm {U : Unicode} (self : SimilarityCalculator)
  (query algorithm : string) (target_category : option string)
  (min_similarity : F64.float) :
  algorithm <> "jaccard"%string -> algorithm <> "cosine"%string ->
  algorithm <> "bm25"%string ->
  preprocess_query query <> [] ->
  (forall bm25_scores doc_id table,
     score algorithm (preprocess_query query) bm25_scores doc_id table
       = Ok F64.zero) /\
  exists rs,
    search self query algorithm target_category min_similarity = Ok rs /\
    Forall (fun r => similarity r = F64.zero) rs /\
    rs = if F64.geb F64.zero min_similarity
         then map (fun doc_id => make_result doc_id (metadata self doc_id) F64.zero)
                (keys (filter
                         (fun item =>
                            category_matches (metadata self (fst item))
                              target_category)
                         (inverted_index self)))
         else [].
Proof.
  intros Hj Hc Hb Q.
  apply String.eqb_neq in Hj, Hc, Hb.
  assert (S : forall qw bm25_scores doc_id table,
             score algorithm qw bm25_scores doc_id table = Ok F64.zero).
  { intros. unfold score. now rewrite Hj, Hc, Hb. }
  split; [intros; apply S |].
  set (shown := fun index : dict Z freq_map =>
         if F64.geb F64.zero min_similarity
         then map (fun doc_id => make_result doc_id (metadata self doc_id) F64.zero)
                (keys (filter
                         (fun item =>
                            category_matches (metadata self (fst item))
                              target_category)
                         index))
         else []).
  assert (L : forall index acc,
             for_each
               (search_step self (preprocess_query query) algorithm
                  target_category min_similarity []) index acc
             = Ok (acc ++ shown index)).
  { unfold shown.
    induction index as [| [doc_id table] index IH]; intros acc; cbn [for_each].
    - cbn. destruct (F64.geb F64.zero min_similarity); now rewrite app_nil_r.
    - unfold search_step at 1. fold (metadata self doc_id).
      cbn [filter fst].
      destruct (category_matches (metadata self doc_id) target_category);
        cbn [negb bind]; [| apply IH].
      rewrite S. cbn [bind].
      destruct (F64.geb F64.zero min_similarity); cbn [bind]; rewrite IH;
        [| reflexivity].
      cbn [keys map fst]. now rewrite <- app_assoc. }
  assert (Z0 : Forall (fun r => similarity r = F64.zero) (shown (inverted_index self))).
  { unfold shown. destruct (F64.geb F64.zero min_similarity); [| constructor].
    apply Forall_forall. intros r Hr. apply in_map_iff in Hr as (d & <- & _).
    reflexivity. }
  exists (shown (inverted_index self)).
  split; [| split; [exact Z0 | reflexivity]].
  unfold search. destruct (preprocess_query query); [congruence |].
  rewrite Hb. cbn [bind]. rewrite L. cbn [bind app]. f_equal.
  apply (sort_reverse_ties similarity F64.zero).
  eapply Forall_impl; [| exact Z0]. intros r ->. reflexivity.
Qed.

Lemma search_unknown_algorithm_witness :
  exists rs,
    search TestData.calculator "pantai bali"%string "tfidf"%string
      (Some "wisata"%string) F64.zero = Ok rs /\
    Forall (fun r => similarity r = F64.zero) rs /\
    map content_id rs = [1; 2; 4].
Proof.
  destruct (search_unknown_algorithm TestData.calculator "pantai bali"%string
              "tfidf"%string (Some "wisata"%string) F64.zero)
    as (_ & rs & H & F & E); try discriminate.
  exists rs. split; [exact H |]. split; [exact F |].
  rewrite E. reflexivity.
Defined.

Lemma category_matches_case {U : Unicode} (data : doc_data) (c1 c2 : string) :
  lower c1 = lower c2 ->
  category_matches data (Some c1) = category_matches data (Some c2).
Proof.
  intros H. unfold category_matches, truthy.
  assert (E : String.eqb c1 EmptyString = String.eqb c2 EmptyString).
  { destruct (String.eqb_spec c1 EmptyString) as [-> | N1],
      (String.eqb_spec c2 EmptyString) as [-> | N2]; trivial.
    - rewrite lower_nil in H. symmetry in H. now apply lower_not_empty in H.
    - rewrite lower_nil in H. now apply lower_not_empty in H. }
  now rewrite E, H.
Qed.

(** X2. The category filter is compared up to case on both sides: two
    filters that differ only in case select the same results. *)
Theorem search_category_case_insensitive {U : Unicode}
  (self : SimilarityCalculator)
  (query algorithm : string) (c1 c2 : string) (min_similarity : F64.float) :
  lower c1 = lower c2 ->
  search self query algorithm (Some c1) min_similarity
  = search self query algorithm (Some c2) min_similarity.
Proof.
  intros H. unfold search.
  destruct (preprocess_query query) as [| w ws]; [reflexivity |].
  destruct (if String.eqb algorithm "bm25" then _ else _) as [bm25 | e];
    cbn; [| reflexivity].
  erewrite for_each_ext; [reflexivity |].
  intros results [doc_id table] _. unfold search_step.
  now rewrite (category_matches_case _ c1 c2 H).
Qed.

Lemma search_category_case_insensitive_witness :
  lower "WISATA" = lower "wisata" /\
  search TestData.calculator "pantai bali" "cosine" (Some "WISATA"%string) F64.zero
  = search TestData.calculator "pantai bali" "cosine" (Some "wisata"%string) F64.zero.
Proof.
  split; [reflexivity |].
  apply (search_category_case_insensitive TestData.calculator). reflexivity.
Defined.

(** X3. Each result reports the document it stands for: its identifier is a
    key of the index, its similarity is the value the selected scorer
    gives for the table of that entry, and its other fields are read
    from the metadata stored under the identifier, with the defaults of
    [search] for what is missing. *)
Theorem search_result_of_document {U : Unicode} (self : SimilarityCalculator)
  (query algorithm : string) (target_category : option string)
  (min_similarity : F64.float) (rs : list ScoredResult) :
  search self query algorithm target_category min_similarity = Ok rs ->
  Forall
    (fun r =>
       r = make_result (content_id r) (metadata self (content_id r)) (similarity r)
       /\ exists table,
            In (content_id r, table) (inverted_index self) /\
            (algorithm = "jaccard"%string ->
             calculate_jaccard (preprocess_query query) table
             = Ok (similarity r)) /\
            (algorithm = "cosine"%string ->
             calculate_cosine (preprocess_query query) table
             = Ok (similarity r)) /\
            (algorithm = "bm25"%string ->
             exists bm25_scores,
               calculate_bm25 self (preprocess_query query) = Ok bm25_scores /\
               similarity r
               = dict_get_default Z.eqb (content_id r) F64.zero bm25_scores))
    rs.
Proof.
  intros H.
  destruct (preprocess_query query) as [| w ws] eqn:Q.
  - unfold search in H. rewrite Q in H. injection H as <-. constructor.
  - assert (Q' : preprocess_query query <> []) by (rewrite Q; discriminate).
    destruct (search_returns _ _ _ _ _ _ Q' H) as (bm25 & Hb & _ & ->).
    rewrite Q in *.
    apply Forall_forall. intros r Hr.
    apply (Permutation_in _ (Permutation_sym (sort_reverse_perm similarity _)))
      in Hr.
    apply in_flat_map in Hr as ([doc_id table] & Hin & Hr).
    apply in_emitted in Hr as (_ & Hs & _ & Er). cbn [fst snd] in Hs, Er.
    assert (Ei : content_id r = doc_id) by (rewrite Er; reflexivity).
    rewrite Ei. split; [exact Er |].
    exists table. split; [exact Hin |].
    unfold score in Hs.
    split; [| split].
    + intros ->. exact Hs.
    + intros ->. exact Hs.
    + intros ->. cbn in Hs, Hb. exists bm25. split; [exact Hb |].
      now injection Hs as <-.
Qed.

Lemma search_result_of_document_witness :
  exists rs,
    search TestData.calculator "pantai bali" "jaccard" None F64.zero = Ok rs /\
    rs <> [] /\
    Forall
      (fun r =>
         exists table,
           In (content_id r, table) (inverted_index TestData.calculator) /\
           calculate_jaccard (preprocess_query "pantai bali") table
           = Ok (similarity r))
      rs.
Proof.
  assert (H : exists rs,
             search TestData.calculator "pantai bali" "jaccard" None F64.zero
             = Ok rs /\ rs <> []).
  { eexists. split; [vm_compute; reflexivity | discriminate]. }
  destruct H as (rs & H & N). exists rs. split; [exact H |]. split; [exact N |].
  pose proof (search_result_of_document TestData.calculator "pantai bali"
                "jaccard" None F64.zero rs H) as F.
  eapply Forall_impl; [| exact F].
  intros r (_ & table & Hin & Hj & _). exists table. split; [exact Hin |].
  now apply Hj.
Defined.

(** X4. A document without metadata is dropped by every non-empty category
    filter; without a filter it is reported under the placeholders. *)
Theorem search_missing_metadata {U : Unicode} (self : SimilarityCalculator)
  (query algorithm : string) (target_category : option string)
  (min_similarity : F64.float) (rs : list ScoredResult) :
  search self query algorithm target_category min_similarity = Ok rs ->
  Forall
    (fun r =>
       dict_get Z.eqb (content_id r) (combined_data self) = None ->
       truthy target_category = false /\
       title r = "Unknown Title"%string /\
       category r = "Unknown Category"%string /\
       date r = "Unknown Date"%string /\
       image_url r = EmptyString /\ url r = EmptyString /\
       content r = EmptyString)
    rs.
Proof.
  intros H.
  destruct (preprocess_query query) as [| w ws] eqn:Q.
  - unfold search in H. rewrite Q in H. injection H as <-. constructor.
  - assert (Q' : preprocess_query query <> []) by (rewrite Q; discriminate).
    destruct (search_returns _ _ _ _ _ _ Q' H) as (bm25 & _ & _ & ->).
    apply Forall_forall. intros r Hr.
    apply (Permutation_in _ (Permutation_sym (sort_reverse_perm similarity _)))
      in Hr.
    apply in_flat_map in Hr as ([doc_id table] & Hin & Hr).
    apply in_emitted in Hr as (Hc & _ & _ & Er). cbn [fst snd] in Hc, Er.
    assert (Ei : content_id r = doc_id) by (rewrite Er; reflexivity).
    rewrite Ei. intros Hm.
    assert (M : metadata self doc_id = []).
    { unfold metadata, dict_get_default.
      match goal with
      | |- match ?t with _ => _ end = _ =>
          change t with (dict_get Z.eqb doc_id (combined_data self))
      end.
      now rewrite Hm. }
    rewrite M in Hc, Er. split.
    + unfold category_matches in Hc.
      destruct (truthy target_category) eqn:T; [| reflexivity].
      destruct target_category as [c |]; [| discriminate].
      cbn [truthy] in T. cbn in Hc.
      apply String.eqb_eq in Hc. rewrite lower_nil in Hc.
      symmetry in Hc. apply lower_not_empty in Hc. subst c. discriminate T.
    + rewrite Er. cbn. repeat split.
Qed.

Lemma search_missing_metadata_witness :
  let calculator := init TestData.sample_model TestData.index [] in
  exists rs,
    search calculator "pantai bali" "jaccard" None F64.zero = Ok rs /\
    rs <> [] /\
    Forall (fun r => title r = "Unknown Title"%string /\ url r = EmptyString) rs.
Proof.
  intros calculator.
  assert (H : exists rs,
             search calculator "pantai bali" "jaccard" None F64.zero = Ok rs
             /\ rs <> []).
  { eexists. split; [vm_compute; reflexivity | discriminate]. }
  destruct H as (rs & H & N). exists rs. split; [exact H |]. split; [exact N |].
  pose proof (search_missing_metadata calculator "pantai bali" "jaccard" None
                F64.zero rs H) as F.
  eapply Forall_impl; [| exact F].
  intros r G. destruct (G eq_refl) as (_ & T & _ & _ & _ & U & _). auto.
Defined.

(** ** Ties and thresholds *)

Lemma filter_split {A : Type} (p : A -> bool) (l a b : list A) (x : A) :
  filter p l = a ++ x :: b ->
  exists a' b', l = a' ++ x :: b' /\ filter p a' = a /\ filter p b' = b.
Proof.
  revert a; induction l as [| y l IH]; intros a; cbn.
  - destruct a; discriminate.
  - destruct (p y) eqn:P.
    + destruct a as [| z a]; cbn.
      * intros [= <- E]. exists [], l. cbn. auto.
      * intros [= <- E]. destruct (IH _ E) as (a' & b' & -> & <- & <-).
        exists (y :: a'), b'. cbn. now rewrite P.
    + intros E. destruct (IH _ E) as (a' & b' & -> & <- & <-).
      exists (y :: a'), b'. cbn. now rewrite P.
Qed.

Lemma map_split {A B : Type} (f : A -> B) (l : list A) (a b : list A) (x : A) :
  l = a ++ x :: b -> map f l = map f a ++ f x :: map f b.
Proof. intros ->. now rewrite map_app. Qed.

(** X5. Results of equal similarity come in the order of the index: the sort
    is stable, also under [reverse=True]. *)
Theorem search_ties_keep_index_order {U : Unicode} (self : SimilarityCalculator)
  (query algorithm : string) (target_category : option string)
  (min_similarity : F64.float) (rs l1 l2 l3 : list ScoredResult)
  (r1 r2 : ScoredResult) :
  search self query algorithm target_category min_similarity = Ok rs ->
  rs = l1 ++ r1 :: l2 ++ r2 :: l3 ->
  F64.eqb (similarity r1) (similarity r2) = true ->
  exists k1 k2 k3,
    keys (inverted_index self)
    = k1 ++ content_id r1 :: k2 ++ content_id r2 :: k3.
Proof.
  intros H Hrs Heq.
  destruct (preprocess_query query) as [| w ws] eqn:Q.
  { unfold search in H. rewrite Q in H. injection H as <-.
    destruct l1; discriminate. }
  assert (Q' : preprocess_query query <> []) by (rewrite Q; discriminate).
  destruct (search_returns _ _ _ _ _ _ Q' H) as (bm25 & _ & _ & E).
  set (em := flat_map _ _) in E.
  set (tie := fun r => F64.eqb (similarity r) (similarity r2)).
  assert (N2 : F64.eqb (similarity r2) (similarity r2) = true).
  { apply eqb_key in Heq as (_ & N & _). apply eqb_key. repeat split; trivial.
    destruct (F64Order.order_key (similarity r2)) as [[a b] c].
    unfold F64Order.lex_compare. now rewrite !Z.compare_refl. }
  assert (F : filter tie rs = filter tie em).
  { rewrite E, (sort_reverse_filter similarity tie) by apply emitted_no_nan.
    apply (sort_reverse_ties similarity (similarity r2)).
    apply Forall_forall. intros r Hr. now apply filter_In in Hr as [_ Hr]. }
  rewrite Hrs in F. rewrite filter_app in F. cbn [filter] in F.
  unfold tie at 2 in F. rewrite Heq in F.
  rewrite filter_app in F. cbn [filter] in F.
  unfold tie at 3 in F. rewrite N2 in F.
  symmetry in F.
  destruct (filter_split _ _ _ _ _ F) as (a' & b' & Eem & _ & Fb).
  destruct (filter_split _ _ _ _ _ Fb) as (a'' & b'' & Eb & _ & _).
  subst b'.
  assert (M : map content_id em
              = map content_id a' ++ content_id r1
                :: map content_id a'' ++ content_id r2 :: map content_id b'').
  { rewrite Eem, map_app. cbn [map]. now rewrite map_app. }
  unfold em in M. rewrite emitted_ids in M.
  unfold keys in M |- *.
  set (pass := passes _ _ _ _ _ _) in M.
  clear - M.
  assert (G : forall (index : dict Z freq_map) (a b : list Z) (x : Z),
            map fst (filter pass index) = a ++ x :: b ->
            exists ia ib, map fst index = ia ++ x :: ib /\
                          exists ib', ib = map fst ib'
                                      /\ map fst (filter pass ib') = b).
  { clear. induction index as [| [k v] index IH]; intros a b x; cbn.
    - destruct a; discriminate.
    - destruct (pass (k, v)); cbn.
      + destruct a as [| z a]; cbn.
        * intros [= <- E]. exists [], (map fst index). split; [reflexivity |].
          exists index. auto.
        * intros [= <- E]. destruct (IH _ _ _ E) as (ia & ib & -> & R).
          exists (k :: ia), ib. auto.
      + intros E. destruct (IH _ _ _ E) as (ia & ib & -> & R).
        exists (k :: ia), ib. auto. }
  destruct (G _ _ _ _ M) as (ia & ib & E1 & ib' & -> & E2).
  destruct (G _ _ _ _ E2) as (ja & jb & E3 & _).
  exists ia, ja, jb. now rewrite E1, E3.
Qed.

Lemma search_ties_keep_index_order_witness :
  exists rs r1 r2 l3,
    search TestData.calculator "pantai bali" "tfidf" None F64.zero = Ok rs /\
    rs = [] ++ r1 :: [] ++ r2 :: l3 /\
    F64.eqb (similarity r1) (similarity r2) = true /\
    content_id r1 = 1 /\ content_id r2 = 2 /\
    exists k1 k2 k3,
      keys (inverted_index TestData.calculator) = k1 ++ 1 :: k2 ++ 2 :: k3.
Proof.
  assert (H : exists rs r1 r2 l3,
             search TestData.calculator "pantai bali" "tfidf" None F64.zero
             = Ok rs /\ rs = [] ++ r1 :: [] ++ r2 :: l3 /\
             F64.eqb (similarity r1) (similarity r2) = true /\
             content_id r1 = 1 /\ content_id r2 = 2).
  { do 4 eexists. split; [vm_compute; reflexivity |].
    split; [reflexivity |]. repeat split. }
  destruct H as (rs & r1 & r2 & l3 & H & E & T & I1 & I2).
  exists rs, r1, r2, l3. repeat (split; [assumption |]).
  rewrite <- I1, <- I2.
  exact (search_ties_keep_index_order TestData.calculator "pantai bali" "tfidf"
           None F64.zero rs [] [] l3 r1 r2 H E T).
Defined.

Section Threshold.
Context {U : Unicode}.
Variable self : SimilarityCalculator.
Variable query_words : list string.
Variable algorithm : string.
Variable target_category : option string.
Variable t1 t2 : F64.float.
Variable bm25_scores : dict Z F64.float.
Hypothesis Ht : F64.leb t1 t2 = true.

Lemma geb_threshold (sim : F64.float) :
  F64.geb sim t2 = true -> F64.geb sim t1 = true.
Proof. unfold F64.geb. intros H. eapply F64Order.leb_trans; eassumption. Qed.

(** Raising the threshold from [t1] to [t2] keeps, of what the loop
    emitted, the results that reach [t2]. *)
Lemma search_loop_threshold (index : dict Z freq_map) (acc rs : list ScoredResult) :
  for_each
    (search_step self query_words algorithm target_category t1 bm25_scores)
    index acc = Ok rs ->
  forall acc',
    for_each
      (search_step self query_words algorithm target_category t2 bm25_scores)
      index acc'
    = Ok (acc' ++ filter (fun r => F64.geb (similarity r) t2)
                    (flat_map
                       (emitted self query_words algorithm target_category t1
                          bm25_scores) index)).
Proof.
  revert acc; induction index as [| [doc_id table] index IH]; intros acc; cbn.
  - intros _ acc'. now rewrite app_nil_r.
  - fold (metadata self doc_id).
    destruct (category_matches (metadata self doc_id) target_category); cbn.
    + destruct (score algorithm query_words bm25_scores doc_id table)
        as [sim | e]; cbn; [| discriminate].
      intros H acc'. rewrite filter_app.
      destruct (F64.geb sim t2) eqn:G2.
      * rewrite (geb_threshold sim G2) in H |- *. cbn. rewrite G2.
        rewrite (IH _ H). cbn. now rewrite <- app_assoc.
      * destruct (F64.geb sim t1); cbn; [rewrite G2 |]; cbn;
          now rewrite (IH _ H).
    + intros H acc'. now rewrite (IH _ H).
Qed.
End Threshold.

(** X6. Raising the threshold only removes results: with a threshold [t2]
    above [t1], [search] returns the results of the search at [t1] whose
    similarity reaches [t2], in the same order. *)
Theorem search_threshold_monotone {U : Unicode} (self : SimilarityCalculator)
  (query algorithm : string) (target_category : option string)
  (t1 t2 : F64.float) (rs : list ScoredResult) :
  F64.leb t1 t2 = true ->
  search self query algorithm target_category t1 = Ok rs ->
  search self query algorithm target_category t2
  = Ok (filter (fun r => F64.geb (similarity r) t2) rs).
Proof.
  intros Ht H.
  destruct (preprocess_query query) as [| w ws] eqn:Q.
  { unfold search in H |- *. rewrite Q in *. now injection H as <-. }
  assert (Q' : preprocess_query query <> []) by (rewrite Q; discriminate).
  destruct (search_returns _ _ _ _ _ _ Q' H) as (bm25 & Hb & HL & ->).
  unfold search. rewrite Q in *. rewrite Hb. cbn [bind].
  rewrite (search_loop_threshold self (w :: ws) algorithm target_category
             t1 t2 bm25 Ht _ _ _ HL []).
  cbn [bind app]. f_equal.
  symmetry. apply sort_reverse_filter. apply emitted_no_nan.
Qed.

Lemma search_threshold_monotone_witness :
  exists rs,
    F64.leb F64.zero TestData.half = true /\
    search TestData.calculator "pantai bali" "cosine" None F64.zero = Ok rs /\
    search TestData.calculator "pantai bali" "cosine" None TestData.half
    = Ok (filter (fun r => F64.geb (similarity r) TestData.half) rs) /\
    (List.length (filter (fun r => F64.geb (similarity r) TestData.half) rs)
     < List.length rs)%nat.
Proof.
  assert (H : exists rs,
             search TestData.calculator "pantai bali" "cosine" None F64.zero
             = Ok rs /\
             (List.length (filter (fun r => F64.geb (similarity r) TestData.half) rs)
              < List.length rs)%nat).
  { eexists. split; [vm_compute; reflexivity |]. vm_compute. lia. }
  destruct H as (rs & H & L). exists rs.
  split; [reflexivity |]. split; [exact H |]. split; [| exact L].
  exact (search_threshold_monotone TestData.calculator "pantai bali" "cosine"
           None F64.zero TestData.half rs eq_refl H).
Defined.

(** ** The dot product and the two magnitudes *)

Lemma sum_squares_nonneg (l : list Z) : 0 <= sum_squares l.
Proof.
  induction l as [| x l IH]; [cbn; lia |].
  rewrite sum_squares_cons, Z.pow_2_r. pose proof (Z.square_nonneg x). lia.
Qed.

Lemma dot_product_of_cons (w : string) (qf : Z) (c doc : freq_map) :
  dot_product_of ((w, qf) :: c) doc
  = match dict_get String.eqb w doc with
    | Some df => qf * df
    | None => 0
    end + dot_product_of c doc.
Proof.
  unfold dot_product_of. cbn [fold_left].
  set (f := fun dot_product '(word, qf0) => _).
  assert (G : forall l z, fold_left f l z = z + fold_left f l 0).
  { induction l as [| [w' n] l IH]; intros z; cbn [fold_left]; [lia |].
    rewrite (IH (f z (w', n))), (IH (f 0 (w', n))). unfold f.
    destruct (dict_get String.eqb w' doc); lia. }
  rewrite G. destruct (dict_get String.eqb w doc); lia.
Qed.

(** [doc] without the entries of the term [w]. *)
Definition without (w : string) (doc : freq_map) : freq_map :=
  filter (fun '(k, _) => negb (String.eqb k w)) doc.

Lemma dict_get_without (w w' : string) (doc : freq_map) :
  w' <> w ->
  dict_get String.eqb w' (without w doc) = dict_get String.eqb w' doc.
Proof.
  intros Hne. unfold without.
  induction doc as [| [k n] doc IH]; cbn; [reflexivity |].
  destruct (String.eqb_spec k w) as [-> | Hk]; cbn.
  - destruct (String.eqb_spec w w'); [congruence | exact IH].
  - now rewrite IH.
Qed.

Lemma dot_product_of_without (w : string) (c doc : freq_map) :
  ~ In w (keys c) ->
  dot_product_of c (without w doc) = dot_product_of c doc.
Proof.
  induction c as [| [w' n] c IH]; intros H; [reflexivity |].
  rewrite !dot_product_of_cons.
  cbn in H. rewrite dict_get_without by (intros ->; tauto).
  rewrite IH by tauto. reflexivity.
Qed.

Lemma sum_squares_without (w : string) (doc : freq_map) :
  sum_squares (values (without w doc)) <= sum_squares (values doc) /\
  forall df, dict_get String.eqb w doc = Some df ->
    df ^ 2 + sum_squares (values (without w doc)) <= sum_squares (values doc).
Proof.
  induction doc as [| [k n] doc [IH1 IH2]]; cbn [without filter values map snd].
  - split; [lia | discriminate].
  - fold (without w doc). cbn [dict_get].
    destruct (String.eqb k w); cbn [negb values map snd].
    + fold (values doc). fold (values (without w doc)).
      rewrite sum_squares_cons, Z.pow_2_r.
      pose proof (Z.square_nonneg n). split; [lia |].
      intros df [= <-]. rewrite Z.pow_2_r. lia.
    + fold (values doc). fold (values (without w doc)).
      rewrite !sum_squares_cons. split; [lia |].
      intros df H. specialize (IH2 df H). lia.
Qed.

Lemma cauchy_step (s a b x y : Z) :
  0 <= a -> 0 <= b -> s * s <= a * b ->
  (x * y + s) * (x * y + s) <= (x * x + a) * (y * y + b).
Proof.
  intros Ha Hb Hs.
  pose proof (Z.square_nonneg x) as Px. pose proof (Z.square_nonneg y) as Py.
  set (p := x * x * b + y * y * a).
  set (q := 2 * (x * y * s)).
  assert (P0 : 0 <= p) by (subst p; nia).
  assert (Q2 : q * q <= p * p).
  { assert (E : q * q = 4 * ((x * x) * (y * y)) * (s * s)) by (subst q; ring).
    assert (F : p * p
                = (x * x * b - y * y * a) * (x * x * b - y * y * a)
                  + 4 * ((x * x) * (y * y)) * (a * b)) by (subst p; ring).
    assert (G : 4 * ((x * x) * (y * y)) * (s * s)
                <= 4 * ((x * x) * (y * y)) * (a * b)).
    { apply Z.mul_le_mono_nonneg_l; [| exact Hs].
      apply Z.mul_nonneg_nonneg; [lia |]. now apply Z.mul_nonneg_nonneg. }
    pose proof (Z.square_nonneg (x * x * b - y * y * a)). lia. }
  assert (K : q <= p) by nia.
  replace ((x * y + s) * (x * y + s)) with (x * x * (y * y) + q + s * s)
    by (subst q; ring).
  replace ((x * x + a) * (y * y + b)) with (x * x * (y * y) + p + a * b)
    by (subst p; ring).
  lia.
Qed.

(** The inequality of Cauchy and Schwarz for [calculate_cosine]: the
    square of the dot product is at most the product of the two sums of
    squares. *)
Lemma dot_product_of_bound (c doc : freq_map) :
  NoDup (keys c) ->
  dot_product_of c doc * dot_product_of c doc
  <= sum_squares (values c) * sum_squares (values doc).
Proof.
  revert doc. induction c as [| [w qf] c IH]; intros doc N.
  - cbn. pose proof (sum_squares_nonneg (values doc)). lia.
  - inversion N as [| ? ? Hw N']; subst.
    rewrite dot_product_of_cons. cbn [values map snd]. fold (values c).
    rewrite sum_squares_cons, Z.pow_2_r.
    rewrite <- (dot_product_of_without w c doc Hw).
    specialize (IH (without w doc) N').
    destruct (sum_squares_without w doc) as [S1 S2].
    pose proof (sum_squares_nonneg (values c)) as Pa.
    pose proof (sum_squares_nonneg (values (without w doc))) as Pb.
    set (s := dot_product_of c (without w doc)) in *.
    set (a := sum_squares (values c)) in *.
    set (b' := sum_squares (values (without w doc))) in *.
    set (b := sum_squares (values doc)) in *.
    destruct (dict_get String.eqb w doc) as [df |].
    + specialize (S2 df eq_refl).
      pose proof (cauchy_step s a b' qf df Pa Pb IH) as C.
      rewrite Z.pow_2_r in S2.
      pose proof (Z.square_nonneg qf).
      apply Z.le_trans with ((qf * qf + a) * (df * df + b')); [lia |].
      apply Z.mul_le_mono_nonneg_l; lia.
    + pose proof (Z.square_nonneg qf).
      apply Z.le_trans with (a * b'); [lia |].
      apply Z.le_trans with (a * b); [apply Z.mul_le_mono_nonneg_l; lia |].
      apply Z.mul_le_mono_nonneg_r; lia.
Qed.

Lemma dot_product_of_nonneg (c doc : freq_map) :
  Forall (fun n => 0 <= n) (values c) -> Forall (fun n => 0 <= n) (values doc) ->
  0 <= dot_product_of c doc.
Proof.
  intros Hc Hd. induction c as [| [w qf] c IH]; [cbn; lia |].
  rewrite dot_product_of_cons. inversion Hc; subst.
  specialize (IH ltac:(assumption)).
  destruct (dict_get String.eqb w doc) as [df |] eqn:G; [| lia].
  assert (0 <= df); [| nia].
  rewrite Forall_forall in Hd. apply Hd.
  clear - G. induction doc as [| [k n] doc IH]; cbn in *; [discriminate |].
  destruct (String.eqb k w); [left; congruence | right; auto].
Qed.

Lemma dot_product_of_disjoint (c doc : freq_map) :
  (forall w, In w (keys c) -> dict_get String.eqb w doc = None) ->
  dot_product_of c doc = 0.
Proof.
  induction c as [| [w qf] c IH]; intros H; [reflexivity |].
  rewrite dot_product_of_cons, (H w) by now left.
  rewrite IH; [reflexivity |]. intros; apply H; now right.
Qed.

(** ** Rounding errors *)

Module F64Error.
Import Reals Lra.
Local Open Scope R_scope.

(** [2 ^ e] for any integer [e]. *)
Definition pow2 (e : Z) : R := powerRZ 2 e.

(** The real number a finite value stands for. *)
Definition F2R (x : F64.float) : R :=
  match x with
  | S754_finite s m e => (if s then -1 else 1) * IZR (Zpos m) * pow2 e
  | _ => 0
  end.

(** The unit round-off. *)
Definition u : R := pow2 (-53).

Lemma pow2_gt0 (e : Z) : 0 < pow2 e.
Proof. apply powerRZ_lt. lra. Qed.

Lemma pow2_plus (a b : Z) : pow2 (a + b) = pow2 a * pow2 b.
Proof. apply powerRZ_add. lra. Qed.

Lemma pow2_IZR (n : Z) : (0 <= n)%Z -> pow2 n = IZR (2 ^ n).
Proof.
  intros Hn. unfold pow2.
  rewrite <- (Z2Nat.id n Hn) at 1.
  rewrite <- pow_powerRZ.
  rewrite pow_IZR. now rewrite Z2Nat.id.
Qed.

Lemma pow2_le (a b : Z) : (a <= b)%Z -> pow2 a <= pow2 b.
Proof.
  intros H. replace b with (a + (b - a))%Z by lia.
  rewrite pow2_plus, (pow2_IZR (b - a)) by lia.
  assert (1 <= IZR (2 ^ (b - a))).
  { apply IZR_le. pose proof (Z.pow_pos_nonneg 2 (b - a)). lia. }
  pose proof (pow2_gt0 a). nra.
Qed.

Lemma pow2_0 : pow2 0 = 1.
Proof. reflexivity. Qed.

Lemma pow2_opp (e : Z) : pow2 (- e) * pow2 e = 1.
Proof. rewrite <- pow2_plus. replace (- e + e)%Z with 0%Z by lia. reflexivity. Qed.

(** Where a real number lies relative to an integer and its location. *)
Definition inbetween (q : Z) (l : location) (y : R) : Prop :=
  match l with
  | loc_Exact => y = IZR q
  | loc_Inexact Lt => IZR q < y < IZR q + / 2
  | loc_Inexact Eq => y = IZR q + / 2
  | loc_Inexact Gt => IZR q + / 2 < y < IZR q + 1
  end.

Lemma round_nearest_even_half (q : Z) (l : location) (y : R) :
  inbetween q l y ->
  Rabs (IZR (round_nearest_even q l) - y) <= / 2.
Proof.
  unfold inbetween, round_nearest_even.
  destruct l as [| []]; intros H.
  - rewrite H. rewrite Rminus_diag, Rabs_R0. lra.
  - destruct (Z.even q); [| rewrite plus_IZR]; apply Rabs_le; lra.
  - apply Rabs_le; lra.
  - rewrite plus_IZR. apply Rabs_le; lra.
Qed.

Lemma shifted_record_of_loc (q : Z) (l : location) :
  shr_m (shr_record_of_loc q l) = q /\
  loc_of_shr_record (shr_record_of_loc q l) = l /\
  (shr_r (shr_record_of_loc q l) || shr_s (shr_record_of_loc q l)
   = match l with loc_Exact => false | _ => true end).
Proof. destruct l as [| []]; repeat split. Qed.

(** Shifting keeps the location of the real number. *)
Lemma inbetween_shift (q : Z) (l : location) (y : R) (n : Z) :
  (0 <= q)%Z -> (0 < n)%Z -> inbetween q l y ->
  inbetween (q / 2 ^ n)
    (loc_of_shr_record
       (shifted q (shr_r (shr_record_of_loc q l))
          (shr_s (shr_record_of_loc q l)) (Z.to_nat n)))
    (y / IZR (2 ^ n)).
Proof.
  intros Hq Hn Hy.
  destruct (shifted_record_of_loc q l) as (_ & _ & Ers).
  destruct (Z.to_nat n) as [| j] eqn:En; [lia |].
  assert (Ej : n = (Z.of_nat j + 1)%Z) by lia.
  cbn [shifted]. rewrite Ers.
  set (K := (2 ^ Z.of_nat j)%Z).
  assert (HK : (0 < K)%Z) by (apply Z.pow_pos_nonneg; lia).
  assert (E2 : (2 ^ n = 2 * K)%Z).
  { rewrite Ej, Z.pow_add_r by lia. subst K. lia. }
  replace (Z.of_nat (S j)) with n by lia.
  rewrite E2.
  pose proof (Z.div_mod q K ltac:(lia)) as DK.
  pose proof (Z.mod_pos_bound q K HK) as BK.
  pose proof (Z.div_mod (q / K) 2 ltac:(lia)) as D2.
  pose proof (Z.mod_pos_bound (q / K) 2 ltac:(lia)) as B2.
  assert (Eq2 : (q / (2 * K) = q / K / 2)%Z).
  { rewrite (Z.mul_comm 2 K). now rewrite Z.div_div by lia. }
  rewrite Eq2.
  rewrite (Zmod_odd (q / K)) in D2, B2.
  set (Q1 := (q / K / 2)%Z) in *. set (low := (q mod K)%Z) in *.
  assert (Dq : IZR q = IZR K * (2 * IZR Q1 + (if Z.odd (q / K) then 1 else 0))
                      + IZR low).
  { rewrite DK at 1. rewrite D2 at 1.
    rewrite plus_IZR, mult_IZR, plus_IZR, mult_IZR.
    destruct (Z.odd (q / K)); reflexivity. }
  assert (Rl : 0 <= IZR low <= IZR K - 1).
  { split; [apply IZR_le; lia |].
    rewrite <- minus_IZR. apply IZR_le. lia. }
  assert (RK : 1 <= IZR K) by (apply IZR_le; lia).
  rewrite mult_IZR.
  assert (Ey : y = y / (2 * IZR K) * (2 * IZR K)) by (field; lra).
  set (Y := y / (2 * IZR K)) in *.
  assert (Elow : (low =? 0)%Z = false -> 1 <= IZR low).
  { intros H. apply Z.eqb_neq in H. apply IZR_le. lia. }
  assert (Elow0 : (low =? 0)%Z = true -> IZR low = 0).
  { intros H. apply Z.eqb_eq in H. now rewrite H. }
  unfold inbetween in *.
  destruct (Z.odd (q / K)); destruct (low =? 0)%Z eqn:El;
    try specialize (Elow eq_refl); try specialize (Elow0 eq_refl);
    destruct l as [| []]; cbn [negb orb loc_of_shr_record];
    try split; nra.
Qed.

(** A positive value with a full mantissa, and a value within one unit
    round-off of a real number. *)
Definition normal_pos (x : F64.float) : Prop :=
  match x with
  | S754_finite false m e => (2 ^ 52 <= Zpos m < 2 ^ 53)%Z
  | _ => False
  end.

Definition close (x : F64.float) (v : R) : Prop :=
  normal_pos x /\ Rabs (F2R x - v) <= u * v.

Lemma u_half : u * IZR (2 ^ 52) = / 2.
Proof.
  unfold u. rewrite <- (pow2_IZR 52) by lia. rewrite <- pow2_plus.
  change (-53 + 52)%Z with (-1)%Z.
  change (pow2 (-1)) with (/ (2 * 1)). f_equal. lra.
Qed.

Lemma finish_close (m e : Z) (y : R) :
  (2 ^ 52 <= m <= 2 ^ 53)%Z -> (-1074 <= e <= 970)%Z ->
  IZR (2 ^ 52) <= y -> Rabs (IZR m - y) <= / 2 ->
  close (finish false m e) (y * pow2 e).
Proof.
  intros Hm He Hy Hh.
  assert (P : 0 < pow2 e) by apply pow2_gt0.
  assert (G : Rabs (IZR m * pow2 e - y * pow2 e) <= u * (y * pow2 e)).
  { rewrite <- Rmult_minus_distr_r, Rabs_mult, (Rabs_pos_eq (pow2 e)) by lra.
    pose proof u_half as U.
    assert (/ 2 <= u * y).
    { rewrite <- U. apply Rmult_le_compat_l; [| exact Hy].
      unfold u. pose proof (pow2_gt0 (-53)). lra. }
    nra. }
  rewrite finish_normal by lia. unfold normal_pair.
  destruct (Z.ltb_spec m (2 ^ 53)) as [L | L]; cbn [fst snd].
  - destruct (Z.leb_spec e 971); [| lia].
    split.
    + cbn [normal_pos]. rewrite Z2Pos.id by lia. lia.
    + cbn [F2R]. rewrite Z2Pos.id by lia. rewrite Rmult_1_l. exact G.
  - destruct (Z.leb_spec (e + 1) 971); [| lia].
    split.
    + cbn [normal_pos]. change (Zpos (Z.to_pos (2 ^ 52))) with (2 ^ 52)%Z. lia.
    + cbn [F2R]. change (Zpos (Z.to_pos (2 ^ 52))) with (2 ^ 52)%Z.
      rewrite Rmult_1_l.
      replace (IZR (2 ^ 52) * pow2 (e + 1)) with (IZR m * pow2 e); [exact G |].
      replace m with (2 ^ 53)%Z by lia.
      rewrite (Z.add_comm e 1), pow2_plus.
      change (2 ^ 53)%Z with (2 ^ 52 * 2)%Z. rewrite mult_IZR.
      change (pow2 1) with (2 * 1). change (IZR 2) with 2. lra.
Qed.

Lemma digits_53 (q : Z) :
  (0 < q)%Z -> Zdigits2 q = 53%Z -> (2 ^ 52 <= q < 2 ^ 53)%Z.
Proof.
  intros Hq D. pose proof (Zdigits2_bounds q Hq) as B. rewrite D in B.
  exact B.
Qed.

(** The rounding of a located real number with at least 53 digits before
    the point, in the normal range and below the overflow threshold. *)
Lemma binary_round_aux_close (q e : Z) (l : location) (y : R) :
  (0 < q)%Z -> inbetween q l y ->
  (53 <= Zdigits2 q)%Z ->
  (-1074 <= Zdigits2 q + e - 53 <= 970)%Z ->
  close (binary_round_aux F64.prec F64.emax false q e l) (y * pow2 e).
Proof.
  intros Hq Hy Hd He.
  rewrite binary_round_aux_finish, shr_fexp_nonneg by lia. cbv zeta.
  rewrite fexp_eq.
  replace (Z.max (Zdigits2 q + e - 53) (-1074) - e)%Z
    with (Zdigits2 q - 53)%Z by lia.
  set (n := (Zdigits2 q - 53)%Z).
  destruct (Z.ltb_spec 0 n) as [L | L].
  - rewrite shifted_m, Z2Nat.id by lia.
    pose proof (inbetween_shift q l y n ltac:(lia) L Hy) as Hs.
    set (loc := loc_of_shr_record _) in *.
    assert (P : (0 < 2 ^ n)%Z) by (apply Z.pow_pos_nonneg; lia).
    assert (Q1 : (0 < q / 2 ^ n)%Z).
    { apply Z.div_str_pos. split; [lia |]. apply Zdigits2_ge; lia. }
    assert (D1 : Zdigits2 (q / 2 ^ n) = 53%Z).
    { rewrite Zdigits2_div_pow2 by lia. subst n. lia. }
    destruct (digits_53 _ Q1 D1) as [B1 B2].
    destruct (round_nearest_even_bounds (q / 2 ^ n) loc) as [B _].
    pose proof (round_nearest_even_half _ _ _ Hs) as Hh.
    assert (Ev : y * pow2 e = y / IZR (2 ^ n) * pow2 (e + n)).
    { rewrite (Z.add_comm e n), pow2_plus, <- (pow2_IZR n) by lia.
      pose proof (pow2_gt0 n). field. lra. }
    rewrite Ev. apply finish_close; try lia; [| exact Hh].
    assert (IZR (q / 2 ^ n) <= y / IZR (2 ^ n)).
    { unfold inbetween in Hs. destruct loc as [| []]; lra. }
    apply IZR_le in B1. lra.
  - assert (n = 0%Z) by lia.
    destruct (shifted_record_of_loc q l) as (E1 & E2 & _).
    rewrite E1, E2.
    assert (D1 : Zdigits2 q = 53%Z) by lia.
    destruct (digits_53 _ Hq D1) as [B1 B2].
    destruct (round_nearest_even_bounds q l) as [B _].
    pose proof (round_nearest_even_half _ _ _ Hy) as Hh.
    apply finish_close; try lia; [| exact Hh].
    assert (IZR q <= y).
    { unfold inbetween in Hy. destruct l as [| []]; lra. }
    apply IZR_le in B1. lra.
Qed.

(** *** The operations *)

Lemma close_finite (x : F64.float) (v : R) :
  close x v -> exists m e, x = S754_finite false m e.
Proof.
  intros [N _]. destruct x as [| | | [] m e]; try contradiction. eauto.
Qed.

Lemma of_int_close (n : Z) (x : F64.float) :
  (0 < n < 2 ^ 1023)%Z -> F64.of_int n = Ok x -> close x (IZR n).
Proof.
  intros Hn. unfold F64.of_int.
  assert (G : close (binary_normalize F64.prec F64.emax n 0 false) (IZR n)).
  { destruct n as [| p | p]; try lia.
    cbn [binary_normalize]. unfold binary_round.
    fold (fexp (Zpos (digits2_pos p) + 0)).
    change (Zpos (digits2_pos p)) with (Zdigits2 (Zpos p)).
    rewrite fexp_eq.
    assert (D1 : (0 < Zdigits2 (Zpos p))%Z) by (apply Zdigits2_ge; cbn; lia).
    assert (D2 : (Zdigits2 (Zpos p) <= 1023)%Z) by (apply Zdigits2_le; lia).
    set (d := Zdigits2 (Zpos p)) in *.
    replace (Z.max (d + 0 - 53) (-1074)) with (d - 53)%Z by lia.
    destruct (shl_align_spec p 0 (d - 53)) as [E1 E2].
    destruct (shl_align p 0 (d - 53)) as [mz ez]. cbn [fst snd] in E1, E2.
    assert (P : (0 < 2 ^ (0 - ez))%Z) by (apply Z.pow_pos_nonneg; lia).
    assert (Dz : Zdigits2 (Zpos mz) = (d - ez)%Z).
    { rewrite E2, <- E1, Zdigits2_mul_pow2 by lia. fold d. lia. }
    replace (IZR (Zpos p)) with (IZR (Zpos mz) * pow2 ez).
    - apply binary_round_aux_close; try lia. reflexivity.
    - rewrite E2, <- E1, mult_IZR, <- pow2_IZR by lia.
      rewrite Rmult_assoc, <- pow2_plus.
      replace (0 - ez + ez)%Z with 0%Z by lia. rewrite pow2_0. lra. }
  destruct (close_finite _ _ G) as (m & e & E).
  rewrite E in *. intros [= <-]. exact G.
Qed.

Lemma pow2_lt_inv (a b : Z) : pow2 a < pow2 b -> (a < b)%Z.
Proof.
  intros H. destruct (Z.lt_ge_cases a b) as [L | G]; [exact L |].
  pose proof (pow2_le b a G). lra.
Qed.

Lemma normal_bounds (m : positive) (e : Z) :
  normal_pos (S754_finite false m e) ->
  pow2 (e + 52) <= F2R (S754_finite false m e) < pow2 (e + 53).
Proof.
  cbn [normal_pos F2R]. intros [L U].
  apply IZR_le in L. apply IZR_lt in U.
  rewrite <- !pow2_IZR in * by lia.
  rewrite !pow2_plus. pose proof (pow2_gt0 e). split; nra.
Qed.

Lemma mul_close (x y : F64.float) (ex ey : Z) (mx my : positive) :
  x = S754_finite false mx ex -> y = S754_finite false my ey ->
  normal_pos x -> normal_pos y ->
  (-1126 <= ex + ey)%Z -> F2R x * F2R y < pow2 1023 ->
  close (F64.mul x y) (F2R x * F2R y).
Proof.
  intros -> -> Nx Ny He Hv.
  pose proof (normal_bounds _ _ Nx) as Bx. pose proof (normal_bounds _ _ Ny) as By.
  cbn [normal_pos] in Nx, Ny.
  unfold F64.mul, SFmul. cbn [xorb].
  assert (B : (2 ^ 104 <= Zpos (mx * my) < 2 ^ 106)%Z).
  { rewrite Pos2Z.inj_mul.
    change (2 ^ 104)%Z with (2 ^ 52 * 2 ^ 52)%Z.
    change (2 ^ 106)%Z with (2 ^ 53 * 2 ^ 53)%Z. nia. }
  assert (D1 : (104 < Zdigits2 (Zpos (mx * my)))%Z) by (apply Zdigits2_ge; lia).
  assert (D2 : (Zdigits2 (Zpos (mx * my)) <= 106)%Z) by (apply Zdigits2_le; lia).
  assert (Ev : F2R (S754_finite false mx ex) * F2R (S754_finite false my ey)
               = IZR (Zpos (mx * my)) * pow2 (ex + ey)).
  { cbn [F2R]. rewrite Pos2Z.inj_mul, mult_IZR, pow2_plus. ring. }
  assert (D3 : (Zdigits2 (Zpos (mx * my)) + (ex + ey) <= 1023)%Z).
  { pose proof (Zdigits2_bounds (Zpos (mx * my)) ltac:(lia)) as [L _].
    apply IZR_le in L. rewrite <- pow2_IZR in L by lia.
    assert (pow2 (Zdigits2 (Zpos (mx * my)) - 1 + (ex + ey)) < pow2 1023).
    { rewrite pow2_plus. rewrite Ev in Hv. pose proof (pow2_gt0 (ex + ey)). nra. }
    apply pow2_lt_inv in H. lia. }
  rewrite Ev.
  apply binary_round_aux_close; try lia. reflexivity.
Qed.

Lemma new_location_inbetween (nb k q : Z) (y : R) :
  (0 <= k < nb)%Z -> y = IZR q + IZR k / IZR nb ->
  inbetween q (new_location nb k) y.
Proof.
  intros Hk Hy.
  assert (Rn : 0 < IZR nb) by (apply IZR_lt; lia).
  assert (Rk : 0 <= IZR k) by (apply IZR_le; lia).
  assert (Ef : IZR k = IZR k / IZR nb * IZR nb) by (field; lra).
  set (f := IZR k / IZR nb) in *.
  assert (Z0 : k = 0%Z -> f = 0).
  { intros ->. subst f. unfold Rdiv. ring. }
  unfold new_location.
  destruct (Z.even nb) eqn:Ev; unfold new_location_even, new_location_odd;
    destruct (Z.eqb_spec k 0) as [Hz | Hne];
    try (specialize (Z0 Hz); cbn; lra).
  - assert (R1 : 1 <= IZR k) by (apply IZR_le; lia).
    destruct (Z.compare_spec (2 * k) nb) as [E | L | G]; cbn.
    + apply (f_equal IZR) in E. rewrite mult_IZR in E. nra.
    + apply IZR_lt in L. rewrite mult_IZR in L. split; nra.
    + apply IZR_lt in G. rewrite mult_IZR in G.
      assert (IZR k < IZR nb) by (apply IZR_lt; lia). split; nra.
  - assert (R1 : 1 <= IZR k) by (apply IZR_le; lia).
    assert (Od : (2 * k <> nb)%Z).
    { intros E. rewrite <- E, Z.even_mul in Ev. discriminate. }
    destruct (Z.compare_spec (2 * k + 1) nb) as [E | L | G]; cbn.
    + assert (L : (2 * k < nb)%Z) by lia.
      apply IZR_lt in L. rewrite mult_IZR in L. split; nra.
    + assert (L' : (2 * k < nb)%Z) by lia.
      apply IZR_lt in L'. rewrite mult_IZR in L'. split; nra.
    + assert (G' : (nb < 2 * k)%Z) by lia.
      apply IZR_lt in G'. rewrite mult_IZR in G'.
      assert (IZR k < IZR nb) by (apply IZR_lt; lia). split; nra.
Qed.

Lemma div_close (x y : F64.float) (ex ey : Z) (mx my : positive) :
  x = S754_finite false mx ex -> y = S754_finite false my ey ->
  normal_pos x -> normal_pos y ->
  (-1021 <= ex - ey <= 1022)%Z ->
  close (F64.div x y) (F2R x / F2R y).
Proof.
  intros -> -> Nx Ny He. cbn [normal_pos] in Nx, Ny.
  unfold F64.div, SFdiv, SFdiv_core_binary. cbn [xorb F2R].
  assert (Dx : Zdigits2 (Zpos mx) = 53%Z).
  { apply Z.le_antisymm; [apply Zdigits2_le; lia |].
    assert (52 < Zdigits2 (Zpos mx))%Z by (apply Zdigits2_ge; lia). lia. }
  assert (Dy : Zdigits2 (Zpos my) = 53%Z).
  { apply Z.le_antisymm; [apply Zdigits2_le; lia |].
    assert (52 < Zdigits2 (Zpos my))%Z by (apply Zdigits2_ge; lia). lia. }
  rewrite Dx, Dy.
  fold (fexp (53 + ex - (53 + ey))). rewrite fexp_eq.
  replace (Z.min (Z.max (53 + ex - (53 + ey) - 53) (-1074)) (ex - ey))
    with (ex - ey - 53)%Z by lia.
  replace (ex - ey - (ex - ey - 53))%Z with 53%Z by lia.
  rewrite Z.shiftl_mul_pow2 by lia.
  pose proof (Z_div_mod (Zpos mx * 2 ^ 53) (Zpos my) ltac:(lia)) as DM.
  destruct (Z.div_eucl (Zpos mx * 2 ^ 53) (Zpos my)) as [q r].
  destruct DM as [DM Rr].
  assert (Bq : (2 ^ 52 <= q < 2 ^ 54)%Z).
  { change (2 ^ 54)%Z with (2 * 2 ^ 53)%Z in *.
    change (2 ^ 53)%Z with (2 * 2 ^ 52)%Z in *.
    generalize dependent (2 ^ 52)%Z. intros c Nx Ny DM. split; nia. }
  assert (D1 : (52 < Zdigits2 q)%Z) by (apply Zdigits2_ge; lia).
  assert (D2 : (Zdigits2 q <= 54)%Z) by (apply Zdigits2_le; lia).
  assert (Py : 0 < IZR (Zpos my)) by (apply IZR_lt; lia).
  replace (1 * IZR (Zpos mx) * pow2 ex / (1 * IZR (Zpos my) * pow2 ey))
    with ((IZR q + IZR r / IZR (Zpos my)) * pow2 (ex - ey - 53)).
  - apply binary_round_aux_close; try lia.
    apply new_location_inbetween; [lia | reflexivity].
  - apply (f_equal IZR) in DM.
    rewrite plus_IZR, !mult_IZR, <- pow2_IZR in DM by lia.
    replace (ex - ey - 53)%Z with (ex + (- ey + -53))%Z by lia.
    rewrite !pow2_plus.
    pose proof (pow2_opp ey) as Oy.
    assert (O53 : pow2 (-53) * pow2 53 = 1) by exact (pow2_opp 53).
    pose proof (pow2_gt0 ey) as Gy. pose proof (pow2_gt0 53) as G53.
    assert (Ey : pow2 (- ey) = / pow2 ey) by (apply Rmult_eq_reg_r with (pow2 ey); [rewrite Oy; field |]; lra).
    assert (E53 : pow2 (-53) = / pow2 53) by (apply Rmult_eq_reg_r with (pow2 53); [rewrite O53; field |]; lra).
    rewrite Ey, E53.
    replace (IZR (Zpos mx)) with ((IZR (Zpos my) * IZR q + IZR r) / pow2 53)
      by (rewrite <- DM; field; lra).
    field. lra.
Qed.

Lemma normal_digits (m : positive) :
  (2 ^ 52 <= Zpos m < 2 ^ 53)%Z -> Zdigits2 (Zpos m) = 53%Z.
Proof.
  intros H. apply Z.le_antisymm; [apply Zdigits2_le; lia |].
  assert (52 < Zdigits2 (Zpos m))%Z by (apply Zdigits2_ge; lia). lia.
Qed.

Lemma sqrt_inbetween (q r : Z) (w : R) :
  (0 <= q)%Z -> (0 <= r <= 2 * q)%Z -> 0 <= w ->
  w * w = IZR (q * q + r) ->
  inbetween q
    (if (r =? 0)%Z then loc_Exact
     else loc_Inexact (if (r <=? q)%Z then Lt else Gt)) w.
Proof.
  intros Hq Hr Hw E.
  rewrite plus_IZR, mult_IZR in E.
  assert (Rq : 0 <= IZR q) by (apply IZR_le; lia).
  destruct (Z.eqb_spec r 0) as [-> | Hne]; cbn [inbetween].
  - assert ((w - IZR q) * (w + IZR q) = 0) by lra.
    destruct (Rmult_integral _ _ H) as [H1 | H1]; [lra |].
    assert (w = 0 /\ IZR q = 0) as [-> E0] by (split; lra). lra.
  - assert (R1 : 1 <= IZR r) by (apply IZR_le; lia).
    destruct (Z.leb_spec r q) as [L | L]; cbn [inbetween].
    + apply IZR_le in L. split; nra.
    + assert (L' : (q + 1 <= r)%Z) by lia.
      apply IZR_le in L'. rewrite plus_IZR in L'.
      assert (L2 : (r <= 2 * q)%Z) by lia.
      apply IZR_le in L2. rewrite mult_IZR in L2. split; nra.
Qed.

Lemma sqrt_close (x : F64.float) (m : positive) (e : Z) (w : R) :
  x = S754_finite false m e -> normal_pos x -> (-1074 <= e <= 971)%Z ->
  0 <= w -> w * w = F2R x -> close (F64.sqrt x) w.
Proof.
  intros -> Nx He Hw Ew. cbn [normal_pos] in Nx. cbn [F2R] in Ew.
  unfold F64.sqrt, SFsqrt, SFsqrt_core_binary.
  rewrite (normal_digits m Nx).
  fold (fexp (Z.div2 (53 + e + 1))). rewrite fexp_eq, !Z.div2_div.
  pose proof (Z.div_mod e 2 ltac:(lia)) as De.
  pose proof (Z.mod_pos_bound e 2 ltac:(lia)) as Be.
  assert (E27 : ((53 + e + 1) / 2 = e / 2 + 27)%Z).
  { replace (53 + e + 1)%Z with (e + 27 * 2)%Z by lia.
    now rewrite Z.div_add by lia. }
  rewrite E27.
  assert (Bh : (-537 <= e / 2 <= 485)%Z) by lia.
  replace (Z.min (Z.max (e / 2 + 27 - 53) (-1074)) (e / 2))
    with (e / 2 - 26)%Z by lia.
  set (e' := (e / 2 - 26)%Z).
  set (s := (e - 2 * e')%Z).
  assert (Hs : (s = 52 \/ s = 53)%Z) by (subst s e'; lia).
  assert (Em : match s with
               | Zpos _ => Z.shiftl (Zpos m) s
               | Z0 => Zpos m
               | Zneg _ => 0%Z
               end = (Zpos m * 2 ^ s)%Z).
  { destruct s as [| p | p]; try lia. now rewrite Z.shiftl_mul_pow2 by lia. }
  rewrite Em.
  assert (Bm : (2 ^ 52 * 2 ^ 52 <= Zpos m * 2 ^ s
                < (2 * 2 ^ 52) * (2 * 2 ^ 52))%Z).
  { change (2 ^ 53)%Z with (2 * 2 ^ 52)%Z in Nx.
    assert (Hc : (0 < 2 ^ 52)%Z) by reflexivity.
    assert (Es : (2 ^ s = 2 ^ 52 \/ 2 ^ s = 2 * 2 ^ 52)%Z)
      by (destruct Hs as [-> | ->]; [left | right]; reflexivity).
    clear - Nx Hc Es.
    generalize dependent (2 ^ s)%Z. generalize dependent (2 ^ 52)%Z.
    intros c Nx Hc p [-> | ->]; nia. }
  assert (Pm : (0 <= Zpos m * 2 ^ s)%Z).
  { pose proof (Z.pow_pos_nonneg 2 s). destruct Hs as [-> | ->]; lia. }
  pose proof (Z.sqrtrem_spec (Zpos m * 2 ^ s) Pm) as SR.
  destruct (Z.sqrtrem (Zpos m * 2 ^ s)) as [q r].
  destruct SR as [SR1 SR2].
  assert (Bq : (2 ^ 52 <= q < 2 ^ 53)%Z).
  { change (2 ^ 53)%Z with (2 * 2 ^ 52)%Z.
    rewrite SR1 in Bm.
    assert (Hc : (0 < 2 ^ 52)%Z) by reflexivity.
    assert (0 <= q)%Z by nia.
    clear - Bm Hc SR2 H.
    generalize dependent (2 ^ 52)%Z. intros c Bm Hc. split; nia. }
  assert (Dq : Zdigits2 q = 53%Z).
  { destruct q as [| pq |]; try lia. now apply normal_digits. }
  set (w' := w * pow2 (- e')).
  assert (Ew' : w = w' * pow2 e').
  { subst w'. rewrite Rmult_assoc, pow2_opp. ring. }
  rewrite Ew'.
  apply binary_round_aux_close; try lia.
  apply sqrt_inbetween; try lia.
  - subst w'. pose proof (pow2_gt0 (- e')). nra.
  - rewrite <- SR1. subst w'.
    replace (w * pow2 (- e') * (w * pow2 (- e')))
      with (w * w * (pow2 (- e') * pow2 (- e'))) by ring.
    rewrite Ew, Rmult_1_l, mult_IZR, <- pow2_IZR by lia.
    rewrite <- pow2_plus, Rmult_assoc, <- pow2_plus.
    do 2 f_equal. subst s. lia.
Qed.

(** *** The error of the cosine of proportional vectors *)

Lemma u_small : 0 < u < / 1000.
Proof.
  assert (E : u * IZR (2 ^ 53) = 1).
  { unfold u. rewrite <- (pow2_IZR 53) by lia. exact (pow2_opp 53). }
  change (2 ^ 53)%Z with 9007199254740992%Z in E. lra.
Qed.

Lemma close_interval (x v : R) :
  Rabs (x - v) <= u * v -> (1 - u) * v <= x <= (1 + u) * v.
Proof.
  intros H. unfold Rabs in H. destruct (Rcase_abs (x - v)); lra.
Qed.

Lemma square_le (x y : R) : 0 <= x -> 0 <= y -> x * x <= y * y -> x <= y.
Proof. intros. nra. Qed.

(** The error of [sqrt a * sqrt b], each step rounded, against a bound
    [delta] of the square root of [a * b]: from below, ... *)
Section ChainBelow.
Variables alpha beta delta A B wA wB X Y P : R.
Hypothesis Halpha : 0 <= alpha.
Hypothesis Hbeta : 0 <= beta.
Hypothesis Hdelta : 0 <= delta.
Hypothesis Hsq : delta * delta <= alpha * beta.
Hypothesis HA : (1 - u) * alpha <= A.
Hypothesis HB : (1 - u) * beta <= B.
Hypothesis HwA : 0 <= wA /\ wA * wA = A.
Hypothesis HwB : 0 <= wB /\ wB * wB = B.
Hypothesis HX : (1 - u) * wA <= X.
Hypothesis HY : (1 - u) * wB <= Y.
Hypothesis HP : (1 - u) * (X * Y) <= P.

Lemma below_W : (1 - u) * delta <= wA * wB.
Proof.
  pose proof u_small as Hu.
  destruct HwA as [PA EA], HwB as [PB EB].
  assert (EW : (wA * wB) * (wA * wB) = A * B) by (rewrite <- EA, <- EB; ring).
  assert (PW : 0 <= wA * wB) by (apply Rmult_le_pos; assumption).
  assert (L : ((1 - u) * delta) * ((1 - u) * delta) <= A * B).
  { apply Rle_trans with (((1 - u) * alpha) * ((1 - u) * beta)).
    - replace ((1 - u) * delta * ((1 - u) * delta))
        with ((1 - u) * (1 - u) * (delta * delta)) by ring.
      replace ((1 - u) * alpha * ((1 - u) * beta))
        with ((1 - u) * (1 - u) * (alpha * beta)) by ring.
      apply Rmult_le_compat_l; [nra | exact Hsq].
    - apply Rmult_le_compat; try assumption; apply Rmult_le_pos; lra. }
  apply square_le; [apply Rmult_le_pos; lra | exact PW |].
  rewrite EW. exact L.
Qed.

Lemma below_XY : (1 - u) * (1 - u) * (1 - u) * delta <= X * Y.
Proof.
  pose proof u_small as Hu. pose proof below_W as W1.
  destruct HwA as [PA _], HwB as [PB _].
  apply Rle_trans with ((1 - u) * (1 - u) * (wA * wB)).
  - replace ((1 - u) * (1 - u) * (1 - u) * delta)
      with ((1 - u) * (1 - u) * ((1 - u) * delta)) by ring.
    apply Rmult_le_compat_l; [nra | exact W1].
  - replace ((1 - u) * (1 - u) * (wA * wB))
      with (((1 - u) * wA) * ((1 - u) * wB)) by ring.
    apply Rmult_le_compat; try assumption; apply Rmult_le_pos; lra.
Qed.

Lemma below_P : (1 - u) * (1 - u) * (1 - u) * (1 - u) * delta <= P.
Proof.
  pose proof u_small as Hu. pose proof below_XY as W1.
  apply Rle_trans with ((1 - u) * (X * Y)); [| exact HP].
  replace ((1 - u) * (1 - u) * (1 - u) * (1 - u) * delta)
    with ((1 - u) * ((1 - u) * (1 - u) * (1 - u) * delta)) by ring.
  apply Rmult_le_compat_l; [lra | exact W1].
Qed.
End ChainBelow.

(** ... and from above. *)
Section ChainAbove.
Variables alpha beta delta A B wA wB X Y P : R.
Hypothesis Halpha : 0 <= alpha.
Hypothesis Hbeta : 0 <= beta.
Hypothesis Hdelta : 0 <= delta.
Hypothesis Hsq : alpha * beta <= delta * delta.
Hypothesis HA : 0 <= A <= (1 + u) * alpha.
Hypothesis HB : 0 <= B <= (1 + u) * beta.
Hypothesis HwA : 0 <= wA /\ wA * wA = A.
Hypothesis HwB : 0 <= wB /\ wB * wB = B.
Hypothesis HX : 0 <= X <= (1 + u) * wA.
Hypothesis HY : 0 <= Y <= (1 + u) * wB.
Hypothesis HP : P <= (1 + u) * (X * Y).

Lemma above_W : wA * wB <= (1 + u) * delta.
Proof.
  pose proof u_small as Hu.
  destruct HwA as [PA EA], HwB as [PB EB].
  assert (EW : (wA * wB) * (wA * wB) = A * B) by (rewrite <- EA, <- EB; ring).
  assert (PW : 0 <= wA * wB) by (apply Rmult_le_pos; assumption).
  assert (U : A * B <= ((1 + u) * delta) * ((1 + u) * delta)).
  { apply Rle_trans with (((1 + u) * alpha) * ((1 + u) * beta)).
    - apply Rmult_le_compat; lra.
    - replace ((1 + u) * delta * ((1 + u) * delta))
        with ((1 + u) * (1 + u) * (delta * delta)) by ring.
      replace ((1 + u) * alpha * ((1 + u) * beta))
        with ((1 + u) * (1 + u) * (alpha * beta)) by ring.
      apply Rmult_le_compat_l; [nra | exact Hsq]. }
  apply square_le; [exact PW | apply Rmult_le_pos; lra |].
  rewrite EW. exact U.
Qed.

Lemma above_XY : X * Y <= (1 + u) * (1 + u) * (1 + u) * delta.
Proof.
  pose proof u_small as Hu. pose proof above_W as W1.
  destruct HwA as [PA _], HwB as [PB _].
  apply Rle_trans with ((1 + u) * (1 + u) * (wA * wB)).
  - replace ((1 + u) * (1 + u) * (wA * wB))
      with (((1 + u) * wA) * ((1 + u) * wB)) by ring.
    apply Rmult_le_compat; lra.
  - replace ((1 + u) * (1 + u) * (1 + u) * delta)
      with ((1 + u) * (1 + u) * ((1 + u) * delta)) by ring.
    apply Rmult_le_compat_l; [nra | exact W1].
Qed.

Lemma above_P : P <= (1 + u) * (1 + u) * (1 + u) * (1 + u) * delta.
Proof.
  pose proof u_small as Hu. pose proof above_XY as W1.
  apply Rle_trans with ((1 + u) * (X * Y)); [exact HP |].
  replace ((1 + u) * (1 + u) * (1 + u) * (1 + u) * delta)
    with ((1 + u) * ((1 + u) * (1 + u) * (1 + u) * delta)) by ring.
  apply Rmult_le_compat_l; [lra | exact W1].
Qed.
End ChainAbove.

Lemma u_powers :
  (1 + u) * (1 + u) * (1 + u) * (1 + u) <= 1 + 5 * u
  /\ 1 - 4 * u <= (1 - u) * (1 - u) * (1 - u) * (1 - u).
Proof.
  pose proof u_small as Hu.
  assert (S2 : (1 + u) * (1 + u) <= 1 + 2 * u + u / 1000) by nra.
  assert (S2' : 1 <= (1 + u) * (1 + u)) by nra.
  assert (T2 : 1 - 2 * u <= (1 - u) * (1 - u) <= 1) by nra.
  split.
  - replace ((1 + u) * (1 + u) * (1 + u) * (1 + u))
      with (((1 + u) * (1 + u)) * ((1 + u) * (1 + u))) by ring.
    set (s := (1 + u) * (1 + u)) in *. nra.
  - replace ((1 - u) * (1 - u) * (1 - u) * (1 - u))
      with (((1 - u) * (1 - u)) * ((1 - u) * (1 - u))) by ring.
    set (s := (1 - u) * (1 - u)) in *. nra.
Qed.

(** The quotient, rounded, of a numerator near [delta] by a denominator
    that is not much below [delta]. *)
Lemma quotient_above (delta n p q : R) :
  0 < delta ->
  (1 - u) * (1 - u) * (1 - u) * (1 - u) * delta <= p ->
  0 <= n <= (1 + u) * delta ->
  q <= (1 + u) * (n / p) ->
  q <= 1 + 8 * u.
Proof.
  intros Hd Hp Hn Hq. pose proof u_small as Hu. destruct u_powers as [_ K2].
  set (l := (1 - u) * (1 - u) * (1 - u) * (1 - u)) in *.
  assert (PP : 0 < p) by nra.
  assert (EQ : n / p * p = n) by (field; lra).
  apply Rmult_le_reg_r with p; [exact PP |].
  apply Rle_trans with ((1 + u) * n); [nra |].
  apply Rle_trans with ((1 + u) * (1 + u) * delta); [nra |].
  apply Rle_trans with ((1 + 8 * u) * (l * delta)); [| nra].
  assert ((1 + u) * (1 + u) <= (1 + 8 * u) * l) by nra.
  nra.
Qed.

Lemma quotient_below (delta n p q : R) :
  0 < delta ->
  0 < p <= (1 + u) * (1 + u) * (1 + u) * (1 + u) * delta ->
  (1 - u) * delta <= n ->
  (1 - u) * (n / p) <= q ->
  1 - 8 * u <= q.
Proof.
  intros Hd Hp Hn Hq. pose proof u_small as Hu. destruct u_powers as [K1 _].
  set (h := (1 + u) * (1 + u) * (1 + u) * (1 + u)) in *.
  assert (EQ : n / p * p = n) by (field; lra).
  apply Rmult_le_reg_r with p; [lra |].
  apply Rle_trans with ((1 - u) * n); [| nra].
  apply Rle_trans with ((1 - u) * (1 - u) * delta); [| nra].
  apply Rle_trans with ((1 - 8 * u) * (h * delta)); [nra |].
  assert ((1 - 8 * u) * h <= (1 - u) * (1 - u)) by nra.
  nra.
Qed.

Lemma normal_exponent (m : positive) (e lo hi : Z) :
  normal_pos (S754_finite false m e) ->
  pow2 lo < F2R (S754_finite false m e) -> F2R (S754_finite false m e) < pow2 hi ->
  (lo - 53 < e < hi - 52)%Z.
Proof.
  intros Nx L U. pose proof (normal_bounds m e Nx) as [B1 B2].
  assert (L' : (lo < e + 53)%Z) by (apply pow2_lt_inv; lra).
  assert (U' : (e + 52 < hi)%Z) by (apply pow2_lt_inv; lra).
  lia.
Qed.

Lemma pow2_m1 : pow2 (-1) = / 2.
Proof. change (pow2 (-1)) with (/ (2 * 1)). f_equal. ring. Qed.

Lemma pow2_m2 : pow2 (-2) = / 4.
Proof. change (pow2 (-2)) with (/ (2 * (2 * 1))). f_equal. ring. Qed.

Lemma pow2_succ (e : Z) : pow2 (e + 1) = 2 * pow2 e.
Proof. rewrite pow2_plus. change (pow2 1) with (2 * 1). ring. Qed.

Lemma sqrt_range (w x lo hi : R) :
  0 <= w -> w * w = x -> 0 <= lo -> lo * lo <= x -> x < hi * hi -> 0 <= hi ->
  lo <= w < hi.
Proof. intros. split; nra. Qed.

Lemma close_bounds (x : F64.float) (v : R) :
  close x v -> 0 <= v ->
  normal_pos x /\ (1 - u) * v <= F2R x <= (1 + u) * v /\ 0 <= F2R x.
Proof.
  intros [N C] Hv. apply close_interval in C. pose proof u_small.
  repeat split; try tauto. nra.
Qed.

(** The cosine as [calculate_cosine] evaluates it, for sums of squares
    [a] and [b] and a dot product [d] with [d * d <= a * b]: at most
    eight units round-off above 1, and as close to 1 from below when
    [d * d = a * b]. *)
Lemma cosine_pipeline (a b d : Z) (fa fb fd : F64.float) :
  (0 < a < 2 ^ 1000)%Z -> (0 < b < 2 ^ 1000)%Z -> (0 < d)%Z ->
  (d * d <= a * b)%Z ->
  F64.of_int a = Ok fa -> F64.of_int b = Ok fb -> F64.of_int d = Ok fd ->
  let r := F64.div fd (F64.mul (F64.sqrt fa) (F64.sqrt fb)) in
  normal_pos r /\ F2R r <= 1 + 8 * u /\
  ((d * d = a * b)%Z -> 1 - 8 * u <= F2R r).
Proof.
  intros Ha Hb Hd Hsq Ea Eb Ed r.
  pose proof u_small as Hu.
  assert (T3 : (2 ^ 1000 < 2 ^ 1023)%Z) by (apply Z.pow_lt_mono_r; lia).
  assert (P0 : pow2 1000 = IZR (2 ^ 1000)) by (apply pow2_IZR; lia).
  assert (P1 : pow2 1001 = 2 * pow2 1000) by exact (pow2_succ 1000).
  assert (P3 : pow2 1001 <= pow2 1023) by (apply pow2_le; lia).
  assert (Hd' : (d < 2 ^ 1000)%Z).
  { clear - Ha Hb Hd Hsq. generalize dependent (2 ^ 1000)%Z. intros T Ha Hb.
    destruct (Z.lt_ge_cases d T) as [L | G]; [exact L | exfalso; nia]. }
  pose proof (of_int_close a fa ltac:(lia) Ea) as CA.
  pose proof (of_int_close b fb ltac:(lia) Eb) as CB.
  pose proof (of_int_close d fd ltac:(lia) Ed) as CD.
  set (T := pow2 1000) in *.
  set (alpha := IZR a) in *. set (beta := IZR b) in *. set (delta := IZR d) in *.
  assert (A1 : 1 <= alpha < T).
  { rewrite P0. split; [apply IZR_le; lia | apply IZR_lt; lia]. }
  assert (B1 : 1 <= beta < T).
  { rewrite P0. split; [apply IZR_le; lia | apply IZR_lt; lia]. }
  assert (D1 : 1 <= delta < T).
  { rewrite P0. split; [apply IZR_le; lia | apply IZR_lt; lia]. }
  assert (RS : delta * delta <= alpha * beta).
  { unfold alpha, beta, delta. rewrite <- !mult_IZR. now apply IZR_le. }
  assert (RT : alpha * beta <= T * T).
  { apply Rmult_le_compat; lra. }
  clear P0 T3 Ea Eb Ed.
  destruct (close_bounds _ _ CA ltac:(lra)) as (NA & IA & PA).
  destruct (close_bounds _ _ CB ltac:(lra)) as (NB & IB & PB).
  destruct (close_bounds _ _ CD ltac:(lra)) as (ND & ID & PD).
  clear CA CB CD.
  destruct fa as [| | | [] ma ea]; try contradiction.
  destruct fb as [| | | [] mb eb]; try contradiction.
  destruct fd as [| | | [] md ed]; try contradiction.
  set (fa := S754_finite false ma ea) in *.
  set (fb := S754_finite false mb eb) in *.
  set (fd := S754_finite false md ed) in *.
  set (A := F2R fa) in *. set (B := F2R fb) in *. set (N := F2R fd) in *.
  (* the square roots *)
  assert (WA : 0 <= sqrt A /\ sqrt A * sqrt A = A).
  { split; [apply sqrt_pos | apply sqrt_sqrt; exact PA]. }
  assert (WB : 0 <= sqrt B /\ sqrt B * sqrt B = B).
  { split; [apply sqrt_pos | apply sqrt_sqrt; exact PB]. }
  set (wA := sqrt A) in *. set (wB := sqrt B) in *.
  assert (A2 : / 2 < A < 2 * T) by (clear - Hu A1 IA; nra).
  assert (B2 : / 2 < B < 2 * T) by (clear - Hu B1 IB; nra).
  assert (N2 : / 2 < N) by (clear - Hu D1 ID; nra).
  assert (T1 : 1 <= T) by lra.
  assert (XA : (-1 - 53 < ea < 1023 - 52)%Z).
  { apply (normal_exponent ma); [exact NA | rewrite pow2_m1 | ]; fold fa;
      fold A; lra. }
  assert (XB : (-1 - 53 < eb < 1023 - 52)%Z).
  { apply (normal_exponent mb); [exact NB | rewrite pow2_m1 | ]; fold fb;
      fold B; lra. }
  assert (RA : / 2 <= wA < 2 * T).
  { apply (sqrt_range wA A); try tauto; try lra; clear - A2 T1; nra. }
  assert (RB : / 2 <= wB < 2 * T).
  { apply (sqrt_range wB B); try tauto; try lra; clear - B2 T1; nra. }
  pose proof (sqrt_close fa ma ea wA eq_refl NA ltac:(lia) (proj1 WA) (proj2 WA))
    as CX.
  pose proof (sqrt_close fb mb eb wB eq_refl NB ltac:(lia) (proj1 WB) (proj2 WB))
    as CY.
  destruct (close_bounds _ _ CX ltac:(lra)) as (NX & IX & PX).
  destruct (close_bounds _ _ CY ltac:(lra)) as (NY & IY & PY).
  clear CX CY.
  destruct (F64.sqrt fa) as [| | | [] mx ex]; try contradiction.
  destruct (F64.sqrt fb) as [| | | [] my ey]; try contradiction.
  set (fx := S754_finite false mx ex) in *.
  set (fy := S754_finite false my ey) in *.
  set (X := F2R fx) in *. set (Y := F2R fy) in *.
  assert (X2 : / 4 < X < 4 * T) by (clear - Hu RA IX; nra).
  assert (Y2 : / 4 < Y < 4 * T) by (clear - Hu RB IY; nra).
  assert (P2 : pow2 1002 = 4 * T).
  { unfold T. replace 1002%Z with (1000 + 1 + 1)%Z by lia.
    rewrite !pow2_succ. ring. }
  assert (P4 : pow2 1002 <= pow2 1023) by (apply pow2_le; lia).
  assert (EX : (-2 - 53 < ex < 1023 - 52)%Z).
  { apply (normal_exponent mx); [exact NX | rewrite pow2_m2 | ]; fold fx;
      fold X; lra. }
  assert (EY : (-2 - 53 < ey < 1023 - 52)%Z).
  { apply (normal_exponent my); [exact NY | rewrite pow2_m2 | ]; fold fy;
      fold Y; lra. }
  assert (XYhi : X * Y <= (1 + u) * (1 + u) * (1 + u) * T).
  { apply (above_XY alpha beta T A B wA wB X Y); try tauto; lra. }
  assert (C3 : (1 + u) * (1 + u) * (1 + u) * (1 + u) < 2).
  { destruct u_powers as [K _]. lra. }
  assert (C3' : (1 + u) * (1 + u) * (1 + u) < 2) by (clear - Hu C3; nra).
  assert (XY : X * Y < pow2 1023) by (clear - XYhi C3' T1 P1 P3; fold T in P1; nra).
  pose proof (mul_close fx fy ex ey mx my eq_refl eq_refl NX NY ltac:(lia) XY)
    as CP.
  fold X Y in CP.
  assert (XY0 : 0 <= X * Y) by (apply Rmult_le_pos; lra).
  destruct (close_bounds _ _ CP XY0) as (NP & IP & PP).
  clear CP.
  destruct (F64.mul fx fy) as [| | | [] mp ep]; try contradiction.
  set (fp := S754_finite false mp ep) in *.
  set (P := F2R fp) in *.
  assert (Plo : (1 - u) * (1 - u) * (1 - u) * (1 - u) * delta <= P).
  { apply (below_P alpha beta delta A B wA wB X Y); try tauto; lra. }
  assert (Phi : P <= (1 + u) * (1 + u) * (1 + u) * (1 + u) * T).
  { apply (above_P alpha beta T A B wA wB X Y); try tauto; lra. }
  pose proof (normal_bounds md ed ND) as BD. fold fd in BD. fold N in BD.
  pose proof (normal_bounds mp ep NP) as BP. fold fp in BP. fold P in BP.
  assert (L1 : N < 2 * P).
  { destruct u_powers as [_ K2]. clear - Hu K2 Plo ID D1.
    set (l := (1 - u) * (1 - u) * (1 - u) * (1 - u)) in *. nra. }
  assert (L2 : P < pow2 1001) by (clear - Phi C3 T1 P1; fold T in P1; nra).
  assert (EDP : (-1021 <= ed - ep <= 1022)%Z).
  { assert (M1 : (ed + 52 < ep + 53 + 1)%Z).
    { apply pow2_lt_inv. rewrite pow2_succ. lra. }
    assert (M2 : (ep + 52 < 1001)%Z) by (apply pow2_lt_inv; lra).
    assert (M3 : (-1 < ed + 53)%Z).
    { apply pow2_lt_inv. rewrite pow2_m1. lra. }
    lia. }
  pose proof (div_close fd fp ed ep md mp eq_refl eq_refl ND NP EDP) as CR.
  fold N P in CR. fold r in CR.
  assert (P0 : 0 < P) by (pose proof (pow2_gt0 (ep + 52)); lra).
  assert (NP0 : 0 <= N / P).
  { apply Rmult_le_pos; [lra |]. apply Rlt_le. now apply Rinv_0_lt_compat. }
  destruct (close_bounds _ _ CR NP0) as (NR & IR & _).
  split; [exact NR |]. split.
  - apply (quotient_above delta N P); try tauto; lra.
  - intros E.
    assert (RS' : alpha * beta <= delta * delta).
    { unfold alpha, beta, delta. rewrite <- !mult_IZR. apply IZR_le. lia. }
    apply (quotient_below delta N P); try tauto; try lra.
    split; [exact P0 |].
    apply (above_P alpha beta delta A B wA wB X Y); try tauto; lra.
Qed.

(** 1 + 2 ^ -50 and 1 - 2 ^ -50. *)
Definition just_above_one : F64.float := S754_finite false 4503599627370500 (-52).
Definition just_below_one : F64.float := S754_finite false 9007199254740984 (-53).

Lemma pos_le_of_Z (m n : positive) : (Z.pos m <= Z.pos n)%Z -> (m <= n)%positive.
Proof.
  intros L. unfold Z.le in L. rewrite <- Pos2Z.inj_compare in L. exact L.
Qed.

Lemma normal_nonneg (x : F64.float) : normal_pos x -> F64.leb F64.zero x = true.
Proof. destruct x as [| | | [] m e]; try contradiction. reflexivity. Qed.

Lemma normal_below (x : F64.float) :
  normal_pos x -> F2R x <= 1 + 8 * u -> F64.leb x just_above_one = true.
Proof.
  destruct x as [| | | [] m e]; try contradiction. intros Nx Hx.
  pose proof u_small as Hu. pose proof (normal_bounds m e Nx) as [B1 _].
  assert (E : (e + 52 < 1)%Z).
  { apply pow2_lt_inv. change (pow2 1) with (2 * 1). lra. }
  apply leb_finite_pos.
  destruct (Z.eq_dec e (-52)) as [-> | Hne]; [right | left; lia].
  split; [reflexivity |]. cbn [F2R] in Hx.
  assert (O : pow2 (-52) * pow2 52 = 1) by exact (pow2_opp 52).
  assert (P52 : pow2 52 = IZR (2 ^ 52)) by (apply pow2_IZR; lia).
  pose proof u_half as UH. rewrite <- P52 in UH.
  pose proof (pow2_gt0 52) as G.
  assert (L : IZR (Zpos m) <= IZR (2 ^ 52 + 4)).
  { rewrite plus_IZR, <- P52.
    assert (IZR (Zpos m) * (pow2 (-52) * pow2 52) <= (1 + 8 * u) * pow2 52)
      by nra.
    rewrite O in H. lra. }
  apply le_IZR in L. change (2 ^ 52 + 4)%Z with 4503599627370500%Z in L.
  apply pos_le_of_Z. exact L.
Qed.

Lemma normal_above (x : F64.float) :
  normal_pos x -> 1 - 8 * u <= F2R x -> F64.leb just_below_one x = true.
Proof.
  destruct x as [| | | [] m e]; try contradiction. intros Nx Hx.
  pose proof u_small as Hu. pose proof (normal_bounds m e Nx) as [_ B2].
  assert (E : (-1 < e + 53)%Z).
  { apply pow2_lt_inv. rewrite pow2_m1. lra. }
  apply leb_finite_pos.
  destruct (Z.eq_dec e (-53)) as [-> | Hne]; [right | left; lia].
  split; [reflexivity |]. cbn [F2R] in Hx.
  assert (O : pow2 (-53) * pow2 53 = 1) by exact (pow2_opp 53).
  assert (P53 : pow2 53 = IZR (2 ^ 53)) by (apply pow2_IZR; lia).
  pose proof (pow2_gt0 53) as G.
  assert (L : IZR (2 ^ 53 - 8) <= IZR (Zpos m)).
  { rewrite minus_IZR, <- P53.
    assert ((1 - 8 * u) * pow2 53 <= IZR (Zpos m) * (pow2 (-53) * pow2 53))
      by nra.
    rewrite O in H. unfold u in H. nra. }
  apply le_IZR in L. change (2 ^ 53 - 8)%Z with 9007199254740984%Z in L.
  apply pos_le_of_Z. exact L.
Qed.

(** The same, as comparisons of binary64 values. *)
Lemma cosine_pipeline_bounds (a b d : Z) (fa fb fd : F64.float) :
  (0 < a < 2 ^ 1000)%Z -> (0 < b < 2 ^ 1000)%Z -> (0 < d)%Z ->
  (d * d <= a * b)%Z ->
  F64.of_int a = Ok fa -> F64.of_int b = Ok fb -> F64.of_int d = Ok fd ->
  let r := F64.div fd (F64.mul (F64.sqrt fa) (F64.sqrt fb)) in
  F64.leb F64.zero r = true /\ F64.leb r just_above_one = true /\
  ((d * d = a * b)%Z -> F64.leb just_below_one r = true).
Proof.
  intros Ha Hb Hd Hsq Ea Eb Ed r.
  destruct (cosine_pipeline a b d fa fb fd Ha Hb Hd Hsq Ea Eb Ed)
    as (N & U & L). fold r in N, U, L.
  split; [now apply normal_nonneg |]. split; [now apply normal_below |].
  intros E. apply normal_above; auto.
Qed.

End F64Error.

(** ** The range of the cosine *)

Lemma In_keys_Counter (words : list string) (w : string) :
  In w (keys (Counter words)) -> In w words.
Proof.
  unfold Counter.
  assert (G : forall c, In w (keys (fold_left (fun c w => counter_add w c) words c)) ->
              In w (keys c) \/ In w words).
  { induction words as [| x words IH]; intros c; cbn [fold_left]; [auto |].
    intros H. destruct (IH _ H) as [H' | H']; [| right; now right].
    rewrite counter_add_keys in H'.
    destruct (mem x (keys c)); [now left |].
    apply in_app_iff in H' as [H' | [<- | []]]; [now left | right; now left]. }
  intros H. destruct (G [] H) as [[] | H']. exact H'.
Qed.

Lemma of_int_zero : F64.of_int 0 = Ok F64.zero.
Proof. reflexivity. Qed.

Lemma sqrt_zero : F64.sqrt F64.zero = F64.zero.
Proof. reflexivity. Qed.

(** The two magnitudes, when neither sum of squares is out of range. *)
Lemma magnitudes (a b : Z) :
  0 <= a < 2 ^ 1023 -> 0 <= b < 2 ^ 1023 ->
  exists fa fb,
    F64.of_int a = Ok fa /\ F64.of_int b = Ok fb /\
    (a = 0 -> fa = F64.zero) /\ (b = 0 -> fb = F64.zero) /\
    (0 < a -> ge_one (F64.sqrt fa)) /\ (0 < b -> ge_one (F64.sqrt fb)).
Proof.
  intros Ha Hb.
  assert (G : forall n, 0 <= n < 2 ^ 1023 ->
              exists f, F64.of_int n = Ok f /\ (n = 0 -> f = F64.zero) /\
                        (0 < n -> ge_one (F64.sqrt f))).
  { intros n Hn. destruct (Z.eq_dec n 0) as [-> | Hne].
    - exists F64.zero. repeat split; lia.
    - destruct (of_int_returns n ltac:(lia)) as (f & Ef). exists f.
      split; [exact Ef |]. split; [lia |]. intros Hp.
      apply sqrt_ge_one. eapply of_int_ge_one; eassumption. }
  destruct (G a Ha) as (fa & Ea & Za & Ga), (G b Hb) as (fb & Eb & Zb & Gb).
  exists fa, fb. auto 10.
Qed.

Lemma div_zero_ge_one (y : F64.float) :
  ge_one y -> F64.div F64.zero y = F64.zero.
Proof. destruct y as [| [] | | [] m e]; try contradiction; reflexivity. Qed.

(** [calculate_cosine] when the two sums of squares are in range and
    the dot product is known. *)
Lemma calculate_cosine_unfold (query_words : list string) (doc_words_freq : freq_map) :
  let a := sum_squares (values (Counter query_words)) in
  let b := sum_squares (values doc_words_freq) in
  let dot := dot_product_of (Counter query_words) doc_words_freq in
  a < 2 ^ 1023 -> b < 2 ^ 1023 ->
  (a = 0 \/ b = 0 \/ dot = 0 ->
   calculate_cosine query_words doc_words_freq = Ok F64.zero) /\
  (0 < a -> 0 < b -> 0 < dot ->
   exists fa fb fdot,
     F64.of_int a = Ok fa /\ F64.of_int b = Ok fb /\ F64.of_int dot = Ok fdot /\
     calculate_cosine query_words doc_words_freq
     = Ok (F64.div fdot (F64.mul (F64.sqrt fa) (F64.sqrt fb)))).
Proof.
  intros a b dot Ha Hb.
  pose proof (sum_squares_nonneg (values (Counter query_words))) as Pa.
  pose proof (sum_squares_nonneg (values doc_words_freq)) as Pb.
  fold a in Pa. fold b in Pb.
  destruct (magnitudes a b ltac:(lia) ltac:(lia))
    as (fa & fb & Ea & Eb & Za & Zb & Ga & Gb).
  unfold calculate_cosine, math_sqrt. fold a b dot. rewrite Ea, Eb. cbn [bind].
  split.
  - intros H.
    destruct (Z.eq_dec a 0) as [A0 | A0]; [now rewrite (Za A0) |].
    destruct (Z.eq_dec b 0) as [B0 | B0].
    { rewrite (Zb B0). cbn. now rewrite orb_true_r. }
    assert (D0 : dot = 0) by lia.
    specialize (Ga ltac:(lia)). specialize (Gb ltac:(lia)).
    rewrite (ge_one_nonzero _ Ga), (ge_one_nonzero _ Gb). cbn [orb].
    rewrite D0, of_int_zero. cbn [bind]. unfold F64.float_divide.
    rewrite (ge_one_nonzero _ (mul_ge_one _ _ Ga Gb)).
    now rewrite (div_zero_ge_one _ (mul_ge_one _ _ Ga Gb)).
  - intros A0 B0 D0.
    specialize (Ga A0). specialize (Gb B0).
    assert (Hd : dot < 2 ^ 1023).
    { pose proof (dot_product_of_bound (Counter query_words) doc_words_freq
                    (proj1 (Counter_invariant query_words))) as CS.
      fold a b dot in CS. clear - CS Ha Hb A0 B0 D0.
      generalize dependent (2 ^ 1023). intros T Ha Hb.
      destruct (Z.lt_ge_cases dot T) as [L | G]; [exact L | exfalso; nia]. }
    destruct (of_int_returns dot ltac:(lia)) as (fdot & Ed).
    exists fa, fb, fdot. repeat split; trivial.
    rewrite (ge_one_nonzero _ Ga), (ge_one_nonzero _ Gb). cbn [orb].
    rewrite Ed. cbn [bind]. unfold F64.float_divide.
    now rewrite (ge_one_nonzero _ (mul_ge_one _ _ Ga Gb)).
Qed.

(** X7. Without a shared term the cosine is exactly 0.0: an empty query and
    an empty table are cases of it. *)
Theorem calculate_cosine_disjoint (query_words : list string)
  (doc_words_freq : freq_map) :
  (forall w, In w query_words -> dict_get String.eqb w doc_words_freq = None) ->
  sum_squares (values (Counter query_words)) < 2 ^ 1023 ->
  sum_squares (values doc_words_freq) < 2 ^ 1023 ->
  calculate_cosine query_words doc_words_freq = Ok F64.zero.
Proof.
  intros H Ha Hb.
  apply (calculate_cosine_unfold query_words doc_words_freq Ha Hb).
  right; right. apply dot_product_of_disjoint.
  intros w Hw. apply H. now apply In_keys_Counter.
Qed.

Lemma calculate_cosine_disjoint_witness :
  calculate_cosine ["kuliner"; "enak"]%string
    [("pantai", 2); ("bali", 3); ("sunset", 1); ("indah", 2)]%string
  = Ok F64.zero.
Proof.
  apply calculate_cosine_disjoint.
  - intros w [<- | [<- | []]]; reflexivity.
  - reflexivity.
  - reflexivity.
Defined.

(** X8. The value of [calculate_cosine] on a table of frequencies that are
    not negative: no exception, and a number between 0.0 and
    1 + 2 ^ -50. *)
Theorem calculate_cosine_range (query_words : list string)
  (doc_words_freq : freq_map) :
  Forall (fun n => 0 <= n) (values doc_words_freq) ->
  sum_squares (values (Counter query_words)) < 2 ^ 1000 ->
  sum_squares (values doc_words_freq) < 2 ^ 1000 ->
  exists r,
    calculate_cosine query_words doc_words_freq = Ok r /\
    F64.leb F64.zero r = true /\ F64.leb r F64Error.just_above_one = true.
Proof.
  intros Hd Ha Hb.
  assert (T : 2 ^ 1000 < 2 ^ 1023) by (apply Z.pow_lt_mono_r; lia).
  pose proof (sum_squares_nonneg (values (Counter query_words))) as Pa.
  pose proof (sum_squares_nonneg (values doc_words_freq)) as Pb.
  destruct (Counter_invariant query_words) as (NC & PC & _).
  assert (D0 : 0 <= dot_product_of (Counter query_words) doc_words_freq).
  { apply dot_product_of_nonneg; [| exact Hd].
    eapply Forall_impl; [| exact PC]. cbn. intros; lia. }
  pose proof (dot_product_of_bound (Counter query_words) doc_words_freq NC) as CS.
  destruct (calculate_cosine_unfold query_words doc_words_freq
              ltac:(lia) ltac:(lia)) as [Z0 NZ].
  set (a := sum_squares (values (Counter query_words))) in *.
  set (b := sum_squares (values doc_words_freq)) in *.
  set (dot := dot_product_of (Counter query_words) doc_words_freq) in *.
  destruct (Z.eq_dec a 0) as [A0 | A0];
    [exists F64.zero; split; [apply Z0; auto | split; reflexivity] |].
  destruct (Z.eq_dec b 0) as [B0 | B0];
    [exists F64.zero; split; [apply Z0; auto | split; reflexivity] |].
  destruct (Z.eq_dec dot 0) as [E0 | E0];
    [exists F64.zero; split; [apply Z0; auto | split; reflexivity] |].
  destruct (NZ ltac:(lia) ltac:(lia) ltac:(lia))
    as (fa & fb & fdot & Ea & Eb & Ed & ->).
  eexists. split; [reflexivity |].
  destruct (F64Error.cosine_pipeline_bounds a b dot fa fb fdot
              ltac:(lia) ltac:(lia) ltac:(lia) CS Ea Eb Ed) as (L & U & _).
  auto.
Qed.

Lemma calculate_cosine_range_witness :
  exists r,
    calculate_cosine ["aa"; "aa"; "bb"; "bb"; "bb"]%string
      [("aa", 2); ("bb", 3)]%string = Ok r /\
    F64.leb F64.one r = true /\ F64.eqb r F64.one = false /\
    F64.leb r F64Error.just_above_one = true.
Proof.
  destruct (calculate_cosine_range ["aa"; "aa"; "bb"; "bb"; "bb"]%string
              [("aa", 2); ("bb", 3)]%string) as (r & E & _ & U).
  - repeat constructor; cbn; lia.
  - reflexivity.
  - reflexivity.
  - exists r. split; [exact E |].
    assert (E' : calculate_cosine ["aa"; "aa"; "bb"; "bb"; "bb"]%string
                   [("aa", 2); ("bb", 3)]%string
                 = Ok (S754_finite false 4503599627370497 (-52)))
      by (vm_compute; reflexivity).
    rewrite E' in E. injection E as <-. repeat split; trivial.
Defined.

(** X9. On a table that holds [k > 0] times the counts of the query, the
    cosine is within 2 ^ -50 of 1.0. *)
Theorem calculate_cosine_multiple_near_one (k : Z) (query_words : list string)
  (doc_words_freq : freq_map) :
  0 < k -> query_words <> [] ->
  scalar_multiple k query_words doc_words_freq ->
  sum_squares (values doc_words_freq) < 2 ^ 1000 ->
  exists r,
    calculate_cosine query_words doc_words_freq = Ok r /\
    F64.leb F64Error.just_below_one r = true /\
    F64.leb r F64Error.just_above_one = true.
Proof.
  intros Hk Hq Hs Hb.
  assert (T : 2 ^ 1000 < 2 ^ 1023) by (apply Z.pow_lt_mono_r; lia).
  destruct (scalar_multiple_integers k query_words doc_words_freq Hk Hq Hs)
    as (Ha & Eb & Ed).
  destruct (calculate_cosine_unfold query_words doc_words_freq) as [_ NZ].
  1, 2: rewrite Eb in Hb; nia.
  set (a := sum_squares (values (Counter query_words))) in *.
  set (b := sum_squares (values doc_words_freq)) in *.
  set (dot := dot_product_of (Counter query_words) doc_words_freq) in *.
  assert (Hab : a <= b /\ 0 < dot /\ 0 < b) by (rewrite Eb, Ed; nia).
  assert (Hsq : dot * dot = a * b) by (rewrite Eb, Ed; ring).
  destruct (NZ ltac:(lia) ltac:(lia) ltac:(lia))
    as (fa & fb & fdot & Ea & Efb & Efd & ->).
  eexists. split; [reflexivity |].
  destruct (F64Error.cosine_pipeline_bounds a b dot fa fb fdot
              ltac:(lia) ltac:(lia) ltac:(lia) ltac:(lia) Ea Efb Efd)
    as (_ & U & L).
  auto.
Qed.

Lemma calculate_cosine_multiple_near_one_witness :
  exists r,
    calculate_cosine ["aa"; "bb"]%string [("aa", 1); ("bb", 1)]%string = Ok r /\
    F64.eqb r F64.one = false /\
    F64.leb F64Error.just_below_one r = true /\
    F64.leb r F64Error.just_above_one = true.
Proof.
  destruct (calculate_cosine_multiple_near_one 1 ["aa"; "bb"]%string
              [("aa", 1); ("bb", 1)]%string) as (r & E & L & U).
  - lia.
  - discriminate.
  - split.
    + cbn. repeat constructor; cbn; intuition discriminate.
    + intros w.
      change (Counter ["aa"; "bb"]%string) with [("aa", 1); ("bb", 1)]%string.
      cbn [dict_get].
      destruct (String.eqb "aa" w); [reflexivity |].
      destruct (String.eqb "bb" w); reflexivity.
  - reflexivity.
  - exists r. split; [exact E |].
    assert (E' : calculate_cosine ["aa"; "bb"]%string [("aa", 1); ("bb", 1)]%string
                 = Ok (S754_finite false 9007199254740990 (-53)))
      by (vm_compute; reflexivity).
    rewrite E' in E. injection E as <-. repeat split; trivial.
Defined.



(** X10. The test for a zero magnitude is enough: [calculate_cosine] never
    divides by zero, whatever the table holds.  All it can raise is the
    [OverflowError] of a conversion to [float]. *)
Theorem calculate_cosine_raises_only_overflow (query_words : list string)
  (doc_words_freq : freq_map) (e : exn) :
  calculate_cosine query_words doc_words_freq = Raise e -> e = OverflowError.
Proof.
  unfold calculate_cosine, math_sqrt.
  pose proof (sum_squares_nonneg (values (Counter query_words))) as Pa.
  pose proof (sum_squares_nonneg (values doc_words_freq)) as Pb.
  set (a := sum_squares (values (Counter query_words))) in *.
  set (b := sum_squares (values doc_words_freq)) in *.
  assert (O : forall n x, F64.of_int n = Raise x -> x = OverflowError).
  { intros n x. unfold F64.of_int.
    destruct (binary_normalize _ _ _ _ _); congruence. }
  assert (G : forall n f, 0 <= n -> F64.of_int n = Ok f ->
              F64.eqb (F64.sqrt f) F64.zero = false -> ge_one (F64.sqrt f)).
  { intros n f Hn Ef Hz. destruct (Z.eq_dec n 0) as [-> | Hne].
    - rewrite of_int_zero in Ef. injection Ef as <-. discriminate.
    - apply sqrt_ge_one. eapply of_int_ge_one; [| eassumption]. lia. }
  destruct (F64.of_int a) as [fa | xa] eqn:Ea; cbn [bind];
    [| intros [= E']; subst; eauto].
  destruct (F64.of_int b) as [fb | xb] eqn:Eb; cbn [bind];
    [| intros [= E']; subst; eauto].
  destruct (F64.eqb (F64.sqrt fa) F64.zero) eqn:Za; cbn [orb]; [discriminate |].
  destruct (F64.eqb (F64.sqrt fb) F64.zero) eqn:Zb; [discriminate |].
  destruct (F64.of_int (dot_product_of _ _)) as [fd | xd] eqn:Ed; cbn [bind];
    [| intros [= E']; subst; eauto].
  unfold F64.float_divide.
  rewrite (ge_one_nonzero _ (mul_ge_one _ _ (G a fa Pa Ea Za) (G b fb Pb Eb Zb))).
  discriminate.
Qed.

Lemma calculate_cosine_raises_only_overflow_witness :
  exists e,
    calculate_cosine ["aa"]%string [("aa"%string, 2 ^ 512)] = Raise e /\
    e = OverflowError.
Proof.
  assert (H : calculate_cosine ["aa"]%string [("aa"%string, 2 ^ 512)]
              = Raise OverflowError) by (vm_compute; reflexivity).
  exists OverflowError. split; [exact H |].
  exact (calculate_cosine_raises_only_overflow _ _ _ H).
Defined.

(** ** The corpus of the BM25 model *)

Lemma counter_add_fresh (w : string) (c : dict string Z) :
  ~ In w (keys c) -> counter_add w c = c ++ [(w, 1)].
Proof.
  unfold keys. induction c as [| [k n] c IH]; cbn; intros H; [reflexivity |].
  destruct (String.eqb_spec k w) as [-> | _]; [tauto |].
  f_equal. apply IH. tauto.
Qed.

Lemma counter_add_last (w : string) (n : Z) (c : dict string Z) :
  ~ In w (keys c) -> counter_add w (c ++ [(w, n)]) = c ++ [(w, n + 1)].
Proof.
  unfold keys. induction c as [| [k m] c IH]; cbn; intros H.
  - now rewrite String.eqb_refl.
  - destruct (String.eqb_spec k w) as [-> | _]; [tauto |].
    f_equal. apply IH. tauto.
Qed.

Lemma Counter_repeat (w : string) (n : nat) (k : Z) (c : dict string Z) :
  ~ In w (keys c) ->
  fold_left (fun c w => counter_add w c) (repeat w n) (c ++ [(w, k)])
  = c ++ [(w, k + Z.of_nat n)].
Proof.
  intros H. revert k; induction n as [| n IH]; intros k; cbn [repeat fold_left].
  - now rewrite Z.add_0_r.
  - rewrite counter_add_last, IH by exact H. do 3 f_equal. lia.
Qed.

Lemma Counter_expand_tokens (table : freq_map) (c : dict string Z) :
  NoDup (keys c ++ keys table) -> Forall (fun n => 0 < n) (values table) ->
  fold_left (fun c w => counter_add w c) (expand_tokens table) c = c ++ table.
Proof.
  revert c; induction table as [| [w f] table IH]; intros c N P.
  - cbn. now rewrite app_nil_r.
  - unfold expand_tokens in *. cbn [flat_map]. rewrite fold_left_app.
    inversion P as [| ? ? Hf P']; subst. cbn [snd] in Hf.
    assert (Hw : ~ In w (keys c)).
    { cbn in N. apply NoDup_remove_2 in N. intros C. apply N.
      apply in_or_app. now left. }
    destruct (Z.to_nat f) as [| n] eqn:Ef; [lia |].
    cbn [repeat fold_left]. rewrite counter_add_fresh by exact Hw.
    rewrite Counter_repeat by exact Hw.
    rewrite IH.
    + replace (1 + Z.of_nat n) with f by lia. now rewrite <- app_assoc.
    + unfold keys in *. rewrite map_app. cbn [map fst].
      rewrite <- app_assoc. exact N.
    + exact P'.
Qed.

(** X11. [_build_bm25] hands the external model one token list per entry of
    the index, in the order of the identifier map, and the token list of
    a document carries exactly its term frequencies: counting its tokens
    gives the frequency table back. *)
Theorem build_bm25_corpus (new_BM25Okapi : list (list string) -> BM25Okapi)
  (index : dict Z freq_map) (data : dict Z doc_data) :
  let self := init new_BM25Okapi index data in
  exists bm25_corpus,
    bm25_model self = new_BM25Okapi bm25_corpus /\
    List.length bm25_corpus = List.length (bm25_id_map self) /\
    bm25_id_map self = keys (inverted_index self) /\
    forall i doc_id table,
      nth_error index i = Some (doc_id, table) ->
      nth_error (bm25_id_map self) i = Some doc_id /\
      exists tokens,
        nth_error bm25_corpus i = Some tokens /\
        (forall w, In w tokens -> In w (keys table)) /\
        (NoDup (keys table) -> Forall (fun n => 0 < n) (values table) ->
         Counter tokens = table).
Proof.
  intros self.
  exists (map (fun '(_, table) => expand_tokens table) index).
  split; [reflexivity |]. split; [cbn; now rewrite !length_map |].
  split; [reflexivity |].
  intros i doc_id table H. cbn [self init bm25_id_map].
  split; [now rewrite nth_error_map, H |].
  exists (expand_tokens table). split; [now rewrite nth_error_map, H |]. split.
  - intros w Hw. unfold expand_tokens in Hw.
    apply in_flat_map in Hw as ([w' f] & Hin & Hw).
    apply repeat_spec in Hw. subst w'.
    unfold keys. apply in_map_iff. now exists (w, f).
  - intros N P. unfold Counter.
    now rewrite (Counter_expand_tokens table []).
Qed.

Lemma build_bm25_corpus_witness :
  exists bm25_corpus tokens,
    bm25_model TestData.calculator = TestData.sample_model bm25_corpus /\
    nth_error bm25_corpus 0 = Some tokens /\
    Counter tokens
    = [("wisata", 3); ("pantai", 2); ("bali", 1); ("indah", 1)]%string.
Proof.
  destruct (build_bm25_corpus TestData.sample_model TestData.index TestData.data)
    as (bm25_corpus & E & _ & _ & H).
  destruct (H 0%nat 1 [("wisata", 3); ("pantai", 2); ("bali", 1); ("indah", 1)]%string
              eq_refl)
    as (_ & tokens & Et & _ & C).
  exists bm25_corpus, tokens. split; [exact E |]. split; [exact Et |].
  apply C.
  - cbn. repeat constructor; cbn; intuition discriminate.
  - cbn. repeat constructor.
Defined.

(** ** The search page *)

Lemma In_range (start stop i : Z) :
  In i (range start stop) <-> start <= i < stop.
Proof.
  unfold range. rewrite in_map_iff. split.
  - intros (k & <- & Hk). apply in_seq in Hk. lia.
  - intros H. exists (Z.to_nat (i - start)). split; [lia |].
    apply in_seq. lia.
Qed.

Lemma length_range (start stop : Z) :
  List.length (range start stop) = Z.to_nat (stop - start).
Proof. unfold range. now rewrite length_map, length_seq. Qed.

Lemma range_sorted (start stop : Z) : StronglySorted Z.lt (range start stop).
Proof.
  unfold range. generalize (Z.to_nat (stop - start)) as k. intros k.
  generalize 0%nat as s. induction k as [| k IH]; intros s; cbn; constructor;
    [apply IH |].
  apply Forall_forall. intros x Hx.
  apply in_map_iff in Hx as (j & <- & Hj). apply in_seq in Hj. lia.
Qed.

Lemma range_snoc (start stop : Z) :
  start <= stop -> range start (stop + 1) = range start stop ++ [stop].
Proof.
  intros H. unfold range.
  replace (Z.to_nat (stop + 1 - start)) with (S (Z.to_nat (stop - start))) by lia.
  rewrite seq_S, map_app. cbn. do 2 f_equal. lia.
Qed.

(** A slice between two indices that are not negative. *)
Lemma slice_nonneg {A : Type} (l : list A) (start stop : Z) :
  0 <= start -> 0 <= stop ->
  slice l start stop = skipn (Z.to_nat start) (firstn (Z.to_nat stop) l).
Proof.
  intros Ha Hb. unfold slice, len.
  destruct (Z.ltb_spec start 0); [lia |]. destruct (Z.ltb_spec stop 0); [lia |].
  set (n := List.length l).
  assert (F : firstn (Z.to_nat (Z.min stop (Z.of_nat n))) l
              = firstn (Z.to_nat stop) l).
  { destruct (Z.le_gt_cases stop (Z.of_nat n)).
    - now rewrite Z.min_l.
    - rewrite Z.min_r, Nat2Z.id by lia.
      rewrite !firstn_all2; trivial; unfold n in *; lia. }
  rewrite F.
  destruct (Z.le_gt_cases start (Z.of_nat n)); [now rewrite Z.min_l |].
  rewrite Z.min_r, Nat2Z.id by lia.
  rewrite !skipn_all2; trivial; rewrite length_firstn; unfold n in *; lia.
Qed.

Lemma length_slice {A : Type} (l : list A) (start stop : Z) :
  0 <= start -> 0 <= stop ->
  len (slice l start stop) = Z.max 0 (Z.min stop (len l) - start).
Proof.
  intros Ha Hb. rewrite slice_nonneg by trivial. unfold len.
  rewrite length_skipn, length_firstn. lia.
Qed.

Lemma firstn_slice {A : Type} (l : list A) (start stop : Z) :
  0 <= start <= stop ->
  firstn (Z.to_nat start) l ++ slice l start stop = firstn (Z.to_nat stop) l.
Proof.
  intros H. rewrite slice_nonneg by lia.
  rewrite <- (firstn_skipn (Z.to_nat start) (firstn (Z.to_nat stop) l)) at 2.
  f_equal. rewrite firstn_firstn. f_equal. lia.
Qed.

(** Cutting a list into consecutive slices of [size] elements and
    joining the first [k] of them gives its first [k * size] elements. *)
Lemma slices_join {A : Type} (l : list A) (size : Z) (k : nat) :
  0 < size ->
  flat_map (fun p => slice l ((p - 1) * size) ((p - 1) * size + size))
    (range 1 (Z.of_nat k + 1))
  = firstn (Z.to_nat (Z.of_nat k * size)) l.
Proof.
  intros Hs. induction k as [| k IH].
  - reflexivity.
  - replace (Z.of_nat (S k) + 1) with (Z.of_nat k + 1 + 1) by lia.
    rewrite range_snoc by lia. rewrite flat_map_app, IH. cbn [flat_map].
    rewrite app_nil_r.
    replace (Z.of_nat k + 1 - 1) with (Z.of_nat k) by lia.
    replace (Z.of_nat k * size + size) with (Z.of_nat (S k) * size) by lia.
    apply firstn_slice. nia.
Qed.

(** What [search_results] returns, from what [search] returned. *)
Definition validated (algorithm : string) : string :=
  if existsb (String.eqb algorithm) ["jaccard"; "cosine"; "bm25"]%string
  then algorithm else "jaccard"%string.

Definition clamped (total_pages page : Z) : Z :=
  if page <? 1 then 1
  else if (total_pages <? page) && (0 <? total_pages) then total_pages
  else page.

Lemma search_results_returns {U : Unicode}
  (calc : SimilarityCalculator) (query : string)
  (category : option string) (algorithm : string) (page : Z) (pg : Page) :
  search_results calc query category algorithm page = Ok pg ->
  exists all_results,
    search calc query (validated algorithm) category min_similarity_shown
    = Ok all_results /\
    let tp := (len all_results + 10 - 1) / 10 in
    let cp := clamped tp page in
    pg = {| page_query := query;
            results := slice all_results ((cp - 1) * 10) ((cp - 1) * 10 + 10);
            total_results := len all_results;
            total_pages := tp;
            current_page := cp;
            page_range := range (Z.max 1 (cp - 2)) (Z.min tp (cp + 2) + 1);
            page_category := category;
            page_algorithm := validated algorithm |}.
Proof.
  unfold search_results. fold (validated algorithm).
  destruct (search calc query (validated algorithm) category min_similarity_shown)
    as [all_results | e]; cbn [bind]; [| discriminate].
  intros [= <-]. exists all_results. split; reflexivity.
Qed.

Lemma clamped_spec (tp page : Z) :
  0 <= tp ->
  1 <= clamped tp page /\
  (0 < tp -> clamped tp page <= tp) /\
  (1 <= page <= tp -> clamped tp page = page) /\
  (page < 1 -> clamped tp page = 1) /\
  (0 < tp < page -> clamped tp page = tp) /\
  (tp = 0 -> 1 <= page -> clamped tp page = page).
Proof.
  intros H. unfold clamped.
  destruct (Z.ltb_spec page 1), (Z.ltb_spec tp page), (Z.ltb_spec 0 tp);
    cbn [andb]; lia.
Qed.

Lemma pages_spec (n : Z) :
  0 <= n ->
  let tp := (n + 10 - 1) / 10 in
  0 <= tp /\ 10 * (tp - 1) < n <= 10 * tp /\ (n = 0 -> tp = 0).
Proof.
  intros Hn tp.
  pose proof (Z.div_mod (n + 10 - 1) 10 ltac:(lia)) as D.
  pose proof (Z.mod_pos_bound (n + 10 - 1) 10 ltac:(lia)) as B.
  fold tp in D. lia.
Qed.

(** X13. The page: the number of pages is the number of results divided by
    ten, rounded up.  The page shown is the one asked for when that is a
    page there is; a number below 1 becomes 1; a number beyond the last
    page becomes the last page when there is a page, and is kept when
    there is no result at all, with nothing to show.  A page holds at
    most ten results, ten when it is not the last, and at least one when
    there is any result. *)
Theorem search_results_page {U : Unicode}
  (calc : SimilarityCalculator) (query : string)
  (category : option string) (algorithm : string) (page : Z) (pg : Page) :
  search_results calc query category algorithm page = Ok pg ->
  0 <= total_results pg /\
  10 * (total_pages pg - 1) < total_results pg <= 10 * total_pages pg /\
  1 <= current_page pg /\
  (1 <= page <= total_pages pg -> current_page pg = page) /\
  (0 < total_pages pg -> current_page pg <= total_pages pg) /\
  (0 < total_pages pg < page -> current_page pg = total_pages pg) /\
  (page < 1 -> current_page pg = 1) /\
  (total_pages pg = 0 ->
   total_results pg = 0 /\ results pg = [] /\
   (1 <= page -> current_page pg = page)) /\
  len (results pg) <= 10 /\
  (0 < total_results pg -> 0 < len (results pg)) /\
  (current_page pg < total_pages pg -> len (results pg) = 10).
Proof.
  intros H. destruct (search_results_returns _ _ _ _ _ _ H) as (all_results & _ & ->).
  cbn [total_results total_pages current_page results].
  assert (Hn : 0 <= len all_results) by (unfold len; lia).
  destruct (pages_spec (len all_results) Hn) as (T0 & T1 & T2).
  set (tp := (len all_results + 10 - 1) / 10) in *.
  destruct (clamped_spec tp page T0) as (C1 & C2 & C3 & C4 & C5 & C6).
  set (cp := clamped tp page) in *.
  assert (E0 : tp = 0 -> all_results = []).
  { intros E. destruct all_results as [| r l]; [reflexivity |].
    assert (0 < len (r :: l)) by (unfold len; cbn [List.length]; lia). lia. }
  rewrite length_slice by lia.
  split; [lia |]. split; [lia |]. split; [lia |]. split; [exact C3 |].
  split; [exact C2 |]. split; [exact C5 |]. split; [exact C4 |].
  split.
  { intros E. rewrite (E0 E). cbn [len List.length Z.of_nat].
    split; [reflexivity |]. split; [| now apply C6].
    unfold slice. now rewrite firstn_nil, skipn_nil. }
  split; [lia |]. split; lia.
Qed.

Lemma search_results_page_witness :
  exists pg,
    search_results TestData.calculator "indah" None "jaccard" 7 = Ok pg /\
    total_results pg = 3 /\ total_pages pg = 1 /\ current_page pg = 1 /\
    0 < len (results pg) <= 10.
Proof.
  assert (H : exists pg,
             search_results TestData.calculator "indah" None "jaccard" 7 = Ok pg /\
             total_results pg = 3 /\ total_pages pg = 1)
    by (eexists; split; [vm_compute; reflexivity | split; reflexivity]).
  destruct H as (pg & H & N & T). exists pg.
  destruct (search_results_page _ _ _ _ _ _ H)
    as (_ & _ & _ & _ & _ & C & _ & _ & L & P & _).
  split; [exact H |]. split; [exact N |]. split; [exact T |].
  split; [rewrite <- T; apply C; lia |].
  split; [apply P; lia | exact L].
Defined.

Lemma flat_map_ext_seen {A B : Type} (f g : A -> list B) (l : list A) :
  (forall a, In a l -> f a = g a) -> flat_map f l = flat_map g l.
Proof.
  induction l as [| a l IH]; intros H; cbn; [reflexivity |].
  rewrite (H a) by now left. f_equal. apply IH. intros; apply H; now right.
Qed.

(** X14. The pages cut the results without loss and without repetition:
    joined in order, the pages 1 to [total_pages] are the list [search]
    returned. *)
Theorem search_results_pages_cover {U : Unicode} (calc : SimilarityCalculator)
  (query : string) (category : option string) (algorithm : string)
  (all_results : list ScoredResult) :
  search calc query (validated algorithm) category min_similarity_shown
  = Ok all_results ->
  let total := (len all_results + 10 - 1) / 10 in
  (forall page, 1 <= page <= total ->
     exists pg,
       search_results calc query category algorithm page = Ok pg /\
       current_page pg = page /\ total_pages pg = total) /\
  flat_map
    (fun page =>
       match search_results calc query category algorithm page with
       | Ok pg => results pg
       | Raise _ => []
       end)
    (range 1 (total + 1))
  = all_results.
Proof.
  intros H total.
  assert (Hn : 0 <= len all_results) by (unfold len; lia).
  destruct (pages_spec (len all_results) Hn) as (T0 & T1 & _). fold total in T0, T1.
  assert (E : forall page, 1 <= page <= total ->
              search_results calc query category algorithm page
              = Ok {| page_query := query;
                      results := slice all_results ((page - 1) * 10)
                                   ((page - 1) * 10 + 10);
                      total_results := len all_results;
                      total_pages := total;
                      current_page := page;
                      page_range :=
                        range (Z.max 1 (page - 2)) (Z.min total (page + 2) + 1);
                      page_category := category;
                      page_algorithm := validated algorithm |}).
  { intros page Hp. unfold search_results. fold (validated algorithm).
    rewrite H. cbn [bind]. fold total.
    destruct (clamped_spec total page T0) as (_ & _ & C & _).
    unfold clamped in C. rewrite (C Hp). reflexivity. }
  split.
  - intros page Hp. eexists. split; [apply E; exact Hp |]. split; reflexivity.
  - rewrite (flat_map_ext_seen _
               (fun page => slice all_results ((page - 1) * 10)
                              ((page - 1) * 10 + 10))).
    + rewrite <- (Z2Nat.id total T0) at 1.
      rewrite slices_join by lia.
      apply firstn_all2. unfold len in T1. lia.
    + intros page. rewrite In_range. intros Hp. rewrite E by lia. reflexivity.
Qed.

Lemma search_results_pages_cover_witness :
  exists all_results,
    search TestData.calculator "indah" "cosine" None min_similarity_shown
    = Ok all_results /\
    (len all_results + 10 - 1) / 10 = 1 /\
    match search_results TestData.calculator "indah" None "cosine" 1 with
    | Ok pg => results pg
    | Raise _ => []
    end ++ [] = all_results.
Proof.
  assert (H : exists all_results,
             search TestData.calculator "indah" (validated "cosine") None
               min_similarity_shown = Ok all_results /\
             (len all_results + 10 - 1) / 10 = 1)
    by (eexists; split; [vm_compute; reflexivity | reflexivity]).
  destruct H as (all_results & H & T). exists all_results.
  split; [exact H |]. split; [exact T |].
  destruct (search_results_pages_cover TestData.calculator "indah" None "cosine"
              all_results H) as (_ & C).
  rewrite T in C. exact C.
Defined.

(** X15. The page numbers offered for navigation are the pages that exist
    among the two before and the two after the page shown: at most five,
    in ascending order, the page shown among them when there is any
    page. *)
Theorem search_results_page_range {U : Unicode} (calc : SimilarityCalculator)
  (query : string) (category : option string) (algorithm : string)
  (page : Z) (pg : Page) :
  search_results calc query category algorithm page = Ok pg ->
  (forall i, In i (page_range pg) <->
     1 <= i <= total_pages pg /\ current_page pg - 2 <= i <= current_page pg + 2) /\
  (List.length (page_range pg) <= 5)%nat /\
  StronglySorted Z.lt (page_range pg) /\
  (0 < total_pages pg -> In (current_page pg) (page_range pg)) /\
  (total_pages pg = 0 -> page_range pg = [] /\ results pg = []).
Proof.
  intros H. destruct (search_results_returns _ _ _ _ _ _ H) as (all_results & _ & ->).
  cbn [total_pages current_page page_range results].
  assert (Hn : 0 <= len all_results) by (unfold len; lia).
  destruct (pages_spec (len all_results) Hn) as (T0 & T1 & T2).
  set (tp := (len all_results + 10 - 1) / 10) in *.
  destruct (clamped_spec tp page T0) as (C1 & C2 & _).
  set (cp := clamped tp page) in *.
  split; [| split; [| split; [| split]]].
  - intros i. rewrite In_range. lia.
  - rewrite length_range. lia.
  - apply range_sorted.
  - intros Hp. apply In_range. specialize (C2 Hp). lia.
  - intros E. split.
    + assert (L : List.length (range (Z.max 1 (cp - 2)) (Z.min tp (cp + 2) + 1)) = 0%nat)
        by (rewrite length_range; lia).
      now destruct (range _ _).
    + assert (L : len (slice all_results ((cp - 1) * 10) ((cp - 1) * 10 + 10)) = 0)
        by (rewrite length_slice; lia).
      unfold len in L. now destruct (slice _ _ _).
Qed.

Lemma search_results_page_range_witness :
  exists pg,
    search_results TestData.calculator "indah" None "jaccard" 1 = Ok pg /\
    page_range pg = [1] /\
    (List.length (page_range pg) <= 5)%nat.
Proof.
  assert (H : exists pg,
             search_results TestData.calculator "indah" None "jaccard" 1 = Ok pg /\
             page_range pg = [1])
    by (eexists; split; [vm_compute; reflexivity | reflexivity]).
  destruct H as (pg & H & R). exists pg.
  destruct (search_results_page_range _ _ _ _ _ _ H) as (_ & L & _).
  auto.
Defined.

Lemma In_firstn_seen {A : Type} (n : nat) (l : list A) (x : A) :
  In x (firstn n l) -> In x l.
Proof.
  intros H. rewrite <- (firstn_skipn n l). apply in_or_app. now left.
Qed.

Lemma In_skipn_seen {A : Type} (n : nat) (l : list A) (x : A) :
  In x (skipn n l) -> In x l.
Proof.
  intros H. rewrite <- (firstn_skipn n l). apply in_or_app. now right.
Qed.

Lemma slice_incl {A : Type} (l : list A) (start stop : Z) (x : A) :
  In x (slice l start stop) -> In x l.
Proof.
  unfold slice. intros H. apply In_skipn_seen in H.
  now apply In_firstn_seen in H.
Qed.

Lemma StronglySorted_firstn {A : Type} (R : A -> A -> Prop) (n : nat) (l : list A) :
  StronglySorted R l -> StronglySorted R (firstn n l).
Proof.
  revert n; induction l as [| x l IH]; intros [| n] H; cbn; try constructor.
  - inversion H; subst. now apply IH.
  - inversion H as [| ? ? _ Hx]; subst.
    apply Forall_forall. intros y Hy. rewrite Forall_forall in Hx.
    apply Hx. eapply In_firstn_seen. exact Hy.
Qed.

Lemma StronglySorted_skipn {A : Type} (R : A -> A -> Prop) (n : nat) (l : list A) :
  StronglySorted R l -> StronglySorted R (skipn n l).
Proof.
  revert n; induction l as [| x l IH]; intros [| n] H; cbn; trivial.
  inversion H; subst. now apply IH.
Qed.

(** X16. What a page shows: the handler keeps the algorithm asked for when
    it is jaccard, cosine or bm25 and takes jaccard for any other, so
    that a request never reaches the branch of [search] that scores
    every document 0.0; it runs [search] with that algorithm and the
    threshold 0.01, counts the results and shows some of them; those it
    shows have a similarity of at least 0.01 and come by descending
    similarity. *)
Theorem search_results_shown {U : Unicode}
  (calc : SimilarityCalculator) (query : string)
  (category : option string) (algorithm : string) (page : Z) (pg : Page) :
  search_results calc query category algorithm page = Ok pg ->
  In (page_algorithm pg) ["jaccard"; "cosine"; "bm25"]%string /\
  (In algorithm ["jaccard"; "cosine"; "bm25"]%string ->
   page_algorithm pg = algorithm) /\
  (~ In algorithm ["jaccard"; "cosine"; "bm25"]%string ->
   page_algorithm pg = "jaccard"%string) /\
  (exists all_results,
     search calc query (page_algorithm pg) category min_similarity_shown
     = Ok all_results /\
     total_results pg = len all_results /\
     forall r, In r (results pg) -> In r all_results) /\
  Forall (fun r => F64.geb (similarity r) min_similarity_shown = true
                   /\ F64.eqb (similarity r) F64.zero = false)
    (results pg) /\
  StronglySorted (fun a b => F64.geb (similarity a) (similarity b) = true)
    (results pg).
Proof.
  intros H. destruct (search_results_returns _ _ _ _ _ _ H) as (all_results & S & ->).
  cbn [page_algorithm results total_results].
  assert (V : In (validated algorithm) ["jaccard"; "cosine"; "bm25"]%string /\
              (In algorithm ["jaccard"; "cosine"; "bm25"]%string ->
               validated algorithm = algorithm) /\
              (~ In algorithm ["jaccard"; "cosine"; "bm25"]%string ->
               validated algorithm = "jaccard"%string)).
  { unfold validated.
    destruct (existsb _ _) eqn:E.
    - apply existsb_exists in E as (x & Hx & E).
      apply String.eqb_eq in E. subst x.
      split; [exact Hx |]. split; [reflexivity |]. intros N. contradiction.
    - split; [now left |]. split; [| reflexivity]. intros Hin. exfalso.
      assert (existsb (String.eqb algorithm)
                ["jaccard"; "cosine"; "bm25"]%string = true); [| congruence].
      apply existsb_exists. exists algorithm. split; [exact Hin |].
      apply String.eqb_refl. }
  destruct V as (V1 & V2 & V3).
  split; [exact V1 |]. split; [exact V2 |]. split; [exact V3 |].
  split.
  { exists all_results. split; [exact S |]. split; [reflexivity |].
    intros r. apply slice_incl. }
  assert (G : Forall (fun r => F64.geb (similarity r) min_similarity_shown = true)
                all_results /\
              StronglySorted
                (fun a b => F64.geb (similarity a) (similarity b) = true)
                all_results).
  { destruct (preprocess_query query) as [| w ws] eqn:Q.
    - unfold search in S. rewrite Q in S. injection S as <-.
      split; constructor.
    - assert (Q' : preprocess_query query <> []) by (rewrite Q; discriminate).
      destruct (search_returns _ _ _ _ _ _ Q' S) as (bm25 & _ & _ & ->).
      split.
      + apply Forall_forall. intros r Hr.
        apply (Permutation_in _ (Permutation_sym (sort_reverse_perm similarity _)))
          in Hr.
        apply in_flat_map in Hr as (item & _ & Hr).
        now apply in_emitted in Hr as (_ & _ & Hg & _).
      + apply (sort_reverse_sorted similarity). apply emitted_no_nan. }
  destruct G as [G1 G2]. split.
  - apply Forall_forall. intros r Hr. apply slice_incl in Hr.
    rewrite Forall_forall in G1. specialize (G1 r Hr). split; [exact G1 |].
    unfold F64.geb in G1. unfold F64.eqb.
    destruct (similarity r) as [[] | [] | | [] m e]; try reflexivity;
      discriminate.
  - unfold slice. apply StronglySorted_skipn. now apply StronglySorted_firstn.
Qed.

Lemma search_results_shown_witness :
  exists pg,
    search_results TestData.calculator "pantai bali" None "tfidf" 1 = Ok pg /\
    page_algorithm pg = "jaccard"%string /\ results pg <> [] /\
    Forall (fun r => F64.eqb (similarity r) F64.zero = false) (results pg).
Proof.
  assert (H : exists pg,
             search_results TestData.calculator "pantai bali" None "tfidf" 1
             = Ok pg /\
             page_algorithm pg = "jaccard"%string /\ results pg <> [])
    by (eexists; split; [vm_compute; reflexivity | split; [reflexivity | discriminate]]).
  destruct H as (pg & H & A & N). exists pg.
  destruct (search_results_shown _ _ _ _ _ _ H) as (_ & _ & _ & _ & F & _).
  repeat split; trivial.
  eapply Forall_impl; [| exact F]. now intros r [_ Z0].
Defined.

(** ** Rounding is monotone *)

Lemma leb_zero_finish (m t : Z) :
  0 <= m <= 2 ^ 53 -> -1074 <= t ->
  F64.leb F64.zero (finish false m t) = true.
Proof.
  intros Hm Ht. destruct (Z.eq_dec m 0) as [-> | Hz].
  - now rewrite finish_zero.
  - rewrite finish_normal by lia.
    destruct (_ <=? 971); reflexivity.
Qed.

(** [finish] on two mantissas and exponents in the order of the values
    they stand for. *)
Lemma finish_leb (m1 t1 m2 t2 : Z) :
  0 <= m1 <= 2 ^ 53 -> 0 <= m2 <= 2 ^ 53 -> -1074 <= t1 -> -1074 <= t2 ->
  (t1 = t2 /\ m1 <= m2) \/ (t1 < t2 /\ 2 ^ 52 <= m2) ->
  F64.leb (finish false m1 t1) (finish false m2 t2) = true.
Proof.
  intros H1 H2 Ht1 Ht2 Ho.
  destruct (Z.eq_dec m1 0) as [-> | Hz1].
  { rewrite finish_zero. now apply leb_zero_finish. }
  assert (Hz2 : 0 < m2) by lia.
  rewrite !finish_normal by lia. unfold normal_pair.
  assert (P : 0 < 2 ^ 52) by (apply Z.pow_pos_nonneg; lia).
  assert (S : 2 ^ 53 = 2 * 2 ^ 52) by reflexivity.
  destruct (Z.ltb_spec m1 (2 ^ 53)), (Z.ltb_spec m2 (2 ^ 53)); cbn [fst snd];
    repeat match goal with
           | |- context [?a <=? 971] => destruct (Z.leb_spec a 971)
           end;
    try reflexivity; try (exfalso; lia);
    apply leb_finite_pos;
    match goal with
    | |- ?a < ?b \/ _ =>
        destruct (Z.eq_dec a b) as [E | E]; [right | left; lia]
    end;
    (split; [exact E |]); apply Pos.leb_le;
    rewrite <- Z2Pos.inj_leb by lia; apply Z.leb_le; lia.
Qed.

Module F64Monotone.
Import Reals Lra.
Import F64Error.
Local Open Scope R_scope.

Lemma inbetween_bounds (q : Z) (l : location) (y : R) :
  inbetween q l y -> IZR q <= y < IZR q + 1.
Proof. unfold inbetween. destruct l as [| []]; lra. Qed.

(** Rounding to the nearest integer, ties to even, is monotone. *)
Lemma round_nearest_even_mono (q1 q2 : Z) (l1 l2 : location) (y1 y2 : R) :
  inbetween q1 l1 y1 -> inbetween q2 l2 y2 -> y1 <= y2 ->
  (round_nearest_even q1 l1 <= round_nearest_even q2 l2)%Z.
Proof.
  intros H1 H2 Hy.
  pose proof (inbetween_bounds _ _ _ H1) as B1.
  pose proof (inbetween_bounds _ _ _ H2) as B2.
  destruct (round_nearest_even_bounds q1 l1) as [R1 _].
  destruct (round_nearest_even_bounds q2 l2) as [R2 _].
  destruct (Z.lt_trichotomy q1 q2) as [L | [E | G]].
  - lia.
  - subst q2. unfold inbetween, round_nearest_even in *.
    destruct l1 as [| []], l2 as [| []]; try destruct (Z.even q1);
      try lia; exfalso; lra.
  - exfalso. assert (IZR q2 + 1 <= IZR q1); [| lra].
    rewrite <- plus_IZR. apply IZR_le. lia.
Qed.

(** [f] is the rounding of the real number [v >= 0]: the integer part and
    the location of [v] on the grid of its exponent, rounded to nearest
    even and brought into shape by [finish]. *)
Definition located (f : F64.float) (v : R) : Prop :=
  exists (q : Z) (l : location) (t : Z),
    f = finish false (round_nearest_even q l) t /\
    (0 <= q < 2 ^ 53)%Z /\ (-1074 <= t)%Z /\ (-1074 < t -> 2 ^ 52 <= q)%Z /\
    inbetween q l (v * pow2 (- t)).

Lemma pow2_inv (e : Z) : pow2 (- e) = / pow2 e.
Proof.
  pose proof (pow2_opp e) as O. pose proof (pow2_gt0 e) as G.
  apply Rmult_eq_reg_r with (pow2 e); [| lra]. rewrite O. field. lra.
Qed.

Lemma located_mono (f1 f2 : F64.float) (v1 v2 : R) :
  located f1 v1 -> located f2 v2 -> v1 <= v2 -> F64.leb f1 f2 = true.
Proof.
  intros (q1 & l1 & t1 & -> & Q1 & T1 & C1 & I1)
         (q2 & l2 & t2 & -> & Q2 & T2 & C2 & I2) Hv.
  pose proof (inbetween_bounds _ _ _ I1) as B1.
  pose proof (inbetween_bounds _ _ _ I2) as B2.
  destruct (round_nearest_even_bounds q1 l1) as [R1 _].
  destruct (round_nearest_even_bounds q2 l2) as [R2 _].
  rewrite !pow2_inv in *.
  pose proof (pow2_gt0 t1) as G1. pose proof (pow2_gt0 t2) as G2.
  assert (V1 : IZR q1 * pow2 t1 <= v1 < (IZR q1 + 1) * pow2 t1).
  { assert (E : v1 = v1 * / pow2 t1 * pow2 t1) by (field; lra).
    rewrite E. split; [apply Rmult_le_compat_r | apply Rmult_lt_compat_r]; lra. }
  assert (V2 : IZR q2 * pow2 t2 <= v2 < (IZR q2 + 1) * pow2 t2).
  { assert (E : v2 = v2 * / pow2 t2 * pow2 t2) by (field; lra).
    rewrite E. split; [apply Rmult_le_compat_r | apply Rmult_lt_compat_r]; lra. }
  assert (U1 : IZR q1 + 1 <= IZR (2 ^ 53)).
  { rewrite <- plus_IZR. apply IZR_le. lia. }
  assert (U2 : IZR q2 + 1 <= IZR (2 ^ 53)).
  { rewrite <- plus_IZR. apply IZR_le. lia. }
  assert (P53 : IZR (2 ^ 53) = 2 * IZR (2 ^ 52)).
  { change (2 ^ 53)%Z with (2 * 2 ^ 52)%Z. now rewrite mult_IZR. }
  assert (P52 : 0 < IZR (2 ^ 52)) by (apply IZR_lt; reflexivity).
  apply finish_leb; try lia.
  destruct (Z.lt_trichotomy t1 t2) as [L | [E | G]].
  - right. split; [exact L |]. specialize (C2 ltac:(lia)). lia.
  - left. split; [exact E |]. subst t2.
    apply (round_nearest_even_mono q1 q2 l1 l2 _ _ I1 I2).
    apply Rmult_le_compat_r; [| exact Hv].
    apply Rlt_le. now apply Rinv_0_lt_compat.
  - exfalso.
    assert (L52 : IZR (2 ^ 52) <= IZR q1) by (apply IZR_le; apply C1; lia).
    assert (S : pow2 (t2 + 1) <= pow2 t1) by (apply pow2_le; lia).
    rewrite pow2_succ in S.
    assert (v2 < IZR (2 ^ 53) * pow2 t2) by nra.
    assert (IZR (2 ^ 52) * pow2 t1 <= v1) by nra.
    nra.
Qed.

Lemma binary_round_aux_located (q e : Z) (l : location) (y : R) :
  (0 <= q)%Z -> inbetween q l y -> (-1074 < e -> 2 ^ 52 <= q)%Z ->
  located (binary_round_aux F64.prec F64.emax false q e l) (y * pow2 e).
Proof.
  intros Hq Hy Hc.
  rewrite binary_round_aux_finish, shr_fexp_nonneg by lia. cbv zeta.
  pose proof (stage1_digits q e Hq) as S1. cbv zeta in S1.
  revert S1. rewrite fexp_eq.
  set (n := (Z.max (Zdigits2 q + e - 53) (-1074) - e)%Z).
  destruct (Z.ltb_spec 0 n) as [L | L]; intros [S1 S2].
  - pose proof (inbetween_shift q l y n Hq L Hy) as Hs.
    set (rec := shifted _ _ _ _) in *.
    exists (q / 2 ^ n)%Z, (loc_of_shr_record rec), (e + n)%Z.
    assert (P : (0 < 2 ^ n)%Z) by (apply Z.pow_pos_nonneg; lia).
    split; [| split; [| split; [| split]]].
    + unfold rec. now rewrite shifted_m, Z2Nat.id by lia.
    + split; [apply Z.div_pos; lia | exact S1].
    + exact S2.
    + intros Ht.
      assert (En : n = (Zdigits2 q - 53)%Z) by lia.
      assert (Q0 : (0 < q)%Z).
      { destruct (Z.eq_dec q 0) as [-> | Hne]; [| lia].
        change (Zdigits2 0) with 0%Z in *. lia. }
      assert (Q1 : (0 < q / 2 ^ n)%Z).
      { apply Z.div_str_pos. split; [lia |]. apply Zdigits2_ge; lia. }
      assert (D1 : Zdigits2 (q / 2 ^ n) = 53%Z).
      { rewrite Zdigits2_div_pow2 by lia. lia. }
      now destruct (digits_53 _ Q1 D1).
    + replace (y * pow2 e * pow2 (- (e + n))) with (y / IZR (2 ^ n)); [exact Hs |].
      rewrite <- (pow2_IZR n) by lia.
      replace (- (e + n))%Z with (- e + - n)%Z by lia.
      rewrite pow2_plus, !pow2_inv.
      pose proof (pow2_gt0 e). pose proof (pow2_gt0 n). field. lra.
  - destruct (shifted_record_of_loc q l) as (E1 & E2 & _).
    exists q, l, e. rewrite E1, E2.
    split; [reflexivity |]. split; [lia |]. split; [lia |]. split; [exact Hc |].
    replace (y * pow2 e * pow2 (- e)) with y; [exact Hy |].
    rewrite pow2_inv. pose proof (pow2_gt0 e). field. lra.
Qed.

(** The quotient of two positive values is the rounding of the quotient
    of the real numbers they stand for. *)
Lemma div_located (m1 m2 : positive) (e1 e2 : Z) :
  located (F64.div (S754_finite false m1 e1) (S754_finite false m2 e2))
    (F2R (S754_finite false m1 e1) / F2R (S754_finite false m2 e2)).
Proof.
  unfold F64.div, SFdiv, SFdiv_core_binary. cbn [xorb F2R].
  change (Zpos (digits2_pos m1)) with (Zdigits2 (Zpos m1)).
  change (Zpos (digits2_pos m2)) with (Zdigits2 (Zpos m2)).
  fold (fexp (Zdigits2 (Zpos m1) + e1 - (Zdigits2 (Zpos m2) + e2))).
  rewrite fexp_eq.
  pose proof (Zdigits2_bounds (Zpos m1) ltac:(lia)) as B1.
  pose proof (Zdigits2_bounds (Zpos m2) ltac:(lia)) as B2.
  set (d1 := Zdigits2 (Zpos m1)) in *. set (d2 := Zdigits2 (Zpos m2)) in *.
  assert (D1 : (0 < d1)%Z) by (apply Zdigits2_ge; lia).
  assert (D2 : (0 < d2)%Z) by (apply Zdigits2_ge; lia).
  set (e' := Z.min _ (e1 - e2)).
  set (s := (e1 - e2 - e')%Z).
  assert (Hs : (0 <= s)%Z) by (subst s e'; lia).
  rewrite (div_core_shift m1 s Hs).
  assert (Ps : (0 < 2 ^ s)%Z) by (apply Z.pow_pos_nonneg; lia).
  pose proof (Z_div_mod (Zpos m1 * 2 ^ s) (Zpos m2) ltac:(lia)) as DM.
  destruct (Z.div_eucl (Zpos m1 * 2 ^ s) (Zpos m2)) as [q r].
  destruct DM as [DM Rr].
  assert (Q0 : (0 <= q)%Z) by nia.
  assert (Py : 0 < IZR (Zpos m2)) by (apply IZR_lt; lia).
  replace (1 * IZR (Zpos m1) * pow2 e1 / (1 * IZR (Zpos m2) * pow2 e2))
    with ((IZR q + IZR r / IZR (Zpos m2)) * pow2 e').
  - apply binary_round_aux_located; [exact Q0 | |].
    + apply new_location_inbetween; [lia | reflexivity].
    + intros He.
      assert (E1 : (e' <= d1 + e1 - (d2 + e2) - 53)%Z) by (subst e'; lia).
      assert (S1 : (53 - d1 + d2 <= s)%Z) by (subst s; lia).
      assert (M1 : (2 ^ (d1 - 1) * 2 ^ s <= Zpos m1 * 2 ^ s)%Z)
        by (apply Z.mul_le_mono_nonneg_r; lia).
      rewrite <- Z.pow_add_r in M1 by lia.
      assert (M2 : (2 ^ (52 + d2) <= 2 ^ (d1 - 1 + s))%Z)
        by (apply Z.pow_le_mono_r; lia).
      rewrite Z.pow_add_r in M2 by lia.
      assert (P52 : (0 < 2 ^ 52)%Z) by (apply Z.pow_pos_nonneg; lia).
      clear - DM Rr M1 M2 B2 P52 Q0.
      generalize dependent (2 ^ 52)%Z. generalize dependent (2 ^ d2)%Z.
      generalize dependent (2 ^ (d1 - 1 + s))%Z.
      generalize dependent (Zpos m1 * 2 ^ s)%Z. intros N DM T M1 D B2 c M2 Pc.
      destruct (Z.le_gt_cases c q) as [L | G]; [exact L | exfalso; nia].
  - apply (f_equal IZR) in DM.
    rewrite plus_IZR, !mult_IZR, <- pow2_IZR in DM by lia.
    assert (Es : pow2 e1 = pow2 s * pow2 e' * pow2 e2).
    { rewrite <- !pow2_plus. f_equal. subst s. lia. }
    rewrite Es.
    pose proof (pow2_gt0 e2). pose proof (pow2_gt0 s). pose proof (pow2_gt0 e').
    replace (IZR q + IZR r / IZR (Zpos m2))
      with (IZR (Zpos m1) * pow2 s / IZR (Zpos m2))
      by (rewrite DM; field; lra).
    field. lra.
Qed.

(** Division by a positive value is monotone. *)
Lemma div_mono (m1 m2 m3 : positive) (e1 e2 e3 : Z) :
  F2R (S754_finite false m1 e1) <= F2R (S754_finite false m2 e2) ->
  F64.leb (F64.div (S754_finite false m1 e1) (S754_finite false m3 e3))
          (F64.div (S754_finite false m2 e2) (S754_finite false m3 e3)) = true.
Proof.
  intros H. eapply located_mono; [apply div_located | apply div_located |].
  assert (0 < F2R (S754_finite false m3 e3)).
  { cbn [F2R]. pose proof (pow2_gt0 e3).
    assert (0 < IZR (Zpos m3)) by (apply IZR_lt; lia). nra. }
  apply Rmult_le_compat_r; [| exact H].
  apply Rlt_le. now apply Rinv_0_lt_compat.
Qed.

Lemma pair_le_F2R (x y : F64.float) :
  F64.is_finite y = true -> pair_le x y -> F2R x <= F2R y.
Proof.
  destruct x as [| [] | | [] m1 e1], y as [| [] | | [] m2 e2];
    try contradiction; try discriminate.
  intros _ [He Hm]. cbn [F2R].
  apply IZR_le in Hm. rewrite mult_IZR, <- pow2_IZR in Hm by lia.
  assert (E : pow2 e2 = pow2 (e2 - e1) * pow2 e1).
  { rewrite <- pow2_plus. f_equal. lia. }
  rewrite E. pose proof (pow2_gt0 e1). pose proof (pow2_gt0 (e2 - e1)). nra.
Qed.

End F64Monotone.

(** ** The BM25 normalisation keeps the order of the raw scores *)

Lemma normalized_mono (mx mn r1 r2 : F64.float) :
  score_ok mx -> score_ok mn -> score_ok r1 -> score_ok r2 ->
  scaled mn <= scaled r1 -> scaled r1 <= scaled r2 -> scaled r2 <= scaled mx ->
  scaled mn < scaled mx ->
  F64.is_finite (F64.sub mx mn) = true ->
  F64.leb (F64.div (F64.sub r1 mn) (F64.sub mx mn))
          (F64.div (F64.sub r2 mn) (F64.sub mx mn)) = true.
Proof.
  intros Okx Okn Ok1 Ok2 H1 H12 H2 Hlt Hfin.
  destruct (normalized_score mx mn r2 Okx Okn Ok2 ltac:(lia) Hlt Hfin)
    as (_ & U2 & _).
  destruct Okx as [Vx Fx], Okn as [Vn Fn], Ok1 as [V1 F1], Ok2 as [V2 F2].
  pose proof (sub_scaled mx mn Vx Vn Fx Fn Hlt) as ER.
  pose proof (round_pos_emin_shape (scaled mx - scaled mn) ltac:(lia)) as SR.
  rewrite <- ER in SR.
  destruct (F64.sub mx mn) as [| | | sR mR eR] eqn:EqR; try discriminate;
    try contradiction.
  destruct sR; [contradiction |].
  destruct (Z.eq_dec (scaled r1) (scaled mn)) as [E | NE].
  - destruct (sub_equal r1 mn V1 Vn F1 Fn E) as (z & ->).
    cbn [F64.div SFdiv xorb]. rewrite xorb_false_r.
    destruct (F64.div (F64.sub r2 mn) (S754_finite false mR eR))
      as [| [] | | [] m e]; try discriminate U2; reflexivity.
  - pose proof (sub_scaled r1 mn V1 Vn F1 Fn ltac:(lia)) as E1.
    pose proof (sub_scaled r2 mn V2 Vn F2 Fn ltac:(lia)) as E2.
    pose proof (round_pos_emin_mono (scaled r1 - scaled mn) (scaled r2 - scaled mn)
                  ltac:(lia)) as M12.
    pose proof (round_pos_emin_mono (scaled r2 - scaled mn) (scaled mx - scaled mn)
                  ltac:(lia)) as M2R.
    rewrite <- E1, <- E2 in M12. rewrite <- E2, <- ER in M2R.
    destruct (F64.sub r2 mn) as [| [] | | [] m2 e2]; try contradiction;
      try (destruct (F64.sub r1 mn) as [| [] | | [] ? ?]; contradiction).
    destruct (F64.sub r1 mn) as [| [] | | [] m1 e1]; try contradiction.
    apply F64Monotone.div_mono.
    now apply F64Monotone.pair_le_F2R.
Qed.

(** X17. The min-max rescaling never inverts two raw scores: a document
    whose raw BM25 score is not above that of another does not get the
    greater normalised score.  (Two different raw scores may get the
    same normalised score.) *)
Theorem calculate_bm25_keeps_order (self : SimilarityCalculator)
  (query_words : list string) :
  let raw_scores := get_scores (bm25_model self) query_words in
  NoDup (bm25_id_map self) ->
  List.length raw_scores = List.length (bm25_id_map self) ->
  Forall score_ok raw_scores ->
  match raw_scores with
  | x :: xs => F64.is_finite (F64.sub (py_max x xs) (py_min x xs)) = true
  | [] => True
  end ->
  exists scores,
    calculate_bm25 self query_words = Ok scores /\
    forall i j doc_i doc_j raw_i raw_j,
      nth_error (bm25_id_map self) i = Some doc_i ->
      nth_error raw_scores i = Some raw_i ->
      nth_error (bm25_id_map self) j = Some doc_j ->
      nth_error raw_scores j = Some raw_j ->
      F64.leb raw_i raw_j = true ->
      exists s_i s_j,
        dict_get Z.eqb doc_i scores = Some s_i /\
        dict_get Z.eqb doc_j scores = Some s_j /\
        F64.leb s_i s_j = true.
Proof.
  intros raw_scores ND Len Hok Hfin.
  unfold calculate_bm25. fold raw_scores.
  destruct raw_scores as [| x xs] eqn:Raw.
  { exists []. cbn in Len. destruct (bm25_id_map self); [| discriminate].
    split; [reflexivity |]. intros [| i] ? ? ? ? ?; discriminate. }
  destruct (py_max_spec x xs Hok) as [Imx Amx].
  destruct (py_min_spec x xs Hok) as [Imn Amn].
  set (mx := py_max x xs) in *. set (mn := py_min x xs) in *.
  assert (Okx : score_ok mx) by (eapply Forall_forall in Hok; eauto).
  assert (Okn : score_ok mn) by (eapply Forall_forall in Hok; eauto).
  assert (Hle : scaled mn <= scaled mx).
  { eapply Forall_forall in Amx; [| exact Imn]. exact Amx. }
  destruct (Z.eq_dec (scaled mx) (scaled mn)) as [E | NE].
  - destruct Okx as [Vx Fx], Okn as [Vn Fn].
    destruct (sub_equal mx mn Vx Vn Fx Fn E) as (z & ->).
    assert (HZ : F64.eqb (S754_zero z) F64.zero = true) by (destruct z; reflexivity).
    rewrite HZ. rewrite comprehension_combine by assumption.
    eexists. split; [reflexivity |].
    intros i j doc_i doc_j raw_i raw_j Hi Hri Hj Hrj _.
    exists F64.zero, F64.zero. split; [| split; [| reflexivity]].
    + eapply dict_get_combine; eauto. now rewrite nth_error_map, Hri.
    + eapply dict_get_combine; eauto. now rewrite nth_error_map, Hrj.
  - assert (Hlt : scaled mn < scaled mx) by lia.
    destruct (normalized_score mx mn mx Okx Okn Okx ltac:(lia) Hlt Hfin)
      as (Hz & _).
    rewrite Hz. rewrite comprehension_combine by assumption.
    eexists. split; [reflexivity |].
    intros i j doc_i doc_j raw_i raw_j Hi Hri Hj Hrj Hl.
    exists (F64.div (F64.sub raw_i mn) (F64.sub mx mn)),
           (F64.div (F64.sub raw_j mn) (F64.sub mx mn)).
    split; [| split].
    + eapply dict_get_combine; eauto. now rewrite nth_error_map, Hri.
    + eapply dict_get_combine; eauto. now rewrite nth_error_map, Hrj.
    + assert (Ii : In raw_i (x :: xs)) by (eapply nth_error_In; eauto).
      assert (Ij : In raw_j (x :: xs)) by (eapply nth_error_In; eauto).
      assert (Oi : score_ok raw_i) by (eapply Forall_forall in Hok; eauto).
      assert (Oj : score_ok raw_j) by (eapply Forall_forall in Hok; eauto).
      apply normalized_mono; trivial.
      * eapply Forall_forall in Amn; [| exact Ii]. exact Amn.
      * destruct Oi, Oj. now apply leb_scaled.
      * eapply Forall_forall in Amx; [| exact Ij]. exact Amx.
Qed.

Lemma calculate_bm25_keeps_order_witness :
  exists scores s_3 s_1,
    calculate_bm25 TestData.calculator ["pantai"%string] = Ok scores /\
    dict_get Z.eqb 3 scores = Some s_3 /\
    dict_get Z.eqb 1 scores = Some s_1 /\
    F64.leb s_3 s_1 = true.
Proof.
  assert (ND : NoDup (bm25_id_map TestData.calculator)).
  { cbn. repeat constructor; cbn; intuition discriminate. }
  assert (OK : Forall score_ok
                 (get_scores (bm25_model TestData.calculator) ["pantai"%string])).
  { cbn. repeat constructor. }
  destruct (calculate_bm25_keeps_order TestData.calculator ["pantai"%string]
              ND eq_refl OK eq_refl) as (scores & E & H).
  destruct (H 2%nat 0%nat 3 1 _ _ eq_refl eq_refl eq_refl eq_refl eq_refl)
    as (s3 & s1 & H3 & H1 & L).
  exists scores, s3, s1. auto.
Defined.

Module F64Quotient.
Import Reals Lra.
Import F64Error F64Monotone.
Local Open Scope R_scope.

(** The rounding of a real number that is at least 2 ^ -1074 is not
    zero. *)
Lemma located_nonzero (f : F64.float) (v : R) :
  located f v -> pow2 (-1074) <= v -> F64.eqb f F64.zero = false.
Proof.
  intros (q & l & t & -> & Q & T & C & I) Hv.
  pose proof (inbetween_bounds _ _ _ I) as B.
  destruct (round_nearest_even_bounds q l) as [R1 _].
  assert (Q1 : (1 <= q)%Z).
  { destruct (Z.eq_dec t (-1074)) as [-> | Hne].
    - assert (O : pow2 (- -1074) * pow2 (-1074) = 1) by exact (pow2_opp (-1074)).
      pose proof (pow2_gt0 (- -1074)) as G.
      assert (1 <= v * pow2 (- -1074)) by nra.
      assert (L : IZR 1 < IZR q + 1) by (change (IZR 1) with 1; lra).
      rewrite <- plus_IZR in L. apply lt_IZR in L. lia.
    - assert (P : (0 < 2 ^ 52)%Z) by reflexivity.
      specialize (C ltac:(lia)). lia. }
  rewrite finish_normal by lia.
  destruct (_ <=? 971)%Z; reflexivity.
Qed.

(** The greatest value below 1.0 and the real number it stands for. *)
Definition below_one : F64.float := S754_finite false 9007199254740991 (-53).

Lemma located_below_one : located below_one (1 - pow2 (-53)).
Proof.
  exists (2 ^ 53 - 1)%Z, loc_Exact, (-53)%Z.
  split; [reflexivity |]. split; [lia |].
  split; [lia |]. split; [lia |].
  cbn [inbetween].
  assert (O : pow2 (-53) * pow2 53 = 1) by exact (pow2_opp 53).
  assert (P53 : pow2 53 = IZR (2 ^ 53)) by (apply pow2_IZR; lia).
  change (- -53)%Z with 53%Z. rewrite minus_IZR, <- P53. lra.
Qed.

Lemma located_not_one (f : F64.float) (v : R) :
  located f v -> v <= 1 - pow2 (-53) -> F64.eqb f F64.one = false.
Proof.
  intros Hf Hv.
  pose proof (located_mono f below_one v _ Hf located_below_one Hv) as L.
  destruct (F64.eqb f F64.one) eqn:E; [| reflexivity].
  assert (L1 : F64.leb F64.one f = true).
  { apply eqb_key in E as (Nf & N1 & E).
    apply F64Order.leb_key. repeat split; trivial.
    rewrite F64Order.lex_compare_antisym, E. discriminate. }
  pose proof (F64Order.leb_trans _ _ _ L1 L) as C. discriminate C.
Qed.

(** The quotient of two positive Python ints. *)
Lemma int_true_divide_located (a b : Z) (x : F64.float) :
  (0 < a)%Z -> (0 < b)%Z -> F64.int_true_divide a b = Ok x ->
  located x (IZR a / IZR b).
Proof.
  intros Ha Hb. unfold F64.int_true_divide.
  destruct (Z.eqb_spec b 0) as [| _]; [lia |].
  destruct a as [| pa |]; try lia. destruct b as [| pb |]; try lia.
  cbn [F64.exact_int].
  pose proof (div_located pa pb 0 0) as L. unfold F64.div in L.
  cbn [F2R] in L. change (pow2 0) with 1 in L.
  replace (1 * IZR (Zpos pa) * 1 / (1 * IZR (Zpos pb) * 1))
    with (IZR (Zpos pa) / IZR (Zpos pb)) in L
    by (assert (0 < IZR (Zpos pb)) by (apply IZR_lt; lia); field; lra).
  destruct (SFdiv F64.prec F64.emax _ _); intros [= <-]; exact L.
Qed.

Lemma int_true_divide_proper (a b : Z) (x : F64.float) :
  (0 < a < b)%Z -> (b <= 2 ^ 53)%Z -> F64.int_true_divide a b = Ok x ->
  F64.eqb x F64.zero = false /\ F64.eqb x F64.one = false.
Proof.
  intros Ha Hb H.
  pose proof (int_true_divide_located a b x ltac:(lia) ltac:(lia) H) as L.
  assert (Rb : 0 < IZR b) by (apply IZR_lt; lia).
  assert (Ra : 1 <= IZR a <= IZR b - 1).
  { split; [apply IZR_le; lia |]. rewrite <- minus_IZR. apply IZR_le. lia. }
  assert (Rc : IZR b <= pow2 53).
  { rewrite (pow2_IZR 53) by lia. now apply IZR_le. }
  assert (O : pow2 (-53) * pow2 53 = 1) by exact (pow2_opp 53).
  pose proof (pow2_gt0 (-53)) as G53.
  assert (E : IZR a = IZR a / IZR b * IZR b) by (field; lra).
  set (v := IZR a / IZR b) in *.
  split.
  - apply (located_nonzero x v L).
    assert (pow2 (-1074) <= pow2 (-53)) by (apply pow2_le; lia).
    assert (pow2 (-53) <= v); [| lra].
    apply Rmult_le_reg_r with (IZR b); [exact Rb |]. nra.
  - apply (located_not_one x v L).
    apply Rmult_le_reg_r with (IZR b); [exact Rb |]. nra.
Qed.

End F64Quotient.

(** ** The extreme values of the Jaccard similarity *)

Lemma filter_length_all {A : Type} (f : A -> bool) (l : list A) :
  List.length (filter f l) = List.length l -> forall x, In x l -> f x = true.
Proof.
  induction l as [| a l IH]; cbn; intros H x; [intros [] |].
  pose proof (filter_length_le f l) as L.
  destruct (f a) eqn:E; cbn in H; [| lia].
  intros [<- | Hx]; [exact E | apply IH; [lia | exact Hx]].
Qed.

Lemma filter_nil_none {A : Type} (f : A -> bool) (l : list A) :
  filter f l = [] -> forall x, In x l -> f x = false.
Proof.
  induction l as [| a l IH]; cbn; intros H x; [intros [] |].
  destruct (f a) eqn:E; [discriminate |].
  intros [<- | Hx]; [exact E | now apply IH].
Qed.

Lemma nodup_length_le (l : list string) :
  (List.length (set_of l) <= List.length l)%nat.
Proof.
  unfold set_of. induction l as [| a l IH]; cbn; [lia |].
  destruct (in_dec string_dec a l); cbn; lia.
Qed.

Lemma mem_false (w : string) (s : list string) : mem w s = false <-> ~ In w s.
Proof.
  rewrite <- mem_In. destruct (mem w s); split; intros H; congruence.
Qed.

(** X18. The Jaccard similarity is 0.0 exactly when no term is shared, and
    1.0 exactly when the query and the table have the same terms, at
    least one. *)
Theorem calculate_jaccard_extremes (query_words : list string)
  (doc_words_freq : freq_map) :
  len query_words + len doc_words_freq <= 2 ^ 53 ->
  exists j,
    calculate_jaccard query_words doc_words_freq = Ok j /\
    (F64.eqb j F64.zero = true <->
     forall w, In w query_words -> ~ In w (keys doc_words_freq)) /\
    (F64.eqb j F64.one = true <->
     (exists w, In w query_words) /\
     forall w, In w query_words <-> In w (keys doc_words_freq)).
Proof.
  intros Hlen. unfold calculate_jaccard.
  destruct (set_of_spec query_words) as [Nq Iq].
  destruct (set_of_spec (keys doc_words_freq)) as [Nd Id].
  set (qs := set_of query_words) in *.
  set (ds := set_of (keys doc_words_freq)) in *.
  destruct (set_inter_spec qs ds Nq) as [Ni Ii].
  pose proof (set_inter_le_union qs ds) as Liu.
  assert (Lu : len (set_union qs ds) <= 2 ^ 53).
  { pose proof (nodup_length_le query_words).
    pose proof (nodup_length_le (keys doc_words_freq)).
    pose proof (filter_length_le (fun w => negb (mem w qs)) ds).
    unfold set_union, len, keys in *. fold qs ds in H, H0.
    rewrite length_app. rewrite length_map in H0. lia. }
  assert (Z0 : List.length (set_inter qs ds) = 0%nat <->
               forall w, In w query_words -> ~ In w (keys doc_words_freq)).
  { split.
    - intros E w Hw Hk.
      assert (Hi : In w (set_inter qs ds)).
      { apply Ii. split; [now apply Iq | now apply Id]. }
      destruct (set_inter qs ds); [contradiction | discriminate].
    - intros H. destruct (set_inter qs ds) as [| w l] eqn:S; [reflexivity |].
      exfalso. assert (Hw : In w (w :: l)) by now left.
      apply Ii in Hw as [Hq Hd]. apply (H w); [now apply Iq | now apply Id]. }
  assert (E1 : List.length (set_inter qs ds) = List.length (set_union qs ds) <->
               forall w, In w query_words <-> In w (keys doc_words_freq)).
  { unfold set_inter, set_union. rewrite length_app.
    pose proof (filter_length_le (fun w => mem w ds) qs) as L1.
    split.
    - intros E.
      assert (A1 : List.length (filter (fun w => mem w ds) qs) = List.length qs)
        by lia.
      assert (A2 : filter (fun w => negb (mem w qs)) ds = []).
      { destruct (filter _ ds); [reflexivity | cbn in E; lia]. }
      intros w. rewrite <- Iq, <- Id. split; intros Hw.
      + apply mem_In. now apply (filter_length_all _ _ A1).
      + pose proof (filter_nil_none _ _ A2 w Hw) as F.
        apply negb_false_iff in F. now apply mem_In.
    - intros H.
      rewrite (filter_all (fun w => mem w ds) qs).
      + rewrite (filter_none (fun w => negb (mem w qs)) ds); [cbn; lia |].
        intros w Hw. apply negb_false_iff. apply mem_In.
        apply Iq, H, Id, Hw.
      + intros w Hw. apply mem_In. apply Id, H, Iq, Hw. }
  unfold len in *.
  set (inter := set_inter qs ds) in *. set (union := set_union qs ds) in *.
  destruct (Z.eqb_spec (Z.of_nat (List.length union)) 0) as [U0 | U0].
  - exists F64.zero. split; [reflexivity |].
    assert (I0 : List.length inter = 0%nat) by lia.
    split.
    + split; [intros _; now apply Z0 | reflexivity].
    + split; [discriminate |]. intros [(w & Hw) _]. exfalso.
      assert (Hu : In w union).
      { unfold union, set_union. apply in_or_app. left. now apply Iq. }
      destruct union; [contradiction | cbn in U0; lia].
  - destruct (Nat.eq_dec (List.length inter) 0) as [I0 | I0].
    { rewrite I0. cbn [Z.of_nat]. rewrite int_true_divide_zero by lia.
      exists F64.zero. split; [reflexivity |]. split.
      - split; [intros _; now apply Z0 | reflexivity].
      - split; [discriminate |]. intros [_ H]. apply E1 in H. lia. }
    destruct (Nat.eq_dec (List.length inter) (List.length union)) as [IU | IU].
    { rewrite IU, int_true_divide_self by lia.
      exists F64.one. split; [reflexivity |]. split.
      - split; [discriminate |]. intros H. apply Z0 in H. contradiction.
      - split; [| reflexivity]. intros _. split; [| now apply E1].
        destruct inter as [| w l] eqn:S; [contradiction I0; reflexivity |].
        exists w. apply Iq.
        assert (Hw : In w (w :: l)) by now left.
        now apply Ii in Hw. }
    destruct (int_true_divide_unit (Z.of_nat (List.length inter))
                (Z.of_nat (List.length union)) ltac:(lia) ltac:(lia))
      as (j & Ej & _).
    exists j. split; [exact Ej |].
    destruct (F64Quotient.int_true_divide_proper
                (Z.of_nat (List.length inter)) (Z.of_nat (List.length union)) j
                ltac:(lia) Lu Ej) as [P0 P1].
    rewrite P0, P1. split.
    + split; [discriminate |]. intros H. apply Z0 in H. contradiction.
    + split; [discriminate |]. intros [_ H]. apply E1 in H. contradiction.
Qed.

Lemma calculate_jaccard_extremes_witness :
  exists j,
    calculate_jaccard ["pantai"; "bali"]%string
      [("bali", 3); ("pantai", 1)]%string = Ok j /\
    F64.eqb j F64.one = true.
Proof.
  destruct (calculate_jaccard_extremes ["pantai"; "bali"]%string
              [("bali", 3); ("pantai", 1)]%string) as (j & E & _ & H1).
  - vm_compute. discriminate.
  - exists j. split; [exact E |]. apply H1. split.
    + exists "pantai"%string. now left.
    + intros w. cbn. tauto.
Defined.

(** ** What the scorers mean for the results of a search *)

Lemma calculate_jaccard_disjoint (query_words : list string) (table : freq_map) :
  (forall w, In w query_words -> ~ In w (keys table)) ->
  calculate_jaccard query_words table = Ok F64.zero.
Proof.
  intros H. unfold calculate_jaccard, set_inter.
  destruct (set_of_spec query_words) as [_ Iq].
  destruct (set_of_spec (keys table)) as [_ Id].
  rewrite (filter_none (fun w => mem w (set_of (keys table)))
             (set_of query_words)).
  2:{ intros w Hw. apply mem_false. intros C. apply (H w);
        [now apply Iq | now apply Id]. }
  cbn [List.length len]. unfold len.
  match goal with
  | |- context [?x =? 0] => destruct (Z.eqb_spec x 0) as [| NE]
  end; [reflexivity |].
  apply int_true_divide_zero. lia.
Qed.

Lemma dict_get_Some_key {V : Type} (w : string) (v : V) (d : dict string V) :
  dict_get String.eqb w d = Some v -> In w (keys d).
Proof.
  unfold keys. induction d as [| [k x] d IH]; cbn; [discriminate |].
  destruct (String.eqb_spec k w) as [-> | _]; [now left | right; auto].
Qed.

Lemma dot_product_of_shared (c doc : freq_map) :
  dot_product_of c doc <> 0 ->
  exists w, In w (keys c) /\ In w (keys doc).
Proof.
  induction c as [| [w qf] c IH]; [cbn; congruence |].
  rewrite dot_product_of_cons.
  destruct (dict_get String.eqb w doc) as [df |] eqn:G.
  - intros _. exists w. split; [now left |]. eapply dict_get_Some_key; eauto.
  - intros H. destruct IH as (w' & H1 & H2); [lia |].
    exists w'. split; [now right | exact H2].
Qed.

(** A cosine above 0.0 needs a shared term. *)
Lemma calculate_cosine_positive (query_words : list string) (table : freq_map)
  (r : F64.float) :
  calculate_cosine query_words table = Ok r -> F64.ltb F64.zero r = true ->
  exists w, In w query_words /\ In w (keys table).
Proof.
  intros H Hr.
  destruct (Z.eq_dec (dot_product_of (Counter query_words) table) 0) as [E | NE].
  - exfalso. revert H. unfold calculate_cosine, math_sqrt. rewrite E.
    pose proof (sum_squares_nonneg (values (Counter query_words))) as Pa.
    pose proof (sum_squares_nonneg (values table)) as Pb.
    set (a := sum_squares (values (Counter query_words))) in *.
    set (b := sum_squares (values table)) in *.
    assert (G : forall n f, 0 <= n -> F64.of_int n = Ok f ->
                F64.eqb (F64.sqrt f) F64.zero = false -> ge_one (F64.sqrt f)).
    { intros n f Hn Ef Hz. destruct (Z.eq_dec n 0) as [-> | Hne].
      - rewrite of_int_zero in Ef. injection Ef as <-. discriminate.
      - apply sqrt_ge_one. eapply of_int_ge_one; [| eassumption]. lia. }
    destruct (F64.of_int a) as [fa | xa] eqn:Ea; cbn [bind]; [| discriminate].
    destruct (F64.of_int b) as [fb | xb] eqn:Eb; cbn [bind]; [| discriminate].
    destruct (F64.eqb (F64.sqrt fa) F64.zero) eqn:Za; cbn [orb].
    { intros [= <-]. discriminate. }
    destruct (F64.eqb (F64.sqrt fb) F64.zero) eqn:Zb.
    { intros [= <-]. discriminate. }
    rewrite of_int_zero. cbn [bind]. unfold F64.float_divide.
    pose proof (mul_ge_one _ _ (G a fa Pa Ea Za) (G b fb Pb Eb Zb)) as Gm.
    rewrite (ge_one_nonzero _ Gm), (div_zero_ge_one _ Gm).
    intros [= <-]. discriminate.
  - destruct (dot_product_of_shared _ _ NE) as (w & Hw & Hk).
    exists w. split; [now apply In_keys_Counter | exact Hk].
Qed.

Lemma ltb_zero_not_zero (x : F64.float) :
  F64.ltb F64.zero x = true -> x <> F64.zero.
Proof. intros H ->. discriminate. Qed.

(** X19. Under a threshold above 0.0, the Jaccard and the cosine search
    return only documents that share a term with the query. *)
Theorem search_positive_shares_term {U : Unicode} (self : SimilarityCalculator)
  (query algorithm : string) (target_category : option string)
  (min_similarity : F64.float) (rs : list ScoredResult) :
  algorithm = "jaccard"%string \/ algorithm = "cosine"%string ->
  F64.ltb F64.zero min_similarity = true ->
  search self query algorithm target_category min_similarity = Ok rs ->
  Forall
    (fun r =>
       exists table w,
         In (content_id r, table) (inverted_index self) /\
         In w (preprocess_query query) /\ In w (keys table))
    rs.
Proof.
  intros Ha Ht H.
  destruct (preprocess_query query) as [| w0 ws] eqn:Q.
  { unfold search in H. rewrite Q in H. injection H as <-. constructor. }
  assert (Q' : preprocess_query query <> []) by (rewrite Q; discriminate).
  destruct (search_returns _ _ _ _ _ _ Q' H) as (bm25 & _ & _ & ->).
  rewrite Q in *.
  apply Forall_forall. intros r Hr.
  apply (Permutation_in _ (Permutation_sym (sort_reverse_perm similarity _))) in Hr.
  apply in_flat_map in Hr as ([doc_id table] & Hin & Hr).
  apply in_emitted in Hr as (_ & Hs & Hg & Er). cbn [fst snd] in Hs, Er.
  assert (Ei : content_id r = doc_id) by (rewrite Er; reflexivity).
  assert (Pos : F64.ltb F64.zero (similarity r) = true).
  { unfold F64.geb in Hg. eapply ltb_leb_trans; eassumption. }
  rewrite Ei. exists table.
  unfold score in Hs. destruct Ha as [-> | ->]; cbn in Hs.
  - assert (D : ~ forall w, In w (w0 :: ws) -> ~ In w (keys table)).
    { intros C. rewrite (calculate_jaccard_disjoint _ _ C) in Hs.
      injection Hs as E. rewrite <- E in Pos. discriminate. }
    assert (X : exists w, In w (w0 :: ws) /\ In w (keys table)).
    { clear - D. induction (w0 :: ws) as [| w l IH].
      - exfalso. apply D. intros ? [].
      - destruct (in_dec string_dec w (keys table)) as [Hk | Hk].
        + exists w. split; [now left | exact Hk].
        + destruct IH as (w' & H1 & H2).
          * intros C. apply D. intros x [<- | Hx]; [exact Hk | now apply C].
          * exists w'. split; [now right | exact H2]. }
    destruct X as (w & H1 & H2). exists w. auto.
  - destruct (calculate_cosine_positive _ _ _ Hs Pos) as (w & H1 & H2).
    exists w. auto.
Qed.

Lemma search_positive_shares_term_witness :
  exists rs,
    search TestData.calculator "pantai bali" "cosine" None
      min_similarity_shown = Ok rs /\
    rs <> [] /\
    Forall
      (fun r =>
         exists table w,
           In (content_id r, table) (inverted_index TestData.calculator) /\
           In w (preprocess_query "pantai bali") /\ In w (keys table))
      rs.
Proof.
  assert (H : exists rs,
             search TestData.calculator "pantai bali" "cosine" None
               min_similarity_shown = Ok rs /\ rs <> [])
    by (eexists; split; [vm_compute; reflexivity | discriminate]).
  destruct H as (rs & H & N). exists rs. split; [exact H |]. split; [exact N |].
  apply (search_positive_shares_term TestData.calculator "pantai bali" "cosine"
           None min_similarity_shown rs); [now right | reflexivity | exact H].
Defined.

(** X20. The Jaccard search needs no precondition: it always returns, and
    every similarity it reports lies between 0.0 and 1.0. *)
Theorem search_jaccard_unit {U : Unicode}
  (self : SimilarityCalculator) (query : string)
  (target_category : option string) (min_similarity : F64.float) :
  exists rs,
    search self query "jaccard" target_category min_similarity = Ok rs /\
    Forall (fun r => F64.leb F64.zero (similarity r) = true
                     /\ F64.leb (similarity r) F64.one = true) rs.
Proof.
  destruct (search_jaccard_returns self query target_category min_similarity)
    as (rs & H).
  exists rs. split; [exact H |].
  destruct (preprocess_query query) as [| w0 ws] eqn:Q.
  { unfold search in H. rewrite Q in H. injection H as <-. constructor. }
  assert (Q' : preprocess_query query <> []) by (rewrite Q; discriminate).
  destruct (search_returns _ _ _ _ _ _ Q' H) as (bm25 & _ & _ & ->).
  apply Forall_forall. intros r Hr.
  apply (Permutation_in _ (Permutation_sym (sort_reverse_perm similarity _))) in Hr.
  apply in_flat_map in Hr as ([doc_id table] & Hin & Hr).
  apply in_emitted in Hr as (_ & Hs & _ & _). cbn [fst snd] in Hs.
  unfold score in Hs. cbn in Hs.
  destruct (calculate_jaccard_returns (preprocess_query query) table)
    as (j & Ej & Uj).
  rewrite Ej in Hs. injection Hs as <-. exact Uj.
Qed.

Module F64Percent.
Import Reals Lra.
Import F64Error F64Monotone F64Quotient.
Local Open Scope R_scope.

(** The product of two positive values is the rounding of the product
    of the real numbers they stand for. *)
Lemma mul_located (m1 m2 : positive) (e1 e2 : Z) :
  (-1074 < e1 + e2 -> 2 ^ 52 <= Zpos m1 * Zpos m2)%Z ->
  located (F64.mul (S754_finite false m1 e1) (S754_finite false m2 e2))
    (F2R (S754_finite false m1 e1) * F2R (S754_finite false m2 e2)).
Proof.
  intros Hc. unfold F64.mul, SFmul. cbn [xorb F2R].
  replace (1 * IZR (Zpos m1) * pow2 e1 * (1 * IZR (Zpos m2) * pow2 e2))
    with (IZR (Zpos (m1 * m2)) * pow2 (e1 + e2)).
  - apply binary_round_aux_located; [lia | reflexivity |].
    rewrite Pos2Z.inj_mul. exact Hc.
  - rewrite Pos2Z.inj_mul, mult_IZR, pow2_plus. ring.
Qed.

(** The value of a float in hundredths is rounded from its exact
    value. *)
Lemma hundredths_located (m : positive) (e : Z) :
  exists q l,
    hundredths m e = round_nearest_even q l /\
    inbetween q l (F2R (S754_finite false m e) * 100).
Proof.
  unfold hundredths. cbn [F2R]. destruct (Z.leb_spec 0 e) as [He | He].
  - exists (Zpos m * 2 ^ e * 100)%Z, loc_Exact. split; [reflexivity |].
    cbn [inbetween]. rewrite !mult_IZR, <- pow2_IZR by lia. ring.
  - set (d := (2 ^ (- e))%Z). set (p := (Zpos m * 100)%Z).
    assert (Hd : (0 < d)%Z) by (apply Z.pow_pos_nonneg; lia).
    pose proof (Z.div_mod p d ltac:(lia)) as DM.
    pose proof (Z.mod_pos_bound p d Hd) as B.
    assert (Rd : 0 < IZR d) by (apply IZR_lt; lia).
    assert (V : 1 * IZR (Zpos m) * pow2 e * 100
                = IZR (p / d) + IZR (p mod d) / IZR d).
    { replace (IZR (p / d) + IZR (p mod d) / IZR d) with (IZR p / IZR d).
      - unfold p, d. rewrite mult_IZR, <- pow2_IZR, pow2_inv by lia.
        pose proof (pow2_gt0 e).
        change (IZR 100) with 100. field. lra.
      - rewrite DM at 1. rewrite plus_IZR, mult_IZR. field. lra. }
    rewrite V. unfold round_half_even_div. fold p d.
    set (q := (p / d)%Z) in *. set (r := (p mod d)%Z) in *.
    assert (Rr : 0 <= IZR r) by (apply IZR_le; lia).
    assert (Ef : IZR r = IZR r / IZR d * IZR d) by (field; lra).
    set (f := IZR r / IZR d) in *.
    destruct (Z.eq_dec r 0) as [R0 | R0].
    + exists q, loc_Exact. split.
      * destruct (Z.compare_spec (2 * r) d); try lia. reflexivity.
      * cbn [inbetween]. assert (f = 0); [| lra].
        subst f. rewrite R0. unfold Rdiv. ring.
    + assert (R1 : 1 <= IZR r) by (apply IZR_le; lia).
      destruct (Z.compare_spec (2 * r) d) as [E | L | G].
      * exists q, (loc_Inexact Eq). split; [reflexivity |].
        cbn [inbetween]. apply (f_equal IZR) in E. rewrite mult_IZR in E. nra.
      * exists q, (loc_Inexact Lt). split; [reflexivity |].
        cbn [inbetween]. apply IZR_lt in L. rewrite mult_IZR in L. split; nra.
      * exists q, (loc_Inexact Gt). split; [reflexivity |].
        cbn [inbetween]. apply IZR_lt in G. rewrite mult_IZR in G.
        assert (IZR r < IZR d) by (apply IZR_lt; lia). split; nra.
Qed.

Lemma hundredths_mono (m1 m2 : positive) (e1 e2 : Z) :
  F2R (S754_finite false m1 e1) <= F2R (S754_finite false m2 e2) ->
  (hundredths m1 e1 <= hundredths m2 e2)%Z.
Proof.
  intros H.
  destruct (hundredths_located m1 e1) as (q1 & l1 & -> & I1).
  destruct (hundredths_located m2 e2) as (q2 & l2 & -> & I2).
  apply (round_nearest_even_mono _ _ _ _ _ _ I1 I2). lra.
Qed.

Lemma hundredths_nonneg (m : positive) (e : Z) : (0 <= hundredths m e)%Z.
Proof.
  destruct (hundredths_located m e) as (q & l & -> & I).
  pose proof (inbetween_bounds _ _ _ I) as B.
  destruct (round_nearest_even_bounds q l) as [R1 _].
  assert (P : 0 < F2R (S754_finite false m e)).
  { cbn [F2R]. pose proof (pow2_gt0 e).
    assert (0 < IZR (Zpos m)) by (apply IZR_lt; lia). nra. }
  assert (L : IZR (-1) < IZR q) by (change (IZR (-1)) with (-1); lra).
  apply lt_IZR in L. lia.
Qed.

(** The order of two positive values in standard form is the order of
    the real numbers they stand for. *)
Lemma leb_F2R (m1 m2 : positive) (e1 e2 : Z) :
  (Zpos m1 < 2 ^ 53)%Z -> (e1 < e2 -> 2 ^ 52 <= Zpos m2)%Z ->
  F64.leb (S754_finite false m1 e1) (S754_finite false m2 e2) = true ->
  F2R (S754_finite false m1 e1) <= F2R (S754_finite false m2 e2).
Proof.
  intros H1 H2 L. apply leb_finite_pos in L. cbn [F2R].
  pose proof (pow2_gt0 e1) as G1. pose proof (pow2_gt0 e2) as G2.
  apply IZR_lt in H1.
  assert (P53 : IZR (2 ^ 53) = 2 * IZR (2 ^ 52)).
  { change (2 ^ 53)%Z with (2 * 2 ^ 52)%Z. now rewrite mult_IZR. }
  assert (P52 : 0 < IZR (2 ^ 52)) by (apply IZR_lt; reflexivity).
  destruct L as [L | [-> L]].
  - specialize (H2 L). apply IZR_le in H2.
    assert (S : pow2 (e1 + 1) <= pow2 e2) by (apply pow2_le; lia).
    rewrite pow2_succ in S. nra.
  - assert (IZR (Zpos m1) <= IZR (Zpos m2)) by (apply IZR_le; lia). nra.
Qed.

Lemma valid_leb_F2R (m1 m2 : positive) (e1 e2 : Z) :
  F64.valid (S754_finite false m1 e1) = true ->
  F64.valid (S754_finite false m2 e2) = true ->
  F64.leb (S754_finite false m1 e1) (S754_finite false m2 e2) = true ->
  F2R (S754_finite false m1 e1) <= F2R (S754_finite false m2 e2).
Proof.
  intros V1 V2 L.
  destruct (valid_finite _ _ _ V1) as [C1 _], (valid_finite _ _ _ V2) as [C2 _].
  destruct (canonical_facts _ _ C1) as (A1 & A2 & _).
  destruct (canonical_facts _ _ C2) as (B1 & _ & B3).
  apply leb_F2R; trivial. intros H. apply B3. lia.
Qed.

(** The value [finish] gives to a mantissa and an exponent. *)
Lemma finish_F2R (M t : Z) (m : positive) (e : Z) :
  (1 <= M <= 2 ^ 53)%Z -> (-1074 <= t)%Z ->
  finish false M t = S754_finite false m e ->
  F2R (S754_finite false m e) = IZR M * pow2 t /\ (Zpos m < 2 ^ 53)%Z /\
  (t <= e <= 971)%Z.
Proof.
  intros HM Ht. rewrite finish_normal by lia. unfold normal_pair.
  destruct (Z.ltb_spec M (2 ^ 53)) as [L | L]; cbn [fst snd].
  - destruct (Z.leb_spec t 971); [| discriminate].
    intros [= <- <-]. cbn [F2R]. rewrite Z2Pos.id by lia.
    split; [ring |]. split; lia.
  - destruct (Z.leb_spec (t + 1) 971); [| discriminate].
    intros [= <- <-]. cbn [F2R].
    change (Zpos (Z.to_pos (2 ^ 52))) with (2 ^ 52)%Z.
    replace M with (2 * 2 ^ 52)%Z by (change (2 ^ 53)%Z with (2 * 2 ^ 52)%Z in *; lia).
    rewrite mult_IZR, pow2_succ.
    change (IZR (2 ^ 52)) with (IZR 4503599627370496).
    split; [ring |]. split; [reflexivity | lia].
Qed.

(** Two roundings in the order of the real numbers rounded. *)
Lemma rounded_value_mono (q1 q2 t1 t2 : Z) (l1 l2 : location) (v1 v2 : R) :
  (0 <= q1 < 2 ^ 53)%Z -> (0 <= q2 < 2 ^ 53)%Z ->
  (-1074 < t1 -> 2 ^ 52 <= q1)%Z -> (-1074 < t2 -> 2 ^ 52 <= q2)%Z ->
  (-1074 <= t1)%Z -> (-1074 <= t2)%Z ->
  inbetween q1 l1 (v1 * pow2 (- t1)) -> inbetween q2 l2 (v2 * pow2 (- t2)) ->
  v1 <= v2 ->
  IZR (round_nearest_even q1 l1) * pow2 t1
  <= IZR (round_nearest_even q2 l2) * pow2 t2.
Proof.
  intros Q1 Q2 C1 C2 T1 T2 I1 I2 Hv.
  pose proof (inbetween_bounds _ _ _ I1) as B1.
  pose proof (inbetween_bounds _ _ _ I2) as B2.
  destruct (round_nearest_even_bounds q1 l1) as [R1 _].
  destruct (round_nearest_even_bounds q2 l2) as [R2 _].
  rewrite !pow2_inv in *.
  pose proof (pow2_gt0 t1) as G1. pose proof (pow2_gt0 t2) as G2.
  assert (V1 : IZR q1 * pow2 t1 <= v1 < (IZR q1 + 1) * pow2 t1).
  { assert (E : v1 = v1 * / pow2 t1 * pow2 t1) by (field; lra).
    rewrite E. split; [apply Rmult_le_compat_r | apply Rmult_lt_compat_r]; lra. }
  assert (V2 : IZR q2 * pow2 t2 <= v2 < (IZR q2 + 1) * pow2 t2).
  { assert (E : v2 = v2 * / pow2 t2 * pow2 t2) by (field; lra).
    rewrite E. split; [apply Rmult_le_compat_r | apply Rmult_lt_compat_r]; lra. }
  assert (U1 : IZR (round_nearest_even q1 l1) <= IZR (2 ^ 53)) by (apply IZR_le; lia).
  assert (U2 : IZR q2 + 1 <= IZR (2 ^ 53)).
  { rewrite <- plus_IZR. apply IZR_le. lia. }
  assert (W2 : IZR q2 <= IZR (round_nearest_even q2 l2)) by (apply IZR_le; lia).
  assert (P53 : IZR (2 ^ 53) = 2 * IZR (2 ^ 52)).
  { change (2 ^ 53)%Z with (2 * 2 ^ 52)%Z. now rewrite mult_IZR. }
  assert (P52 : 0 < IZR (2 ^ 52)) by (apply IZR_lt; reflexivity).
  destruct (Z.lt_trichotomy t1 t2) as [L | [E | G]].
  - assert (L52 : IZR (2 ^ 52) <= IZR q2) by (apply IZR_le; apply C2; lia).
    assert (S : pow2 (t1 + 1) <= pow2 t2) by (apply pow2_le; lia).
    rewrite pow2_succ in S. nra.
  - subst t2.
    assert (M : (round_nearest_even q1 l1 <= round_nearest_even q2 l2)%Z).
    { apply (round_nearest_even_mono q1 q2 l1 l2 _ _ I1 I2).
      apply Rmult_le_compat_r; [| exact Hv].
      apply Rlt_le. now apply Rinv_0_lt_compat. }
    apply IZR_le in M. nra.
  - exfalso.
    assert (L52 : IZR (2 ^ 52) <= IZR q1) by (apply IZR_le; apply C1; lia).
    assert (S : pow2 (t2 + 1) <= pow2 t1) by (apply pow2_le; lia).
    rewrite pow2_succ in S.
    assert (v2 < IZR (2 ^ 53) * pow2 t2) by nra.
    assert (IZR (2 ^ 52) * pow2 t1 <= v1) by nra.
    nra.
Qed.

(** A product with [100.0], as [finish] leaves it. *)
Lemma times_hundred (m : positive) (e : Z) :
  (-1074 <= e)%Z ->
  exists q l t,
    F64.mul (S754_finite false m e) hundred
    = finish false (round_nearest_even q l) t /\
    (1 <= round_nearest_even q l <= 2 ^ 53)%Z /\
    (0 <= q < 2 ^ 53)%Z /\ (-1074 <= t)%Z /\ (-1074 < t -> 2 ^ 52 <= q)%Z /\
    inbetween q l (F2R (S754_finite false m e) * 100 * pow2 (- t)).
Proof.
  intros He.
  assert (H100 : F2R hundred = 100).
  { cbn [F2R hundred].
    assert (O : pow2 (-46) * pow2 46 = 1) by exact (pow2_opp 46).
    assert (P : pow2 46 = IZR (2 ^ 46)) by (apply pow2_IZR; lia).
    change 7036874417766400%Z with (100 * 2 ^ 46)%Z.
    rewrite mult_IZR, <- P. change (IZR 100) with 100. nra. }
  assert (L : located (F64.mul (S754_finite false m e) hundred)
                (F2R (S754_finite false m e) * 100)).
  { rewrite <- H100. apply mul_located. intros _.
    change (Zpos 7036874417766400) with (100 * 2 ^ 46)%Z.
    change (2 ^ 52)%Z with (64 * 2 ^ 46)%Z.
    assert (0 < 2 ^ 46)%Z by reflexivity. nia. }
  assert (N : F64.eqb (F64.mul (S754_finite false m e) hundred) F64.zero = false).
  { apply (located_nonzero _ _ L).
    cbn [F2R]. pose proof (pow2_gt0 e) as G.
    assert (1 <= IZR (Zpos m)) by (apply IZR_le; lia).
    assert (pow2 (-1074) <= pow2 e) by (apply pow2_le; lia). nra. }
  destruct L as (q & l & t & E & Q & T & C & I).
  exists q, l, t.
  destruct (round_nearest_even_bounds q l) as [R1 _].
  split; [exact E |]. split; [| auto].
  split; [| lia]. rewrite E in N.
  destruct (Z.eq_dec (round_nearest_even q l) 0) as [Z0 | Z0]; [| lia].
  rewrite Z0, finish_zero in N. discriminate.
Qed.

(** The percentages of two scores in standard form, the first not above
    the second and the second not above 1.0: two finite products with
    100.0 whose hundredths are in the same order, at most 10000. *)
Lemma percent_pair (m1 m2 : positive) (e1 e2 : Z) :
  F64.valid (S754_finite false m1 e1) = true ->
  F64.valid (S754_finite false m2 e2) = true ->
  F64.leb (S754_finite false m1 e1) (S754_finite false m2 e2) = true ->
  F64.leb (S754_finite false m2 e2) F64.one = true ->
  exists (n1 n2 : positive) (t1 t2 : Z),
    F64.mul (S754_finite false m1 e1) hundred = S754_finite false n1 t1 /\
    F64.mul (S754_finite false m2 e2) hundred = S754_finite false n2 t2 /\
    (0 <= hundredths n1 t1 <= hundredths n2 t2)%Z /\
    (hundredths n2 t2 <= 10000)%Z.
Proof.
  intros V1 V2 L12 L2.
  assert (V0 : F64.valid F64.one = true) by reflexivity.
  pose proof (valid_leb_F2R _ _ _ _ V1 V2 L12) as R12.
  pose proof (valid_leb_F2R _ _ _ _ V2 V0 L2) as R2.
  assert (One : F2R F64.one = 1).
  { cbn [F2R F64.one].
    assert (O : pow2 (-52) * pow2 52 = 1) by exact (pow2_opp 52).
    assert (P : pow2 52 = IZR (2 ^ 52)) by (apply pow2_IZR; lia).
    change 4503599627370496%Z with (2 ^ 52)%Z. rewrite <- P. lra. }
  fold F64.one in R2. rewrite One in R2.
  destruct (valid_finite _ _ _ V1) as [C1 _], (valid_finite _ _ _ V2) as [C2 _].
  destruct (canonical_facts _ _ C1) as (A1 & _), (canonical_facts _ _ C2) as (A2 & _).
  destruct (times_hundred m1 e1 A1) as (q1 & l1 & t1 & E1 & M1 & Q1 & T1 & K1 & I1).
  destruct (times_hundred m2 e2 A2) as (q2 & l2 & t2 & E2 & M2 & Q2 & T2 & K2 & I2).
  destruct (times_hundred 4503599627370496 (-52) ltac:(lia))
    as (q0 & l0 & t0 & E0 & M0 & Q0 & T0 & K0 & I0).
  fold F64.one in E0, I0. rewrite One in I0.
  assert (H0 : F64.mul F64.one hundred = hundred) by reflexivity.
  rewrite H0 in E0. symmetry in E0.
  destruct (finish_F2R _ _ _ _ M0 T0 E0) as (F0 & _ & _).
  assert (H100 : F2R hundred = 100).
  { cbn [F2R hundred].
    assert (O : pow2 (-46) * pow2 46 = 1) by exact (pow2_opp 46).
    assert (P : pow2 46 = IZR (2 ^ 46)) by (apply pow2_IZR; lia).
    change 7036874417766400%Z with (100 * 2 ^ 46)%Z.
    rewrite mult_IZR, <- P. change (IZR 100) with 100. nra. }
  fold hundred in F0. rewrite H100 in F0.
  set (v1 := F2R (S754_finite false m1 e1)) in *.
  set (v2 := F2R (S754_finite false m2 e2)) in *.
  pose proof (rounded_value_mono q1 q2 t1 t2 l1 l2 (v1 * 100) (v2 * 100)
                Q1 Q2 K1 K2 T1 T2 I1 I2 ltac:(lra)) as O12.
  pose proof (rounded_value_mono q2 q0 t2 t0 l2 l0 (v2 * 100) (1 * 100)
                Q2 Q0 K2 K0 T2 T0 I2 I0 ltac:(lra)) as O20.
  rewrite <- F0 in O20.
  set (N1 := round_nearest_even q1 l1) in *.
  set (N2 := round_nearest_even q2 l2) in *.
  assert (B2 : IZR N2 * pow2 t2 <= pow2 7 - 28).
  { assert (pow2 7 = 128); [| lra].
    rewrite (pow2_IZR 7) by lia. reflexivity. }
  assert (B1 : IZR N1 * pow2 t1 <= pow2 7 - 28) by lra.
  assert (Fin : forall N t, (1 <= N <= 2 ^ 53)%Z -> (-1074 <= t)%Z ->
                  IZR N * pow2 t <= pow2 7 - 28 ->
                  exists n e, finish false N t = S754_finite false n e).
  { intros N t HN Ht Hb. rewrite finish_normal by lia. unfold normal_pair.
    assert (Tt : (t < 7)%Z).
    { apply pow2_lt_inv. pose proof (pow2_gt0 t) as G.
      assert (1 <= IZR N) by (apply IZR_le; lia). nra. }
    destruct (Z.ltb_spec N (2 ^ 53)); cbn [fst snd].
    - destruct (Z.leb_spec t 971); [eauto | lia].
    - destruct (Z.leb_spec (t + 1) 971); [eauto | lia]. }
  destruct (Fin N1 t1 M1 T1 B1) as (n1 & s1 & G1).
  destruct (Fin N2 t2 M2 T2 B2) as (n2 & s2 & G2).
  rewrite G1 in E1. rewrite G2 in E2.
  destruct (finish_F2R _ _ _ _ M1 T1 G1) as (F1 & _ & _).
  destruct (finish_F2R _ _ _ _ M2 T2 G2) as (F2 & _ & _).
  exists n1, n2, s1, s2. split; [exact E1 |]. split; [exact E2 |].
  split; [split; [apply hundredths_nonneg |] |].
  - apply hundredths_mono. rewrite F1, F2. exact O12.
  - change 10000%Z with (hundredths 7036874417766400 (-46)).
    apply hundredths_mono. fold hundred. rewrite F2, H100. lra.
Qed.

End F64Percent.

(** ** The percentage shown for a score *)

Example format_similarity_percentage_ex :
  format_similarity_percentage (S754_finite false 7701155362803548 (-53))
  = "85.50%"%string.
Proof. reflexivity. Qed.


(** X21. Scores between 0.0 and 1.0 are shown as percentages between 0.00%
    and 100.00%, with two decimals, and in the order of the scores: the
    greater score never gets the smaller percentage. *)
Theorem format_similarity_percentage_shown (s1 s2 : F64.float) :
  F64.valid s1 = true -> F64.valid s2 = true ->
  F64.ltb F64.zero s1 = true -> F64.leb s1 s2 = true ->
  F64.leb s2 F64.one = true ->
  exists n1 n2,
    0 <= n1 <= n2 /\ n2 <= 10000 /\
    format_similarity_percentage s1
    = (decimal (n1 / 100) ++ "." ++ two_digits (n1 mod 100) ++ "%")%string /\
    format_similarity_percentage s2
    = (decimal (n2 / 100) ++ "." ++ two_digits (n2 mod 100) ++ "%")%string /\
    format_similarity_percentage F64.zero = "0.00%"%string /\
    format_similarity_percentage F64.one = "100.00%"%string.
Proof.
  intros V1 V2 P1 L12 L2.
  assert (P2 : F64.ltb F64.zero s2 = true) by (eapply ltb_leb_trans; eassumption).
  pose proof (F64Order.leb_trans _ _ _ L12 L2) as L1.
  destruct s1 as [| [] | | [] m1 e1]; try discriminate.
  destruct s2 as [| [] | | [] m2 e2]; try discriminate.
  destruct (F64Percent.percent_pair m1 m2 e1 e2 V1 V2 L12 L2)
    as (n1 & n2 & t1 & t2 & E1 & E2 & H12 & H2).
  exists (hundredths n1 t1), (hundredths n2 t2).
  split; [exact H12 |]. split; [exact H2 |].
  unfold format_similarity_percentage. rewrite E1, E2.
  cbn [format_2f]. repeat split.
  - cbn [String.append]. now rewrite !append_assoc_string.
  - cbn [String.append]. now rewrite !append_assoc_string.
Qed.

Lemma format_similarity_percentage_shown_witness :
  exists n1 n2,
    0 <= n1 <= n2 /\ n2 <= 10000 /\
    format_similarity_percentage TestData.half
    = (decimal (n1 / 100) ++ "." ++ two_digits (n1 mod 100) ++ "%")%string /\
    format_similarity_percentage (S754_finite false 7701155362803548 (-53))
    = (decimal (n2 / 100) ++ "." ++ two_digits (n2 mod 100) ++ "%")%string.
Proof.
  destruct (format_similarity_percentage_shown TestData.half
              (S754_finite false 7701155362803548 (-53))
              eq_refl eq_refl eq_refl eq_refl eq_refl)
    as (n1 & n2 & H1 & H2 & E1 & E2 & _).
  exists n1, n2. auto.
Defined.
